(** * sports-app: market reconciliation, wager placement and settlement

    A shallow embedding of the store-facing core of the backend
    ([routes/bet.js] and [routes/admin.js]) together with the properties
    of its ledger, its settlement passes and its odds reconciliation.

    Modelling conventions.
    - A JavaScript number is a value of [num]: [NaN], the two infinities, or
      a finite value, given as an exact rational ([Qc]).  The sums and the
      differences of the source are computed by the store ([coins + $1]) and
      are exact.  Its one product is computed by JavaScript and is the
      binary64 product ([nmul]): the operands and the result are rounded to
      the nearest binary64 value, ties to even, and a result beyond the
      largest binary64 value is an infinity.  The two zeros of binary64 are
      not told apart.  Comparisons and [Math.max] take the numbers as they
      are given; on binary64 values they are those of JavaScript.
    - The relational store is a record of three tables, each a list of rows
      in insertion order.  Columns that no modelled statement reads or
      writes (names, e-mail addresses, timestamps) are left out.
    - Every [pool.query] of the source is one constructor of [query]; a
      request handler is a [prog], a tree of statements.  The source opens
      no transaction, so a statement is the unit of atomicity: handlers
      interleave between statements and a handler that fails leaves behind
      what its earlier statements wrote. *)

From Stdlib Require Import List Bool ZArith Lia String Ascii.
From Stdlib Require Import QArith Qcanon Qround Qpower Qabs Lqa.
Import ListNotations.

Set Implicit Arguments.

(** ** JavaScript numbers *)

Inductive num : Type :=
| NaN
| PInf
| NInf
| Fin (q : Qc).

Definition Qc_ltb (a b : Qc) : bool := negb (Qle_bool b a).
Definition Qc_leb (a b : Qc) : bool := Qle_bool a b.
Definition Qc_sign (a : Qc) : comparison := Qccompare a 0%Qc.

(** [a + b] *)
Definition nadd (a b : num) : num :=
  match a, b with
  | NaN, _ | _, NaN => NaN
  | PInf, NInf | NInf, PInf => NaN
  | PInf, _ | _, PInf => PInf
  | NInf, _ | _, NInf => NInf
  | Fin x, Fin y => Fin (x + y)%Qc
  end.

Definition nneg (a : num) : num :=
  match a with
  | NaN => NaN
  | PInf => NInf
  | NInf => PInf
  | Fin x => Fin (- x)%Qc
  end.

(** [a - b] *)
Definition nsub (a b : num) : num := nadd a (nneg b).

Definition inf_of_sign (c : comparison) : num :=
  match c with
  | Gt => PInf
  | Lt => NInf
  | Eq => NaN
  end.

(** *** Binary64

    The finite binary64 values are the rationals [m * 2^e] with
    [|m| < 2^53] and [-1074 <= e <= 971]. *)

(** [2^e] *)
Definition pow2 (e : Z) : Q := Qpower 2 e.

(** The integer nearest to [q], the even one of two that are equally near. *)
Definition round_half_even (q : Q) : Z :=
  let f := Qfloor q in
  match Qcompare (q - inject_Z f) (1 # 2) with
  | Lt => f
  | Gt => (f + 1)%Z
  | Eq => if Z.even f then f else (f + 1)%Z
  end.

(** For [q > 0], the exponent [e] with [2^e <= q < 2^(e+1)]. *)
Definition ilog2 (q : Q) : Z :=
  let e := (Z.log2 (Qnum q) - Z.log2 (Zpos (Qden q)))%Z in
  if Qle_bool (pow2 e) q then e else (e - 1)%Z.

(** The exponent of the last place of the binary64 values next to [q > 0]:
    53 significant bits, and [2^-1074] between the subnormal values. *)
Definition ulp_exponent (q : Q) : Z := Z.max (ilog2 q - 52) (-1074).

(** The binary64 value nearest to [q > 0], ties to even; from [2^1024] on
    the rounded value is [Infinity]. *)
Definition round_pos (q : Q) : num :=
  let e := ulp_exponent q in
  let r := Qred (inject_Z (round_half_even (q / pow2 e)) * pow2 e) in
  if Qle_bool (pow2 1024) r then PInf else Fin (Q2Qc r).

(** The binary64 value nearest to [q]. *)
Definition round64 (q : Qc) : num :=
  match Qcompare q 0 with
  | Eq => Fin q
  | Gt => round_pos q
  | Lt => nneg (round_pos (- q))
  end.

(** [q] is a finite binary64 value. *)
Definition binary64 (q : Qc) : Prop :=
  exists m e : Z,
    (Z.abs m < 2 ^ 53)%Z /\ (-1074 <= e <= 971)%Z /\ q == inject_Z m * pow2 e.

(** [r] is a binary64 value and no binary64 value is nearer to [q]. *)
Definition nearest64 (q r : Qc) : Prop :=
  binary64 r /\ forall y : Qc, binary64 y -> (Qabs (r - q) <= Qabs (y - q))%Q.

(** A finite product [p] of the finite numbers [s] and [o] as JavaScript
    defines it: a binary64 value nearest to the exact product of binary64
    values nearest to [s] and to [o]. *)
Definition binary64_product (s o p : Qc) : Prop :=
  exists s' o' : Qc,
    nearest64 s s' /\ nearest64 o o' /\ nearest64 (s' * o')%Qc p.

(** A number as JavaScript holds it, [Number(v)] of a value read from the
    store: the binary64 value nearest to it. *)
Definition to_binary64 (a : num) : num :=
  match a with
  | Fin q => round64 q
  | _ => a
  end.

(** [a * b], the binary64 product. *)
Definition nmul (a b : num) : num :=
  match to_binary64 a, to_binary64 b with
  | NaN, _ | _, NaN => NaN
  | PInf, PInf | NInf, NInf => PInf
  | PInf, NInf | NInf, PInf => NInf
  | PInf, Fin y => inf_of_sign (Qc_sign y)
  | NInf, Fin y => inf_of_sign (CompOpp (Qc_sign y))
  | Fin x, PInf => inf_of_sign (Qc_sign x)
  | Fin x, NInf => inf_of_sign (CompOpp (Qc_sign x))
  | Fin x, Fin y => round64 (x * y)%Qc
  end.

(** [a < b]; every comparison with [NaN] is false. *)
Definition nlt (a b : num) : bool :=
  match a, b with
  | NaN, _ | _, NaN => false
  | _, NInf => false
  | NInf, _ => true
  | PInf, _ => false
  | Fin _, PInf => true
  | Fin x, Fin y => Qc_ltb x y
  end.

(** [a <= b] *)
Definition nle (a b : num) : bool :=
  match a, b with
  | NaN, _ | _, NaN => false
  | NInf, _ => true
  | _, PInf => true
  | _, NInf => false
  | PInf, _ => false
  | Fin x, Fin y => Qc_leb x y
  end.

(** [a > b] *)
Definition ngt (a b : num) : bool := nlt b a.

(** [Number.isNaN(a)] *)
Definition isNaN (a : num) : bool :=
  match a with
  | NaN => true
  | _ => false
  end.

(** [Number.isFinite(a)] *)
Definition isFinite (a : num) : bool :=
  match a with
  | Fin _ => true
  | _ => false
  end.

(** [Math.max(a, b)] *)
Definition Math_max (a b : num) : num :=
  match a, b with
  | NaN, _ | _, NaN => NaN
  | _, _ => if nlt a b then b else a
  end.

(** Truthiness of a number: [0] and [NaN] are falsy. *)
Definition truthy_num (a : num) : bool :=
  match a with
  | NaN => false
  | Fin x => negb (Qc_eq_bool x 0%Qc)
  | _ => true
  end.

(** Truthiness of a nullable number. *)
Definition truthy_onum (a : option num) : bool :=
  match a with
  | None => false
  | Some x => truthy_num x
  end.

(** [Number(v)] for a nullable numeric column: [Number(null)] is [0]. *)
Definition Number_col (v : option num) : num :=
  match v with
  | None => Fin 0%Qc
  | Some x => x
  end.

(** SQL [COALESCE(c, 0)] *)
Definition COALESCE0 (c : option num) : num :=
  match c with
  | None => Fin 0%Qc
  | Some x => x
  end.

Definition num_eqb (a b : num) : bool :=
  match a, b with
  | NaN, NaN | PInf, PInf | NInf, NInf => true
  | Fin x, Fin y => Qc_eq_bool x y
  | _, _ => false
  end.

Definition ofZ (z : Z) : num := Fin (Q2Qc (inject_Z z)).
Definition ofQ (q : Q) : num := Fin (Q2Qc q).

(** ** Strings *)

Definition truthy_str (s : string) : bool :=
  match s with
  | EmptyString => false
  | _ => true
  end.

Definition truthy_ostr (s : option string) : bool :=
  match s with
  | None => false
  | Some x => truthy_str x
  end.

(** Identifiers sent in a request body: absent, or a number; [0] is falsy. *)
Definition truthy_id (i : option Z) : bool :=
  match i with
  | None => false
  | Some z => negb (z =? 0)%Z
  end.

Definition lower_ascii (c : ascii) : ascii :=
  let n := nat_of_ascii c in
  if (andb (65 <=? n) (n <=? 90))%nat then ascii_of_nat (n + 32) else c.

(** [s.toLowerCase()], on the ASCII letters (the only ones that can lower
    to the letters of ["draw"]). *)
Fixpoint toLowerCase (s : string) : string :=
  match s with
  | EmptyString => EmptyString
  | String c r => String (lower_ascii c) (toLowerCase r)
  end.

(** SQL [external_id LIKE 'odds_%']: in a LIKE pattern [_] stands for any
    one character and [%] for any run of characters. *)
Definition like_odds (s : string) : bool :=
  match s with
  | String "o" (String "d" (String "d" (String "s" (String _ _)))) => true
  | _ => false
  end.

Definition ostr_eqb (a : option string) (b : string) : bool :=
  match a with
  | None => false
  | Some x => String.eqb x b
  end.

(** ** The store *)

Inductive bet_status : Type :=
| pending
| won
| lost.

Definition status_eqb (a b : bet_status) : bool :=
  match a, b with
  | pending, pending | won, won | lost, lost => true
  | _, _ => false
  end.

(** Table [users]. *)
Record user : Type := mk_user {
  u_id : Z;
  coins : option num
}.

(** Table [bets]. *)
Record bet : Type := mk_bet {
  b_id : Z;
  user_id : Z;
  b_game_name : string;
  b_game_type : string;
  bet_amount : num;
  b_odds : num;
  status : bet_status;
  selected_team : string
}.

(** Table [games]. *)
Record game : Type := mk_game {
  g_id : Z;
  external_id : option string;
  game_name : string;
  game_type : string;
  g_odds : num;
  start_time : option string;
  team1_name : option string;
  team2_name : option string;
  team1_odds : option num;
  team2_odds : option num;
  draw_odds : option num;
  has_draw : option bool
}.

(** The three tables and the two serial counters that hand out the [id]
    of a new [bets] and of a new [games] row. *)
Record db : Type := mk_db {
  users : list user;
  bets : list bet;
  games : list game;
  bets_seq : Z;
  games_seq : Z
}.

Definition set_coins (c : option num) (u : user) : user :=
  {| u_id := u_id u; coins := c |}.

Definition set_status (s : bet_status) (b : bet) : bet :=
  {| b_id := b_id b; user_id := user_id b; b_game_name := b_game_name b;
     b_game_type := b_game_type b; bet_amount := bet_amount b;
     b_odds := b_odds b; status := s; selected_team := selected_team b |}.

Definition with_users (us : list user) (d : db) : db :=
  {| users := us; bets := bets d; games := games d;
     bets_seq := bets_seq d; games_seq := games_seq d |}.

Definition with_bets (bs : list bet) (d : db) : db :=
  {| users := users d; bets := bs; games := games d;
     bets_seq := bets_seq d; games_seq := games_seq d |}.

(** [UPDATE users SET coins = COALESCE(coins, 0) + $1 WHERE id = $2] *)
Definition credit_row (inc : num) (id : Z) (u : user) : user :=
  if (u_id u =? id)%Z then set_coins (Some (nadd (COALESCE0 (coins u)) inc)) u
  else u.

(** [UPDATE users SET coins = COALESCE(coins, 0) - $1 WHERE id = $2] *)
Definition debit_row (amount : num) (id : Z) (u : user) : user :=
  if (u_id u =? id)%Z then set_coins (Some (nsub (COALESCE0 (coins u)) amount)) u
  else u.

(** [UPDATE bets SET status = $1 WHERE id = $2] *)
Definition status_row (s : bet_status) (id : Z) (b : bet) : bet :=
  if (b_id b =? id)%Z then set_status s b else b.

(** The row parameters of the upsert of [syncEflCupOddsToDB], in the order
    of its [VALUES] list. *)
Record game_values : Type := mk_game_values {
  v_external_id : string;
  v_game_name : string;
  v_game_type : string;
  v_odds : num;
  v_start_time : option string;
  v_team1_name : string;
  v_team2_name : string;
  v_team1_odds : num;
  v_team2_odds : num;
  v_draw_odds : option num;
  v_has_draw : bool
}.

Definition game_of_values (id : Z) (v : game_values) : game :=
  {| g_id := id;
     external_id := Some (v_external_id v);
     game_name := v_game_name v;
     game_type := v_game_type v;
     g_odds := v_odds v;
     start_time := v_start_time v;
     team1_name := Some (v_team1_name v);
     team2_name := Some (v_team2_name v);
     team1_odds := Some (v_team1_odds v);
     team2_odds := Some (v_team2_odds v);
     draw_odds := v_draw_odds v;
     has_draw := Some (v_has_draw v) |}.

Definition has_external_id (e : string) (g : game) : bool :=
  ostr_eqb (external_id g) e.

(** [ON CONFLICT (external_id) DO UPDATE SET ...]: every column but [id]
    is overwritten. *)
Definition overwrite_row (v : game_values) (g : game) : game :=
  if has_external_id (v_external_id v) g then game_of_values (g_id g) v else g.

(** [INSERT INTO games ... ON CONFLICT (external_id) DO UPDATE ...].  The
    serial default of [id] is evaluated before the conflict is detected, so
    the counter advances on both branches. *)
Definition upsert_game (v : game_values) (d : db) : db :=
  let gs :=
    if existsb (has_external_id (v_external_id v)) (games d)
    then map (overwrite_row v) (games d)
    else games d ++ [game_of_values (games_seq d) v] in
  {| users := users d; bets := bets d; games := gs;
     bets_seq := bets_seq d; games_seq := (games_seq d + 1)%Z |}.

Definition str_mem (s : string) (l : list string) : bool :=
  existsb (String.eqb s) l.

(** The [WHERE] clause of the pruning [DELETE]:
    [game_type = 'soccer' AND external_id LIKE 'odds_%'
     AND external_id NOT IN (...)].  A [NULL] external id satisfies
    neither [LIKE] nor [NOT IN]. *)
Definition finished (active : list string) (g : game) : bool :=
  match external_id g with
  | None => false
  | Some e =>
      String.eqb (game_type g) "soccer" && like_odds e && negb (str_mem e active)
  end.

Definition delete_finished (active : list string) (d : db) : db :=
  {| users := users d; bets := bets d;
     games := filter (fun g => negb (finished active g)) (games d);
     bets_seq := bets_seq d; games_seq := games_seq d |}.

(** The parameters of the [INSERT INTO bets] of the placement handler. *)
Record bet_values : Type := mk_bet_values {
  v_user_id : Z;
  v_bet_game_name : string;
  v_bet_game_type : string;
  v_bet_amount : num;
  v_bet_odds : num;
  v_selected_team : string
}.

Definition bet_of_values (id : Z) (v : bet_values) : bet :=
  {| b_id := id; user_id := v_user_id v; b_game_name := v_bet_game_name v;
     b_game_type := v_bet_game_type v; bet_amount := v_bet_amount v;
     b_odds := v_bet_odds v; status := pending;
     selected_team := v_selected_team v |}.

Definition insert_bet (v : bet_values) (d : db) : db :=
  {| users := users d; bets := bets d ++ [bet_of_values (bets_seq d) v];
     games := games d;
     bets_seq := (bets_seq d + 1)%Z; games_seq := games_seq d |}.

(** ** Statements *)

(** One constructor per SQL statement text of the two route files. *)
Inductive query : Type -> Type :=
| UpdateCoinsPlus (inc : num) (id : Z) : query (list user)
| UpdateCoinsMinus (amount : num) (id : Z) : query unit
| SelectUserCoins (id : Z) : query (list user)
| SelectGameByExternalId (e : string) : query (list game)
| SelectGameById (id : Z) : query (list game)
| UpsertGame (v : game_values) : query unit
| DeleteFinished (active : list string) : query unit
| SelectPendingBets (name : string) : query (list bet)
| SelectBetById (id : Z) : query (list bet)
| UpdateBetStatus (s : bet_status) (id : Z) : query (list bet)
| InsertBet (v : bet_values) : query bet.

Definition is_pending_for (name : string) (b : bet) : bool :=
  status_eqb (status b) pending && String.eqb (b_game_name b) name.

(** The effect of a statement on the store and the rows it returns. *)
Definition exec {R : Type} (q : query R) (d : db) : db * R :=
  match q in query T return db * T with
  | UpdateCoinsPlus inc id =>
      let us := map (credit_row inc id) (users d) in
      (with_users us d, filter (fun u => (u_id u =? id)%Z) us)
  | UpdateCoinsMinus amount id =>
      (with_users (map (debit_row amount id) (users d)) d, tt)
  | SelectUserCoins id => (d, filter (fun u => (u_id u =? id)%Z) (users d))
  | SelectGameByExternalId e => (d, filter (has_external_id e) (games d))
  | SelectGameById id => (d, filter (fun g => (g_id g =? id)%Z) (games d))
  | UpsertGame v => (upsert_game v d, tt)
  | DeleteFinished active => (delete_finished active d, tt)
  | SelectPendingBets name => (d, filter (is_pending_for name) (bets d))
  | SelectBetById id => (d, filter (fun b => (b_id b =? id)%Z) (bets d))
  | UpdateBetStatus s id =>
      let bs := map (status_row s id) (bets d) in
      (with_bets bs d, filter (fun b => (b_id b =? id)%Z) bs)
  | InsertBet v => (insert_bet v d, bet_of_values (bets_seq d) v)
  end.

(** ** Handlers as trees of statements *)

Inductive prog (A : Type) : Type :=
| Ret (a : A)
| Do (R : Type) (q : query R) (k : R -> prog A).

Arguments Ret {A} a.
Arguments Do {A R} q k.

Fixpoint bind {A B : Type} (p : prog A) (f : A -> prog B) : prog B :=
  match p with
  | Ret a => f a
  | Do q k => Do q (fun r => bind (k r) f)
  end.

Notation "x <- p ;; k" := (bind p (fun x => k))
  (at level 61, p at next level, right associativity).
Notation "p ;;; k" := (bind p (fun _ => k))
  (at level 61, right associativity).

(** [await pool.query(...)] *)
Definition await {R : Type} (q : query R) : prog R := Do q Ret.

(** A handler run to completion with nothing else touching the store. *)
Fixpoint run {A : Type} (p : prog A) (d : db) : db * A :=
  match p with
  | Ret a => (d, a)
  | Do q k => let (d', r) := exec q d in run (k r) d'
  end.

(** One statement of a handler. *)
Definition step {A : Type} (p : prog A) (d : db) : db * prog A :=
  match p with
  | Ret a => (d, Ret a)
  | Do q k => let (d', r) := exec q d in (d', k r)
  end.

(** The first [n] statements of a handler: the store a concurrent request
    observes while the handler is suspended at its next [await], and the
    store that remains when that next statement throws. *)
Fixpoint steps {A : Type} (n : nat) (p : prog A) (d : db) : db * prog A :=
  match n with
  | O => (d, p)
  | S m => let (d', p') := step p d in steps m p' d'
  end.

Definition finished_prog {A : Type} (p : prog A) : option A :=
  match p with
  | Ret a => Some a
  | Do _ _ => None
  end.

(** Two handlers in flight; the schedule says which one issues the next
    statement ([true]: the first). *)
Fixpoint interleave {A B : Type} (sched : list bool)
    (p : prog A) (q : prog B) (d : db) : db * prog A * prog B :=
  match sched with
  | [] => (d, p, q)
  | true :: s => let (d', p') := step p d in interleave s p' q d'
  | false :: s => let (d', q') := step q d in interleave s p q' d'
  end.

(** ** Responses *)

Inductive response (A : Type) : Type :=
| json_ok (body : A)
| json_error (code : Z) (error : string).

Arguments json_ok {A} body.
Arguments json_error {A} code error.

Definition is_ok {A : Type} (r : response A) : bool :=
  match r with
  | json_ok _ => true
  | json_error _ _ => false
  end.

(** A scalar of a JSON request body. *)
Inductive jsval : Type :=
| undefined
| null
| jnum (n : num).

(** [Number(v)] *)
Definition Number (v : jsval) : num :=
  match v with
  | undefined => NaN
  | null => Fin 0%Qc
  | jnum n => n
  end.

(** [a ?? b] *)
Definition nullish (a b : jsval) : jsval :=
  match a with
  | undefined | null => b
  | _ => a
  end.

(** The value bound to a [$n] placeholder by an identifier of the body. *)
Definition param_id (i : option Z) : Z :=
  match i with
  | Some z => z
  | None => 0%Z
  end.

(** ** routes/admin.js *)

Module Admin.

(** [POST /admin/add-coins] *)
Definition add_coins (userId : option Z) (amount coins : jsval)
  : prog (response user) :=
  let inc := Number (nullish amount coins) in
  if negb (truthy_id userId) || isNaN inc then
    Ret (json_error 400 "Invalid userId or amount")
  else
    result <- await (UpdateCoinsPlus inc (param_id userId)) ;;
    match result with
    | [] => Ret (json_error 400 "User not found")
    | u :: _ => Ret (json_ok u)
    end.

(** One entry of [ev.scores]; [score] is the number [Number(s.score)]. *)
Record score_entry : Type := mk_score {
  s_name : string;
  score : num
}.

(** One event of the scores feed. *)
Record raw_result : Type := mk_result {
  r_id : string;
  completed : bool;
  scores : list score_entry
}.

(** Lines 88-93: the label the selected teams are compared with. *)
Definition winningTeam (g : game) (team1Score team2Score : num)
  : option string :=
  if ngt team1Score team2Score then team1_name g
  else if ngt team2Score team1Score then team2_name g
  else Some "Draw"%string.

Definition newStatus (winning : option string) (b : bet) : bet_status :=
  if ostr_eqb winning (selected_team b) then won else lost.

(** [Number(bet.bet_amount) * Number(bet.odds)], lines 108 and 142. *)
Definition winnings (b : bet) : num := nmul (bet_amount b) (b_odds b).

(** The body of the inner loop, lines 101-115: the status is written
    first, the credit is a second statement. *)
Definition settle_bet (winning : option string) (b : bet) : prog unit :=
  _ <- await (UpdateBetStatus (newStatus winning b) (b_id b)) ;;
  if ostr_eqb winning (selected_team b) then
    _ <- await (UpdateCoinsPlus (winnings b) (user_id b)) ;;
    Ret tt
  else Ret tt.

Fixpoint settle_bets (winning : option string) (rows : list bet)
    (resolved : Z) : prog Z :=
  match rows with
  | [] => Ret resolved
  | b :: rest =>
      _ <- settle_bet winning b ;;
      settle_bets winning rest (resolved + 1)%Z
  end.

(** The body of the outer loop, lines 68-116; every [continue] returns
    the counter unchanged. *)
Definition resolve_event (ev : raw_result) (resolved : Z) : prog Z :=
  let externalId := ("odds_" ++ r_id ev)%string in
  gameRes <- await (SelectGameByExternalId externalId) ;;
  match gameRes with
  | [] => Ret resolved
  | g :: _ =>
      let s1 := find (fun s => ostr_eqb (team1_name g) (s_name s)) (scores ev) in
      let s2 := find (fun s => ostr_eqb (team2_name g) (s_name s)) (scores ev) in
      match s1, s2 with
      | Some s1, Some s2 =>
          let team1Score := score s1 in
          let team2Score := score s2 in
          if isNaN team1Score || isNaN team2Score then Ret resolved
          else
            betsRes <- await (SelectPendingBets (game_name g)) ;;
            settle_bets (winningTeam g team1Score team2Score) betsRes resolved
      | _, _ => Ret resolved
      end
  end.

Fixpoint resolve_events (evs : list raw_result) (resolved : Z) : prog Z :=
  match evs with
  | [] => Ret resolved
  | ev :: rest =>
      n <- resolve_event ev resolved ;;
      resolve_events rest n
  end.

(** What the request to the scores feed gives: its events ([r.data || []]),
    or an exception (no answer in time, an error status). *)
Inductive scores_response : Type :=
| ScoresData (events : list raw_result)
| ScoresError (message : string).

(** The names [admin.js] binds at its top level, lines 1-15: the file
    requires [express] and [../config/db] and nothing else.  ([bet.js]
    requires [axios] on its line 4; a binding of one module is not in scope
    in another.) *)
Definition top_level : list string :=
  ["express"; "router"; "pool"; "ADMIN_KEY"; "requireAdmin"]%string.

(** The handler of [POST /admin/auto-resolve], lines 48-125, in a module
    whose top level binds the names [scope].  [apiKey] is
    [process.env.ODDS_API_KEY].  Line 56 evaluates the identifier [axios]:
    where no binding of that name is in scope (it is not a global of the
    runtime) this throws a [ReferenceError], which the [catch] of line 121
    answers with status 500 and the message of the error; where the name is
    bound, to the HTTP client as in [bet.js], [feed] is what the request
    gives.  The body of a successful answer is the pair
    [(resolved, completedEvents)]. *)
Definition auto_resolve_in (scope : list string) (apiKey : option string)
    (feed : scores_response) : prog (response (Z * Z)) :=
  if negb (truthy_ostr apiKey) then Ret (json_error 500 "ODDS_API_KEY missing")
  else if negb (str_mem "axios" scope) then
    Ret (json_error 500 "axios is not defined")
  else
    match feed with
    | ScoresError message => Ret (json_error 500 message)
    | ScoresData events =>
        let done := filter completed events in
        resolved <- resolve_events done 0%Z ;;
        Ret (json_ok (resolved, Z.of_nat (List.length done)))
    end.

(** [POST /admin/auto-resolve] as the file has it. *)
Definition auto_resolve (apiKey : option string) (feed : scores_response)
  : prog (response (Z * Z)) :=
  auto_resolve_in top_level apiKey feed.

Definition status_of_result (result : string) : bet_status :=
  if String.eqb result "won" then won else lost.

(** [POST /admin/resolve-bet]: the credit is written first, the status is
    a second statement; the current status of the row is not consulted. *)
Definition resolve_bet (betId : option Z) (result : string)
  : prog (response (option bet)) :=
  if negb (truthy_id betId)
     || (negb (String.eqb result "won") && negb (String.eqb result "lost"))
  then Ret (json_error 400 "result must be 'won' or 'lost'")
  else
    betResult <- await (SelectBetById (param_id betId)) ;;
    match betResult with
    | [] => Ret (json_error 400 "Bet not found")
    | b :: _ =>
        _ <- (if String.eqb result "won"
              then _ <- await (UpdateCoinsPlus (winnings b) (user_id b)) ;; Ret tt
              else Ret tt) ;;
        update <- await (UpdateBetStatus (status_of_result result) (param_id betId)) ;;
        Ret (json_ok (hd_error update))
    end.

End Admin.

(** ** routes/bet.js *)

Module Bet.

(** One quoted outcome of a bookmaker's market; [price] is a number. *)
Record outcome : Type := mk_outcome {
  out_name : option string;
  price : num
}.

Record market : Type := mk_market {
  key : string;
  outcomes : list outcome
}.

(** [markets] and [outcomes] hold [[]] where the payload omits them
    ([bm.markets || []], [h2h.outcomes || []]). *)
Record bookmaker : Type := mk_bookmaker {
  markets : list market
}.

(** One event of the odds feed. *)
Record raw_event : Type := mk_event {
  ev_id : string;
  home_team : string;
  away_team : string;
  commence_time : option string;
  bookmakers : list bookmaker
}.

Record best_odds : Type := mk_best {
  bestHome : option num;
  bestDraw : option num;
  bestAway : option num
}.

(** [best == null ? out.price : Math.max(best, out.price)] *)
Definition better (best : option num) (p : num) : option num :=
  match best with
  | None => Some p
  | Some b => Some (Math_max b p)
  end.

(** [(out.name || "")] *)
Definition name_or_empty (n : option string) : string :=
  match n with
  | Some s => s
  | None => EmptyString
  end.

(** Lines 61-64: the three-way [if / else if] on the outcome's name. *)
Definition quote (home away : string) (acc : best_odds) (out : outcome)
  : best_odds :=
  if ostr_eqb (out_name out) home then
    {| bestHome := better (bestHome acc) (price out);
       bestDraw := bestDraw acc; bestAway := bestAway acc |}
  else if ostr_eqb (out_name out) away then
    {| bestHome := bestHome acc; bestDraw := bestDraw acc;
       bestAway := better (bestAway acc) (price out) |}
  else if String.eqb (toLowerCase (name_or_empty (out_name out))) "draw" then
    {| bestHome := bestHome acc;
       bestDraw := better (bestDraw acc) (price out);
       bestAway := bestAway acc |}
  else acc.

(** Lines 56-66, one bookmaker: its first market keyed ["h2h"], if any. *)
Definition bookmaker_quotes (home away : string) (acc : best_odds)
    (bm : bookmaker) : best_odds :=
  match find (fun m => String.eqb (key m) "h2h") (markets bm) with
  | None => acc
  | Some h2h => fold_left (quote home away) (outcomes h2h) acc
  end.

Definition best_prices (ev : raw_event) : best_odds :=
  fold_left (bookmaker_quotes (home_team ev) (away_team ev)) (bookmakers ev)
    {| bestHome := None; bestDraw := None; bestAway := None |}.

(** The counters and the id list of [syncEflCupOddsToDB]. *)
Record sync_state : Type := mk_sync {
  upserted : Z;
  skippedNoOdds : Z;
  activeExternalIds : list string
}.

(** [ev.commence_time || null] *)
Definition or_null (s : option string) : option string :=
  if truthy_ostr s then s else None.

Definition values_of_event (ev : raw_event) (h a : num) (d : option num)
  : game_values :=
  {| v_external_id := ("odds_" ++ ev_id ev)%string;
     v_game_name := (home_team ev ++ " vs " ++ away_team ev ++ " (EFL Cup)")%string;
     v_game_type := "soccer"%string;
     v_odds := h;
     v_start_time := or_null (commence_time ev);
     v_team1_name := home_team ev;
     v_team2_name := away_team ev;
     v_team1_odds := h;
     v_team2_odds := a;
     v_draw_odds := d;
     v_has_draw := truthy_onum d |}.

(** What the loop body does with an event: [None] when it is skipped
    ([!bestHome || !bestAway]), the row to upsert otherwise. *)
Definition priced (ev : raw_event) : option game_values :=
  let b := best_prices ev in
  match bestHome b, bestAway b with
  | Some h, Some a =>
      if negb (truthy_num h) || negb (truthy_num a) then None
      else Some (values_of_event ev h a (bestDraw b))
  | _, _ => None
  end.

(** The body of the loop over the events, lines 47-116. *)
Definition sync_event (ev : raw_event) (st : sync_state) : prog sync_state :=
  match priced ev with
  | None =>
      Ret {| upserted := upserted st;
             skippedNoOdds := (skippedNoOdds st + 1)%Z;
             activeExternalIds := activeExternalIds st |}
  | Some v =>
      _ <- await (UpsertGame v) ;;
      Ret {| upserted := (upserted st + 1)%Z;
             skippedNoOdds := skippedNoOdds st;
             activeExternalIds := activeExternalIds st ++ [v_external_id v] |}
  end.

Fixpoint sync_events (evs : list raw_event) (st : sync_state)
  : prog sync_state :=
  match evs with
  | [] => Ret st
  | ev :: rest =>
      st' <- sync_event ev st ;;
      sync_events rest st'
  end.

(** What [syncEflCupOddsToDB] returns. *)
Record sync_result : Type := mk_sync_result {
  fetched : Z;
  res_upserted : Z;
  res_skippedNoOdds : Z;
  activeNow : Z
}.

(** [syncEflCupOddsToDB], from the point where the response of the odds
    feed is at hand ([events] is [r.data || []]). *)
Definition syncEflCupOddsToDB (events : list raw_event) : prog sync_result :=
  st <- sync_events events
          {| upserted := 0; skippedNoOdds := 0; activeExternalIds := [] |} ;;
  _ <- (if (0 <? Z.of_nat (List.length (activeExternalIds st)))%Z
        then await (DeleteFinished (activeExternalIds st))
        else Ret tt) ;;
  Ret {| fetched := Z.of_nat (List.length events);
         res_upserted := upserted st;
         res_skippedNoOdds := skippedNoOdds st;
         activeNow := Z.of_nat (List.length (activeExternalIds st)) |}.

(** The body of [POST /api/bet/place]. *)
Record place_request : Type := mk_place {
  userId : option Z;
  gameId : option Z;
  betAmount : jsval;
  selectedTeam : option string
}.

Definition truthy_obool (b : option bool) : bool :=
  match b with
  | Some true => true
  | _ => false
  end.

(** Lines 189-195. *)
Definition chosenOdds (g : game) (selected : string) : option num :=
  if ostr_eqb (team1_name g) selected then Some (Number_col (team1_odds g))
  else if ostr_eqb (team2_name g) selected then Some (Number_col (team2_odds g))
  else if String.eqb selected "Draw" then
    if truthy_obool (has_draw g) && truthy_onum (draw_odds g)
    then Some (Number_col (draw_odds g))
    else None
  else None.

Definition odds_rejected (o : option num) : bool :=
  match o with
  | None => true
  | Some x => negb (truthy_num x) || isNaN x
  end.

(** [Number(row.coins || 0)] *)
Definition coins_or_0 (c : option num) : num :=
  if truthy_onum c then Number_col c else Fin 0%Qc.

(** The parameters of the [INSERT INTO bets], line 222: the market's name
    and type and the chosen price as they are read from the [games] row. *)
Definition wager_values (req : place_request) (g : game) : bet_values :=
  let selected := name_or_empty (selectedTeam req) in
  {| v_user_id := param_id (userId req);
     v_bet_game_name := game_name g;
     v_bet_game_type := game_type g;
     v_bet_amount := Number (betAmount req);
     v_bet_odds := Number_col (chosenOdds g selected);
     v_selected_team := selected |}.

(** [POST /api/bet/place] *)
Definition place (req : place_request) : prog (response bet) :=
  let amount := Number (betAmount req) in
  if negb (truthy_id (userId req)) || negb (truthy_id (gameId req))
     || negb (truthy_ostr (selectedTeam req))
     || isNaN amount || nle amount (Fin 0%Qc)
  then Ret (json_error 400 "Invalid userId, gameId, selectedTeam or betAmount")
  else
    let selected := name_or_empty (selectedTeam req) in
    gameRes <- await (SelectGameById (param_id (gameId req))) ;;
    match gameRes with
    | [] => Ret (json_error 400 "Game not found")
    | g :: _ =>
        let odds := chosenOdds g selected in
        if odds_rejected odds then
          Ret (json_error 400 "Invalid selected team / odds not available")
        else
          userRes <- await (SelectUserCoins (param_id (userId req))) ;;
          match userRes with
          | [] => Ret (json_error 400 "User not found")
          | u :: _ =>
              if nlt (coins_or_0 (coins u)) amount then
                Ret (json_error 400 "Insufficient balance")
              else
                _ <- await (UpdateCoinsMinus amount (param_id (userId req))) ;;
                betInsert <- await (InsertBet (wager_values req g)) ;;
                Ret (json_ok betInsert)
          end
    end.

End Bet.

(** ** Observations of the store *)

(** The first [users] row with the given id (what [rows[0]] of a select
    by id is). *)
Definition find_user (d : db) (id : Z) : option user :=
  find (fun u => (u_id u =? id)%Z) (users d).

(** The balance of an account, [NULL] read as [0]. *)
Definition balance (d : db) (id : Z) : option num :=
  option_map (fun u => COALESCE0 (coins u)) (find_user d id).

Definition find_bet (d : db) (id : Z) : option bet :=
  find (fun b => (b_id b =? id)%Z) (bets d).

Definition status_of (d : db) (id : Z) : option bet_status :=
  option_map status (find_bet d id).

Definition terminal (s : bet_status) : bool :=
  match s with
  | pending => false
  | _ => true
  end.

(** ** A running example

    The scenario of the specification: one market, Red against Blue at
    2.0 and 1.8, and one account, number 7. *)

Module Scenario.

Open Scope string_scope.

Definition red_blue : game :=
  {| g_id := 1; external_id := Some "odds_1";
     game_name := "Red vs Blue (EFL Cup)"; game_type := "soccer";
     g_odds := ofQ 2; start_time := None;
     team1_name := Some "Red"; team2_name := Some "Blue";
     team1_odds := Some (ofQ 2); team2_odds := Some (ofQ (18 # 10));
     draw_odds := None; has_draw := Some false |}.

Definition stake_on_red (s : bet_status) : bet :=
  {| b_id := 1; user_id := 7; b_game_name := "Red vs Blue (EFL Cup)";
     b_game_type := "soccer"; bet_amount := ofZ 40; b_odds := ofQ 2;
     status := s; selected_team := "Red" |}.

(** Balance 100, no wager yet. *)
Definition fresh : db :=
  {| users := [ {| u_id := 7; coins := Some (ofZ 100) |} ];
     bets := []; games := [red_blue]; bets_seq := 1; games_seq := 2 |}.

(** After the stake of 40 on Red: balance 60, the wager pending. *)
Definition placed : db :=
  {| users := [ {| u_id := 7; coins := Some (ofZ 60) |} ];
     bets := [stake_on_red pending]; games := [red_blue];
     bets_seq := 2; games_seq := 2 |}.

(** After Red won: balance 140, the wager won. *)
Definition settled : db :=
  {| users := [ {| u_id := 7; coins := Some (ofZ 140) |} ];
     bets := [stake_on_red won]; games := [red_blue];
     bets_seq := 2; games_seq := 2 |}.

Definition stake_40_red : Bet.place_request :=
  {| Bet.userId := Some 7%Z; Bet.gameId := Some 1%Z;
     Bet.betAmount := jnum (ofZ 40); Bet.selectedTeam := Some "Red" |}.

Definition stake_80_red : Bet.place_request :=
  {| Bet.userId := Some 7%Z; Bet.gameId := Some 1%Z;
     Bet.betAmount := jnum (ofZ 80); Bet.selectedTeam := Some "Red" |}.

Definition stake_infinite_red : Bet.place_request :=
  {| Bet.userId := Some 7%Z; Bet.gameId := Some 1%Z;
     Bet.betAmount := jnum PInf; Bet.selectedTeam := Some "Red" |}.

Definition stake_150_red : Bet.place_request :=
  {| Bet.userId := Some 7%Z; Bet.gameId := Some 1%Z;
     Bet.betAmount := jnum (ofZ 150); Bet.selectedTeam := Some "Red" |}.

(** The same market quoted at a negative and at an infinite price. *)
Definition red_blue_at (p : num) : game :=
  {| g_id := 1; external_id := Some "odds_1";
     game_name := "Red vs Blue (EFL Cup)"; game_type := "soccer";
     g_odds := p; start_time := None;
     team1_name := Some "Red"; team2_name := Some "Blue";
     team1_odds := Some p; team2_odds := Some (ofQ (18 # 10));
     draw_odds := None; has_draw := Some false |}.

Definition fresh_at (p : num) : db :=
  {| users := [ {| u_id := 7; coins := Some (ofZ 100) |} ];
     bets := []; games := [red_blue_at p]; bets_seq := 1; games_seq := 2 |}.

(** The odds feed quotes the match at two bookmakers; a third one offers
    no h2h market. *)
Definition quoted : Bet.raw_event :=
  {| Bet.ev_id := "1"; Bet.home_team := "Red"; Bet.away_team := "Blue";
     Bet.commence_time := Some "2026-01-10T15:00:00Z";
     Bet.bookmakers :=
       [ {| Bet.markets :=
              [ {| Bet.key := "h2h";
                   Bet.outcomes :=
                     [ {| Bet.out_name := Some "Red"; Bet.price := ofQ 2 |};
                       {| Bet.out_name := Some "Blue"; Bet.price := ofQ (18 # 10) |};
                       {| Bet.out_name := Some "Draw"; Bet.price := ofQ (31 # 10) |} ] |} ] |};
         {| Bet.markets :=
              [ {| Bet.key := "totals";
                   Bet.outcomes :=
                     [ {| Bet.out_name := Some "Red"; Bet.price := ofQ 9 |} ] |} ] |};
         {| Bet.markets :=
              [ {| Bet.key := "h2h";
                   Bet.outcomes :=
                     [ {| Bet.out_name := Some "Red"; Bet.price := ofQ (21 # 10) |};
                       {| Bet.out_name := Some "Blue"; Bet.price := ofQ (17 # 10) |} ] |} ] |} ] |}.

(** The same match with no quote for Blue. *)
Definition half_quoted : Bet.raw_event :=
  {| Bet.ev_id := "1"; Bet.home_team := "Red"; Bet.away_team := "Blue";
     Bet.commence_time := None;
     Bet.bookmakers :=
       [ {| Bet.markets :=
              [ {| Bet.key := "h2h";
                   Bet.outcomes :=
                     [ {| Bet.out_name := Some "Red"; Bet.price := ofQ 2 |} ] |} ] |} ] |}.

(** A second match, quoted for one side only, and its market. *)
Definition green_white_half_quoted : Bet.raw_event :=
  {| Bet.ev_id := "2"; Bet.home_team := "Green"; Bet.away_team := "White";
     Bet.commence_time := None;
     Bet.bookmakers :=
       [ {| Bet.markets :=
              [ {| Bet.key := "h2h";
                   Bet.outcomes :=
                     [ {| Bet.out_name := Some "Green"; Bet.price := ofQ 3 |} ] |} ] |} ] |}.

Definition green_white : game :=
  {| g_id := 2; external_id := Some "odds_2";
     game_name := "Green vs White (EFL Cup)"; game_type := "soccer";
     g_odds := ofQ 3; start_time := None;
     team1_name := Some "Green"; team2_name := Some "White";
     team1_odds := Some (ofQ 3); team2_odds := Some (ofQ (14 # 10));
     draw_odds := None; has_draw := Some false |}.

Definition two_markets : db :=
  {| users := []; bets := []; games := [red_blue; green_white];
     bets_seq := 1; games_seq := 3 |}.

(** The scores feed reports Red 3, Blue 1. *)
Definition red_wins : Admin.raw_result :=
  {| Admin.r_id := "1"; Admin.completed := true;
     Admin.scores := [ {| Admin.s_name := "Red"; Admin.score := ofZ 3 |};
                       {| Admin.s_name := "Blue"; Admin.score := ofZ 1 |} ] |}.

End Scenario.

(** ** Atomicity, as the specification words it *)

(** A wager is won exactly when its owner's balance is the balance of
    [d0] plus the product of its stake and its odds. *)
Definition won_iff_credited (d0 d : db) (b : bet) : Prop :=
  status_of d (b_id b) = Some won
  <-> balance d (user_id b)
      = option_map (fun c => nadd c (nmul (bet_amount b) (b_odds b)))
          (balance d0 (user_id b)).

(** No store reached after some statements of the handler [p], started in
    [d0], shows the one without the other. *)
Definition atomic_settlement {A : Type} (p : prog A) (d0 : db) (b : bet) : Prop :=
  forall n : nat, won_iff_credited d0 (fst (steps n p d0)) b.

(** Every store reached after some statements of a placement has the
    ledger tables either of the start or of the end. *)
Definition atomic_placement (req : Bet.place_request) (d0 : db) : Prop :=
  forall n : nat,
    let d := fst (steps n (Bet.place req) d0) in
    let d1 := fst (run (Bet.place req) d0) in
    (users d = users d0 /\ bets d = bets d0)
    \/ (users d = users d1 /\ bets d = bets d1).

(** The first condition of the placement handler, line 176. *)
Definition invalid_request (req : Bet.place_request) : bool :=
  negb (truthy_id (Bet.userId req)) || negb (truthy_id (Bet.gameId req))
  || negb (truthy_ostr (Bet.selectedTeam req))
  || isNaN (Number (Bet.betAmount req))
  || nle (Number (Bet.betAmount req)) (Fin 0%Qc).

(** The store once the debit of a placement is written. *)
Definition debited (req : Bet.place_request) (d : db) : db :=
  with_users (map (debit_row (Number (Bet.betAmount req))
                     (param_id (Bet.userId req))) (users d)) d.

(** ** Validation, as the specification words it *)

(** "A positive finite quantity". *)
Definition positive_finite (x : num) : bool :=
  match x with
  | Fin q => Qc_ltb 0%Qc q
  | _ => false
  end.

(** Every request whose resolved odds is not a positive finite quantity is
    rejected. *)
Definition rejects_bad_odds (req : Bet.place_request) (d : db) : Prop :=
  forall (g : game) (o : num),
    find (fun x => (g_id x =? param_id (Bet.gameId req))%Z) (games d) = Some g ->
    Bet.chosenOdds g (Bet.name_or_empty (Bet.selectedTeam req)) = Some o ->
    positive_finite o = false ->
    is_ok (snd (run (Bet.place req) d)) = false.

(** ** Best prices, as the specification words them *)

Inductive side : Type :=
| Home
| Away
| Draw.

(** The outcomes quoted by the bookmakers that offer an ["h2h"] market. *)
Definition h2h_outcomes (ev : Bet.raw_event) : list Bet.outcome :=
  flat_map (fun bm =>
              match find (fun m => String.eqb (Bet.key m) "h2h") (Bet.markets bm) with
              | Some h2h => Bet.outcomes h2h
              | None => []
              end) (Bet.bookmakers ev).

(** Whether a quoted outcome is the given side of the event. *)
Definition quotes_side (s : side) (ev : Bet.raw_event) (o : Bet.outcome) : bool :=
  match s with
  | Home => ostr_eqb (Bet.out_name o) (Bet.home_team ev)
  | Away => ostr_eqb (Bet.out_name o) (Bet.away_team ev)
  | Draw => String.eqb (toLowerCase (Bet.name_or_empty (Bet.out_name o))) "draw"
  end.

(** The prices quoted for a side, all bookmakers together. *)
Definition quotes (s : side) (ev : Bet.raw_event) : list num :=
  map Bet.price (filter (quotes_side s ev) (h2h_outcomes ev)).

(** [m] is the maximum of the prices [l]. *)
Definition is_maximum (l : list num) (m : num) : Prop :=
  In m l /\ forall q, In q l -> nle q m = true.

(** What is recorded for a side: nothing when there is no quote, the
    maximum of the quotes otherwise. *)
Definition recorded (best : option num) (l : list num) : Prop :=
  match best with
  | None => l = []
  | Some m => is_maximum l m
  end.

(** The three branches of [quote], as tests on the outcome alone. *)
Definition to_home (home : string) (o : Bet.outcome) : bool :=
  ostr_eqb (Bet.out_name o) home.

Definition to_away (home away : string) (o : Bet.outcome) : bool :=
  negb (to_home home o) && ostr_eqb (Bet.out_name o) away.

Definition to_draw (home away : string) (o : Bet.outcome) : bool :=
  negb (to_home home o) && negb (ostr_eqb (Bet.out_name o) away)
  && String.eqb (toLowerCase (Bet.name_or_empty (Bet.out_name o))) "draw".

(** ** Reconciliation *)

(** The rows the loop of [syncEflCupOddsToDB] upserts, in order. *)
Definition priced_rows (events : list Bet.raw_event) : list game_values :=
  flat_map (fun ev => match Bet.priced ev with
                      | Some v => [v]
                      | None => []
                      end) events.

(** What a run of upserts does to a row that is already stored. *)
Definition refresh (vs : list game_values) (g : game) : game :=
  fold_left (fun g v => overwrite_row v g) vs g.

Definition upserts (vs : list game_values) (d : db) : db :=
  fold_left (fun d v => upsert_game v d) vs d.

(** The pruning rule as the specification words it: the external id
    carries the prefix of the feed and no event of the snapshot has it. *)
Definition in_namespace (g : game) : bool :=
  match external_id g with
  | Some e => String.prefix "odds_" e
  | None => false
  end.

Definition in_snapshot (events : list Bet.raw_event) (g : game) : bool :=
  match external_id g with
  | Some e => str_mem e (map (fun ev => ("odds_" ++ Bet.ev_id ev)%string) events)
  | None => false
  end.

(** A row of the store before the pass is still there after it. *)
Definition kept (d' : db) (g : game) : bool :=
  existsb (fun g' => (g_id g' =? g_id g)%Z) (games d').

Definition prunes_as_specified (events : list Bet.raw_event) (d : db) : Prop :=
  forall g : game,
    In g (games d) ->
    (kept (fst (run (Bet.syncEflCupOddsToDB events) d)) g = false
     <-> in_namespace g && negb (in_snapshot events g) = true).

(** ** The loop of the batch settlement, as the specification words it *)

(** A pending wager on the market named [name] becomes won when its
    selected side is the winning label and lost otherwise; every other
    wager stays as it is. *)
Definition settle_row (label name : string) (b : bet) : bet :=
  if status_eqb (status b) pending && String.eqb (b_game_name b) name
  then set_status (if String.eqb label (selected_team b) then won else lost) b
  else b.

(** The wagers that win: pending, on that market, on the winning label. *)
Definition winners (label name : string) (d : db) : list bet :=
  filter (fun b => String.eqb label (selected_team b))
    (filter (fun b => status_eqb (status b) pending
                      && String.eqb (b_game_name b) name) (bets d)).

(** The credits [stakeAmount * odds] due to account [a] for its winners. *)
Definition credits_to (a : Z) (ws : list bet) : list num :=
  map (fun b => nmul (bet_amount b) (b_odds b))
    (filter (fun b => (user_id b =? a)%Z) ws).

(** The writes of the inner loop, table by table. *)
Definition status_step (w : option string) (bs : list bet) (b : bet) : list bet :=
  map (status_row (Admin.newStatus w b) (b_id b)) bs.

Definition credit_step (w : option string) (us : list user) (b : bet) : list user :=
  if ostr_eqb w (selected_team b)
  then map (credit_row (Admin.winnings b) (user_id b)) us
  else us.

(** ** The ledger equation *)

(** The operations of the ledger: a placement request, and a request for
    the batch settlement with what it reads from its environment. *)
Inductive operation : Type :=
| OpPlace (req : Bet.place_request)
| OpSettle (apiKey : option string) (feed : Admin.scores_response).

(** An operation whose handler runs from its first statement to its last
    with no other handler in between, in a module [admin.js] whose top
    level binds the names [scope]. *)
Definition apply_op (scope : list string) (d : db) (o : operation) : db :=
  match o with
  | OpPlace req => fst (run (Bet.place req) d)
  | OpSettle apiKey feed => fst (run (Admin.auto_resolve_in scope apiKey feed) d)
  end.

Definition apply_ops (scope : list string) (d : db) (ops : list operation) : db :=
  fold_left (apply_op scope) ops d.

Definition nsum (l : list num) : num := fold_right nadd (Fin 0%Qc) l.

Definition owned_by (a : Z) (b : bet) : bool := (user_id b =? a)%Z.

Definition is_won (b : bet) : bool := status_eqb (status b) won.

(** The sum of the stakes of the wagers of account [a]. *)
Definition staked (a : Z) (d : db) : num :=
  nsum (map bet_amount (filter (owned_by a) (bets d))).

(** The sum of [bet_amount * odds] over the won wagers of account [a]. *)
Definition won_total (a : Z) (d : db) : num :=
  nsum (map (fun b => nmul (bet_amount b) (b_odds b))
          (filter (fun b => owned_by a b && is_won b) (bets d))).

(** [balance(A) = initial - stakes + winnings] *)
Definition ledger_equation (d0 d : db) (a : Z) : Prop :=
  balance d a
  = option_map (fun c0 => nadd (nsub c0 (staked a d)) (won_total a d)) (balance d0 a).

(** [balance(A) >= 0] *)
Definition non_negative (d : db) (a : Z) : Prop :=
  match balance d a with
  | Some c => nle (Fin 0%Qc) c = true
  | None => True
  end.

(** The balance of [a] is never negative, whatever the order in which two
    handlers in flight issue their statements. *)
Definition never_overdrawn {A B : Type} (d0 : db) (p : prog A) (q : prog B)
    (a : Z) : Prop :=
  forall sched : list bool,
    non_negative (fst (fst (interleave sched p q d0))) a.

(** A finite number that is not negative; [NULL] counts as [0]. *)
Definition finite_nonneg (n : num) : bool :=
  match n with
  | Fin q => Qc_leb 0%Qc q
  | _ => false
  end.

Definition null_or_finite_nonneg (o : option num) : bool :=
  match o with
  | None => true
  | Some x => finite_nonneg x
  end.

Definition balances_ok (d : db) : bool :=
  forallb (fun u => null_or_finite_nonneg (coins u)) (users d).

(** [2^511]: the product of two binary64 values up to this limit is
    finite. *)
Definition limit : Qc := Q2Qc (pow2 511).

(** A number between [0] and [2^511]; [NULL] counts as [0]. *)
Definition within_limit (n : num) : bool :=
  match n with
  | Fin q => Qc_leb 0%Qc q && Qc_leb q limit
  | _ => false
  end.

Definition null_or_within_limit (o : option num) : bool :=
  match o with
  | None => true
  | Some x => within_limit x
  end.

Definition prices_ok (d : db) : bool :=
  forallb (fun g => null_or_within_limit (team1_odds g)
                    && null_or_within_limit (team2_odds g)
                    && null_or_within_limit (draw_odds g)) (games d).

(** No placement asks for a stake above [2^511]. *)
Definition stake_ok (o : operation) : bool :=
  match o with
  | OpPlace req =>
      match Number (Bet.betAmount req) with
      | Fin q => Qc_leb q limit
      | _ => true
      end
  | OpSettle _ _ => true
  end.

(** The finite part of a number, for sums of rationals. *)
Definition qof (n : num) : Qc :=
  match n with
  | Fin q => q
  | _ => 0%Qc
  end.

Definition qsum (l : list Qc) : Qc := fold_right Qcplus 0%Qc l.

Definition q_staked (a : Z) (bs : list bet) : Qc :=
  qsum (map (fun b => qof (bet_amount b)) (filter (owned_by a) bs)).

Definition q_won (a : Z) (bs : list bet) : Qc :=
  qsum (map (fun b => qof (nmul (bet_amount b) (b_odds b)))
          (filter (fun b => owned_by a b && is_won b) bs)).

Definition finite_bet (b : bet) : Prop :=
  exists s o : Qc,
    bet_amount b = Fin s /\ b_odds b = Fin o
    /\ (0 <= s)%Qc /\ (s <= limit)%Qc /\ (0 <= o)%Qc /\ (o <= limit)%Qc.

(** What every store reached by placements and batch settlements keeps. *)
Record Ledger (d0 d : db) : Prop := mk_ledger {
  L_games : games d = games d0;
  L_fresh : forall b, In b (bets d) -> (b_id b < bets_seq d)%Z;
  L_key : NoDup (map b_id (bets d));
  L_bets : forall b, In b (bets d) -> finite_bet b;
  L_bal : forall a,
      match balance d0 a with
      | None => balance d a = None
      | Some c0 =>
          exists q0 q : Qc,
            c0 = Fin q0 /\ balance d a = Some (Fin q) /\ (0 <= q)%Qc
            /\ q = (q0 - q_staked a (bets d) + q_won a (bets d))%Qc
      end
}.

(** ** The remaining routes

    The statements and handlers of [routes/admin.js] and [routes/bet.js]
    that the sections above leave out: the admin key check, the insertion
    of a game by hand, the listing of the games behind its cooldown, and
    the two reads of an account.  The [ORDER BY] clauses of the two
    listings are parameters: the store decides the order of rows whose
    sort keys are equal. *)

Section Routes.

(** [ORDER BY start_time ASC NULLS LAST] *)
Variable order_by_start_time : list game -> list game.

(** [ORDER BY created_at DESC] *)
Variable order_by_created_at : list bet -> list bet.

(** The statements of the routes: those of [query], and four more. *)
Inductive statement : Type -> Type :=
| Core (R : Type) (q : query R) : statement R
| InsertGame (gameName gameType : string) (odds : num)
    (startTime : option string) : statement game
| SelectFeedGames : statement (list game)
| SelectUser (id : Z) : statement (list user)
| SelectUserBets (id : Z) : statement (list bet).

(** The row of [INSERT INTO games (game_name, game_type, odds, start_time)]:
    the columns the statement does not name are [NULL]. *)
Definition manual_game (id : Z) (gameName gameType : string) (odds : num)
    (startTime : option string) : game :=
  {| g_id := id; external_id := None; game_name := gameName;
     game_type := gameType; g_odds := odds; start_time := startTime;
     team1_name := None; team2_name := None;
     team1_odds := None; team2_odds := None;
     draw_odds := None; has_draw := None |}.

Definition insert_game (g : game) (d : db) : db :=
  {| users := users d; bets := bets d; games := games d ++ [g];
     bets_seq := bets_seq d; games_seq := (games_seq d + 1)%Z |}.

(** [external_id LIKE 'odds_%'] on a nullable column. *)
Definition from_feed (g : game) : bool :=
  match external_id g with
  | Some e => like_odds e
  | None => false
  end.

Definition perform {R : Type} (s : statement R) (d : db) : db * R :=
  match s in statement T return db * T with
  | Core q => exec q d
  | InsertGame n t o st =>
      let g := manual_game (games_seq d) n t o st in (insert_game g d, g)
  | SelectFeedGames => (d, order_by_start_time (filter from_feed (games d)))
  | SelectUser id => (d, filter (fun u => (u_id u =? id)%Z) (users d))
  | SelectUserBets id =>
      (d, order_by_created_at (filter (fun b => (user_id b =? id)%Z) (bets d)))
  end.

(** A route handler: a tree of statements, as [prog] is. *)
Inductive handler (A : Type) : Type :=
| Done (a : A)
| Then (R : Type) (s : statement R) (k : R -> handler A).

Arguments Done {A} a.
Arguments Then {A R} s k.

Fixpoint and_then {A B : Type} (h : handler A) (f : A -> handler B) : handler B :=
  match h with
  | Done a => f a
  | Then s k => Then s (fun r => and_then (k r) f)
  end.

(** A handler of the sections above, as a route handler. *)
Fixpoint lift {A : Type} (p : prog A) : handler A :=
  match p with
  | Ret a => Done a
  | Do q k => Then (Core q) (fun r => lift (k r))
  end.

(** A route handler run to completion. *)
Fixpoint complete {A : Type} (h : handler A) (d : db) : db * A :=
  match h with
  | Done a => (d, a)
  | Then s k => let (d', r) := perform s d in complete (k r) d'
  end.

(** The first [n] statements of a route handler. *)
Fixpoint advance {A : Type} (n : nat) (h : handler A) (d : db) : db * handler A :=
  match n with
  | O => (d, h)
  | S m =>
      match h with
      | Done a => (d, Done a)
      | Then s k => let (d', r) := perform s d in advance m (k r) d'
      end
  end.

(** [process.env.ADMIN_KEY || "change-this-admin-key"] *)
Definition ADMIN_KEY (env : option string) : string :=
  if truthy_ostr env then Bet.name_or_empty env else "change-this-admin-key"%string.

(** [requireAdmin], lines 7-13: [next] runs only behind the key. *)
Definition requireAdmin {A : Type} (env : option string) (key : option string)
    (next : handler (response A)) : handler (response A) :=
  if negb (truthy_ostr key) || negb (ostr_eqb key (ADMIN_KEY env))
  then Done (json_error 403 "Admin access denied")
  else next.

(** [POST /admin/add-game], for a body that carries a name, a type and
    a price. *)
Definition add_game (gameName gameType : string) (odds : num)
    (startTime : option string) : handler (response game) :=
  Then (InsertGame gameName gameType odds startTime)
    (fun g => Done (json_ok g)).

(** The admin routes behind [router.use(requireAdmin)]; the route of the
    batch settlement names the middleware a second time (line 48). *)
Definition admin_add_coins (env key : option string) (userId : option Z)
    (amount coinsv : jsval) : handler (response user) :=
  requireAdmin env key (lift (Admin.add_coins userId amount coinsv)).

Definition admin_auto_resolve (env key apiKey : option string)
    (feed : Admin.scores_response) : handler (response (Z * Z)) :=
  requireAdmin env key
    (requireAdmin env key (lift (Admin.auto_resolve apiKey feed))).

Definition admin_resolve_bet (env key : option string) (betId : option Z)
    (result : string) : handler (response (option bet)) :=
  requireAdmin env key (lift (Admin.resolve_bet betId result)).

Definition admin_add_game (env key : option string) (gameName gameType : string)
    (odds : num) (startTime : option string) : handler (response game) :=
  requireAdmin env key (add_game gameName gameType odds startTime).

(** [15 * 30 * 1000] milliseconds. *)
Definition ODDS_SYNC_COOLDOWN_MS : Z := 15 * 30 * 1000.

(** What the request to the odds feed gives: its events, or an exception
    (no API key, no answer in time, an error status). *)
Inductive feed_response : Type :=
| FeedData (events : list Bet.raw_event)
| FeedError (message : string).

(** The [oddsSync] field of the listing. *)
Inductive odds_sync : Type :=
| sync_skipped
| sync_done (result : Bet.sync_result)
| sync_failed (error : string).

(** [GET /api/bet/games], lines 144-167.  [now1] and [now2] are the two
    readings of the clock (lines 148 and 150), [last] is [lastOddsSyncAt];
    the handler returns the new value of [lastOddsSyncAt] with its answer.
    The feed is asked only when the cooldown has elapsed. *)
Definition get_games (now1 now2 : Z) (feed : feed_response) (last : Z)
  : handler (Z * response (odds_sync * list game)) :=
  and_then
    (if (ODDS_SYNC_COOLDOWN_MS <? now1 - last)%Z then
       match feed with
       | FeedData events =>
           and_then (lift (Bet.syncEflCupOddsToDB events))
             (fun result => Done (now2, sync_done result))
       | FeedError e => Done (last, sync_failed e)
       end
     else Done (last, sync_skipped))
    (fun st =>
       Then SelectFeedGames
         (fun rows => Done (fst st, json_ok (snd st, rows)))).

(** [GET /api/bet/user/:id/balance] *)
Definition user_balance (userId : Z) : handler (response user) :=
  Then (SelectUser userId)
    (fun rows => match rows with
                 | [] => Done (json_error 400 "User not found")
                 | u :: _ => Done (json_ok u)
                 end).

(** [GET /api/bet/user/:id/bets] *)
Definition user_bets (userId : Z) : handler (response (list bet)) :=
  Then (SelectUserBets userId) (fun rows => Done (json_ok rows)).

(** The requests the server routes ([server.js], lines 33-35), each with
    what it reads from outside the store. *)
Inductive request : Type :=
| PostAddCoins (key : option string) (userId : option Z) (amount coinsv : jsval)
| PostAutoResolve (key apiKey : option string) (feed : Admin.scores_response)
| PostResolveBet (key : option string) (betId : option Z) (result : string)
| PostAddGame (key : option string) (gameName gameType : string) (odds : num)
    (startTime : option string)
| GetGames (now1 now2 : Z) (feed : feed_response)
| PostPlace (req : Bet.place_request)
| GetBalance (userId : Z)
| GetBets (userId : Z).

(** The store and the module variable [lastOddsSyncAt]. *)
Record server : Type := mk_server {
  store : db;
  lastOddsSyncAt : Z
}.

(** One request served from its first statement to its last. *)
Definition serve (env : option string) (s : server) (r : request) : server :=
  match r with
  | PostAddCoins key userId amount coinsv =>
      {| store := fst (complete (admin_add_coins env key userId amount coinsv) (store s));
         lastOddsSyncAt := lastOddsSyncAt s |}
  | PostAutoResolve key apiKey feed =>
      {| store := fst (complete (admin_auto_resolve env key apiKey feed) (store s));
         lastOddsSyncAt := lastOddsSyncAt s |}
  | PostResolveBet key betId result =>
      {| store := fst (complete (admin_resolve_bet env key betId result) (store s));
         lastOddsSyncAt := lastOddsSyncAt s |}
  | PostAddGame key n t o st =>
      {| store := fst (complete (admin_add_game env key n t o st) (store s));
         lastOddsSyncAt := lastOddsSyncAt s |}
  | GetGames now1 now2 feed =>
      let r := complete (get_games now1 now2 feed (lastOddsSyncAt s)) (store s) in
      {| store := fst r; lastOddsSyncAt := fst (snd r) |}
  | PostPlace req =>
      {| store := fst (complete (lift (Bet.place req)) (store s));
         lastOddsSyncAt := lastOddsSyncAt s |}
  | GetBalance userId =>
      {| store := fst (complete (user_balance userId) (store s));
         lastOddsSyncAt := lastOddsSyncAt s |}
  | GetBets userId =>
      {| store := fst (complete (user_bets userId) (store s));
         lastOddsSyncAt := lastOddsSyncAt s |}
  end.

Definition serve_all (env : option string) (s : server) (rs : list request) : server :=
  fold_left (serve env) rs s.

End Routes.

Arguments Done {A} a.
Arguments Then {A R} s k.
Arguments Core {R} q.

(** ** Invariants of the store across requests *)

(** The ids of the wagers are a key of the table and lie below the serial
    counter that hands out the next one. *)
Definition key_invariant (d : db) : Prop :=
  NoDup (map b_id (bets d))
  /\ forall b, In b (bets d) -> (b_id b < bets_seq d)%Z.

(** A wager without its status. *)
Definition erase_status (b : bet) : bet := set_status pending b.

(** The number of wagers that are pending. *)
Definition count_pending (d : db) : Z :=
  Z.of_nat (List.length (filter (fun b => status_eqb (status b) pending) (bets d))).

(** What the loop of the batch settlement does with a result, read off
    the games table: the winning label and the market name for a result that
    is settled, nothing for a result that is passed over. *)
Definition event_target (gs : list game) (ev : Admin.raw_result)
  : option (option string * string) :=
  match filter (has_external_id ("odds_" ++ Admin.r_id ev)) gs with
  | [] => None
  | g :: _ =>
      match find (fun s => ostr_eqb (team1_name g) (Admin.s_name s)) (Admin.scores ev),
            find (fun s => ostr_eqb (team2_name g) (Admin.s_name s)) (Admin.scores ev) with
      | Some s1, Some s2 =>
          if isNaN (Admin.score s1) || isNaN (Admin.score s2) then None
          else Some (Admin.winningTeam g (Admin.score s1) (Admin.score s2),
                     game_name g)
      | _, _ => None
      end
  end.

(** No wager on the market named [name] is pending. *)
Definition no_pending (name : string) (d : db) : Prop :=
  forall b, In b (bets d) -> is_pending_for name b = false.

(** ** More of the running example *)

Module Extras.

Open Scope string_scope.

(** A game inserted by hand next to the two markets of the feed. *)
Definition chess : game := manual_game 3 "Chess final" "chess" (ofQ 2) None.

Definition with_chess : db :=
  {| users := [ {| u_id := 7; coins := Some (ofZ 100) |} ]; bets := [];
     games := [Scenario.red_blue; Scenario.green_white; chess];
     bets_seq := 1; games_seq := 4 |}.

Definition stake_on_chess (selected : string) : Bet.place_request :=
  {| Bet.userId := Some 7%Z; Bet.gameId := Some 3%Z;
     Bet.betAmount := jnum (ofZ 10); Bet.selectedTeam := Some selected |}.

End Extras.

(** A game row as [POST /admin/add-game] leaves it: no external id, no
    side names, no draw price. *)
Definition by_hand (g : game) : Prop :=
  external_id g = None /\ team1_name g = None /\ team2_name g = None
  /\ draw_odds g = None.

(** The wager table of [d'] is that of [d] with statuses changed and new
    wagers appended, the new ids taken from the serial counter. *)
Definition extends (d d' : db) : Prop :=
  (bets_seq d <= bets_seq d')%Z
  /\ exists news : list bet,
       map erase_status (bets d') = map erase_status (bets d) ++ news
       /\ NoDup (map b_id news)
       /\ forall n, In n news -> (bets_seq d <= b_id n < bets_seq d')%Z.

(** The requests that are not a single-wager resolution. *)
Definition not_resolve_bet (r : request) : bool :=
  match r with
  | PostResolveBet _ _ _ => false
  | _ => true
  end.

(** A listing request that arrives within the cooldown of [last]. *)
Definition within_cooldown (last : Z) (r : request) : bool :=
  match r with
  | GetGames now1 _ _ => (now1 - last <=? 450000)%Z
  | _ => false
  end.

(** An event with its bookmakers replaced. *)
Definition with_bookmakers (ev : Bet.raw_event) (bms : list Bet.bookmaker)
  : Bet.raw_event :=
  {| Bet.ev_id := Bet.ev_id ev; Bet.home_team := Bet.home_team ev;
     Bet.away_team := Bet.away_team ev; Bet.commence_time := Bet.commence_time ev;
     Bet.bookmakers := bms |}.

(** ** Basic facts: numbers *)

Unset Implicit Arguments.

Lemma num_eqb_eq (a b : num) : num_eqb a b = true -> a = b.
Proof.
  destruct a, b; simpl; try discriminate; try reflexivity.
  intro H. apply Qc_eq_bool_correct in H. now subst.
Qed.

Lemma num_eqb_refl (a : num) : num_eqb a a = true.
Proof.
  destruct a; simpl; try reflexivity.
  unfold Qc_eq_bool. destruct (Qc_eq_dec q q); congruence.
Qed.

Lemma Qc_ltb_lt (a b : Qc) : Qc_ltb a b = true <-> (a < b)%Qc.
Proof.
  unfold Qc_ltb, Qclt. rewrite negb_true_iff.
  split; intro H.
  - apply Qnot_le_lt. intro L. apply Qle_bool_iff in L. congruence.
  - destruct (Qle_bool b a) eqn:E; [|reflexivity].
    apply Qle_bool_iff in E. exfalso. exact (Qlt_not_le _ _ H E).
Qed.

Lemma Qc_ltb_ge (a b : Qc) : Qc_ltb a b = false <-> (b <= a)%Qc.
Proof.
  unfold Qc_ltb, Qcle. rewrite negb_false_iff. apply Qle_bool_iff.
Qed.

Lemma Qc_leb_le (a b : Qc) : Qc_leb a b = true <-> (a <= b)%Qc.
Proof. unfold Qc_leb, Qcle. apply Qle_bool_iff. Qed.

(** ** Basic facts: binary64 *)

Section Binary64.

Local Open Scope Q_scope.

Lemma pow2_pos (e : Z) : 0 < pow2 e.
Proof. apply Qpower_0_lt. reflexivity. Qed.

Lemma pow2_nonzero (e : Z) : ~ pow2 e == 0.
Proof. intro H. pose proof (pow2_pos e) as P. rewrite H in P. discriminate P. Qed.

Lemma pow2_plus (a b : Z) : pow2 (a + b) == pow2 a * pow2 b.
Proof. apply Qpower_plus. discriminate. Qed.

Lemma pow2_Z (n : Z) : (0 <= n)%Z -> pow2 n == inject_Z (2 ^ n).
Proof. intro H. unfold pow2. now rewrite Zpower_Qpower. Qed.

Lemma pow2_lt_inv (a b : Z) : pow2 a < pow2 b -> (a < b)%Z.
Proof. intro H. apply (Qpower_lt_compat_l_inv 2); [exact H|reflexivity]. Qed.

Lemma Q_num_den (q : Q) : q * inject_Z (Z.pos (Qden q)) == inject_Z (Qnum q).
Proof. destruct q as [a b]. unfold Qeq, Qmult, inject_Z. simpl. lia. Qed.

(** [ilog2] is not above the binary logarithm. *)
Lemma ilog2_le (q : Q) : 0 < q -> pow2 (ilog2 q) <= q.
Proof.
  intro Hq. unfold ilog2.
  set (n := Qnum q). set (d := Z.pos (Qden q)).
  destruct (Qle_bool (pow2 (Z.log2 n - Z.log2 d)) q) eqn:E.
  - now apply Qle_bool_iff.
  - clear E.
    assert (Hn : (0 < n)%Z).
    { unfold Qlt in Hq. simpl in Hq. subst n. lia. }
    assert (Hd : (0 < d)%Z) by (subst d; lia).
    pose proof (Z.log2_spec n Hn) as [Hn1 _].
    pose proof (Z.log2_spec d Hd) as [_ Hd2].
    pose proof (Z.log2_nonneg n) as Ln. pose proof (Z.log2_nonneg d) as Ld.
    apply (Qmult_le_r _ _ (pow2 (Z.log2 d + 1))); [apply pow2_pos|].
    rewrite <- pow2_plus.
    replace (Z.log2 n - Z.log2 d - 1 + (Z.log2 d + 1))%Z with (Z.log2 n) by lia.
    rewrite !pow2_Z by lia.
    apply Qle_trans with (inject_Z n).
    + rewrite <- Zle_Qle. exact Hn1.
    + apply Qle_trans with (q * inject_Z d).
      * subst n d. rewrite Q_num_den. apply Qle_refl.
      * apply Qmult_le_l; [exact Hq|].
        rewrite <- Zle_Qle. lia.
Qed.

Lemma round_half_even_Z (q : Q) (k : Z) : q == inject_Z k -> round_half_even q = k.
Proof.
  intro H. unfold round_half_even.
  rewrite (Qfloor_comp _ _ H), Qfloor_Z.
  assert (E : (q - inject_Z k ?= 1 # 2) = Lt).
  { apply Qlt_alt. rewrite H. unfold Qminus. rewrite Qplus_opp_r. reflexivity. }
  now rewrite E.
Qed.

(** Rounding leaves a positive binary64 value as it is. *)
Lemma round_pos_exact (q : Q) (m e : Z) :
  (0 < m < 2 ^ 53)%Z -> (-1074 <= e <= 971)%Z -> q == inject_Z m * pow2 e ->
  round_pos q = Fin (Q2Qc q).
Proof.
  intros Hm He Hq.
  assert (Hpos : 0 < q).
  { rewrite Hq. apply Qmult_lt_0_compat; [|apply pow2_pos].
    change 0 with (inject_Z 0). rewrite <- Zlt_Qlt. lia. }
  assert (Hlt : forall k, (53 + e <= k)%Z -> q < pow2 k).
  { intros k Hk. rewrite Hq.
    apply Qlt_le_trans with (pow2 53 * pow2 e).
    - apply Qmult_lt_r; [apply pow2_pos|].
      rewrite pow2_Z by lia. rewrite <- Zlt_Qlt. lia.
    - rewrite <- pow2_plus. apply Qpower_le_compat_l; [lia|discriminate]. }
  assert (Hlog : (ilog2 q < 53 + e)%Z).
  { apply pow2_lt_inv. apply Qle_lt_trans with q; [now apply ilog2_le|].
    apply Hlt. lia. }
  unfold round_pos.
  set (E := ulp_exponent q).
  assert (HE : (E <= e)%Z) by (unfold E, ulp_exponent; lia).
  assert (Hk : q / pow2 E == inject_Z (m * 2 ^ (e - E))).
  { rewrite Hq. replace e with ((e - E) + E)%Z at 1 by lia.
    rewrite pow2_plus, inject_Z_mult, pow2_Z by lia.
    field. apply pow2_nonzero. }
  rewrite (round_half_even_Z _ _ Hk).
  assert (Hr : Qred (inject_Z (m * 2 ^ (e - E)) * pow2 E) == q).
  { rewrite Qred_correct, <- Hk. field. apply pow2_nonzero. }
  assert (Hov : Qle_bool (pow2 1024) (Qred (inject_Z (m * 2 ^ (e - E)) * pow2 E)) = false).
  { destruct (Qle_bool _ _) eqn:B; [|reflexivity].
    apply Qle_bool_iff in B. rewrite Hr in B.
    exfalso. apply (Qlt_not_le _ _ (Hlt 1024%Z ltac:(lia))). exact B. }
  rewrite Hov. f_equal. apply Qc_is_canon. simpl. now rewrite Hr.
Qed.

Lemma Q2Qc_this (q : Qc) : Q2Qc q = q.
Proof. apply Qc_is_canon. simpl. apply Qred_correct. Qed.

(** Rounding leaves a binary64 value as it is. *)
Lemma round64_exact (q : Qc) : binary64 q -> round64 q = Fin q.
Proof.
  intros [m [e [Hm [He Hq]]]]. unfold round64.
  destruct (Qcompare_spec q 0) as [H0|Hneg|Hpos].
  - reflexivity.
  - assert (Hm' : (m < 0)%Z).
    { destruct (Z_lt_le_dec m 0) as [L|L]; [exact L|exfalso].
      apply (Qlt_not_le _ _ Hneg). rewrite Hq.
      apply Qmult_le_0_compat; [|apply Qlt_le_weak, pow2_pos].
      change 0 with (inject_Z 0). now rewrite <- Zle_Qle. }
    rewrite (round_pos_exact (- q) (- m) e); [|lia|exact He|].
    + change (Q2Qc (- q)) with (- q)%Qc. simpl. now rewrite Qcopp_involutive.
    + rewrite Hq, inject_Z_opp. ring.
  - assert (Hm' : (0 < m)%Z).
    { destruct (Z_lt_le_dec 0 m) as [L|L]; [exact L|exfalso].
      apply (Qlt_not_le _ _ Hpos). rewrite Hq.
      rewrite <- (Qmult_0_l (pow2 e)).
      apply Qmult_le_compat_r; [|apply Qlt_le_weak, pow2_pos].
      change 0 with (inject_Z 0). now rewrite <- Zle_Qle. }
    rewrite (round_pos_exact q m e); [|lia|exact He|exact Hq].
    now rewrite Q2Qc_this.
Qed.

(** [ilog2] is the binary logarithm rounded down. *)
Lemma ilog2_lt (q : Q) : 0 < q -> q < pow2 (ilog2 q + 1).
Proof.
  intro Hq. unfold ilog2.
  set (n := Qnum q). set (d := Z.pos (Qden q)).
  destruct (Qle_bool (pow2 (Z.log2 n - Z.log2 d)) q) eqn:E.
  - clear E.
    assert (Hn : (0 < n)%Z).
    { unfold Qlt in Hq. simpl in Hq. subst n. lia. }
    assert (Hd : (0 < d)%Z) by (subst d; lia).
    pose proof (Z.log2_spec n Hn) as [_ Hn2].
    pose proof (Z.log2_spec d Hd) as [Hd1 _].
    pose proof (Z.log2_nonneg n) as Ln. pose proof (Z.log2_nonneg d) as Ld.
    apply (Qmult_lt_r _ _ (pow2 (Z.log2 d))); [apply pow2_pos|].
    rewrite <- pow2_plus.
    replace (Z.log2 n - Z.log2 d + 1 + Z.log2 d)%Z with (Z.log2 n + 1)%Z by lia.
    rewrite !pow2_Z by lia.
    apply Qle_lt_trans with (inject_Z n).
    + apply Qle_trans with (q * inject_Z d).
      * apply Qmult_le_l; [exact Hq|]. rewrite <- Zle_Qle. lia.
      * subst n d. rewrite Q_num_den. apply Qle_refl.
    + rewrite <- Zlt_Qlt. replace (Z.log2 n + 1)%Z with (Z.succ (Z.log2 n)) by lia.
      exact Hn2.
  - replace (Z.log2 n - Z.log2 d - 1 + 1)%Z with (Z.log2 n - Z.log2 d)%Z by lia.
    apply Qnot_le_lt. intro L. apply Qle_bool_iff in L. congruence.
Qed.

(** No integer is nearer to [x] than [round_half_even x]. *)
Lemma round_half_even_near (x : Q) (n : Z) :
  Qabs (inject_Z (round_half_even x) - x) <= Qabs (inject_Z n - x).
Proof.
  unfold round_half_even.
  pose proof (Qfloor_le x) as F1. pose proof (Qlt_floor x) as F2.
  rewrite inject_Z_plus in F2. change (inject_Z 1) with 1 in F2.
  set (f := Qfloor x) in *.
  assert (Hn : inject_Z n <= inject_Z f \/ inject_Z f + 1 <= inject_Z n).
  { destruct (Z_le_gt_dec n f) as [L|L].
    - left. now rewrite <- Zle_Qle.
    - right. change 1 with (inject_Z 1). rewrite <- inject_Z_plus, <- Zle_Qle. lia. }
  assert (Hcase : forall k : Z,
             (k = f /\ x - inject_Z f <= 1 # 2) \/ (k = (f + 1)%Z /\ 1 # 2 <= x - inject_Z f) ->
             Qabs (inject_Z k - x) <= Qabs (inject_Z n - x)).
  { intros k [[-> H]|[-> H]].
    - apply Qabs_case; intro A; apply Qabs_case; intro B; destruct Hn; lra.
    - rewrite inject_Z_plus. change (inject_Z 1) with 1.
      apply Qabs_case; intro A; apply Qabs_case; intro B; destruct Hn; lra. }
  destruct (Qcompare_spec (x - inject_Z f) (1 # 2)) as [E|L|G].
  - destruct (Z.even f); apply Hcase; [left|right]; split; try reflexivity; lra.
  - apply Hcase. left. split; [reflexivity|lra].
  - apply Hcase. right. split; [reflexivity|lra].
Qed.

Lemma scale_near (a b x P : Q) :
  0 < P -> Qabs (a - x) <= Qabs (b - x) -> Qabs (a * P - x * P) <= Qabs (b * P - x * P).
Proof.
  intros HP H.
  setoid_replace (a * P - x * P) with ((a - x) * P) by ring.
  setoid_replace (b * P - x * P) with ((b - x) * P) by ring.
  rewrite !Qabs_Qmult, (Qabs_pos P) by now apply Qlt_le_weak.
  apply Qmult_le_compat_r; [exact H|now apply Qlt_le_weak].
Qed.

Lemma pow2_le (a b : Z) : (a <= b)%Z -> pow2 a <= pow2 b.
Proof. intro H. apply Qpower_le_compat_l; [exact H|discriminate]. Qed.

Lemma pow2_lt (a b : Z) : (a < b)%Z -> pow2 a < pow2 b.
Proof. intro H. apply Qpower_lt_compat_l; [exact H|reflexivity]. Qed.

Lemma pow2_le_inv (a b : Z) : pow2 a <= pow2 b -> (a <= b)%Z.
Proof. intro H. apply (Qpower_le_compat_l_inv 2); [exact H|reflexivity]. Qed.

(** A finite result of [round_pos] is a binary64 value, and no binary64
    value is nearer to [q]. *)
Lemma round_pos_near (q : Q) (r : Qc) :
  0 < q -> round_pos q = Fin r ->
  binary64 r /\ forall y : Qc, binary64 y -> Qabs (r - q) <= Qabs (y - q).
Proof.
  intros Hq Hround. unfold round_pos in Hround.
  pose proof (ilog2_le q Hq) as L1. pose proof (ilog2_lt q Hq) as L2.
  set (L := ilog2 q) in *.
  set (E := ulp_exponent q) in *.
  assert (HE : E = Z.max (L - 52) (-1074)) by reflexivity.
  pose proof (pow2_pos E) as HP. set (P := pow2 E) in *.
  set (x := q / P) in *.
  assert (Hx : q == x * P).
  { unfold x. field. intro H0. rewrite H0 in HP. discriminate HP. }
  set (K := round_half_even x) in *.
  pose proof (round_half_even_near x) as Hnear. fold K in Hnear.
  destruct (Qle_bool (pow2 1024) (Qred (inject_Z K * P))) eqn:Hov; [discriminate|].
  injection Hround as <-.
  assert (Hr : Q2Qc (Qred (inject_Z K * P)) == inject_Z K * P).
  { change (this (Q2Qc (Qred (inject_Z K * P)))) with (Qred (Qred (inject_Z K * P))).
    now rewrite !Qred_correct. }
  assert (Hfin : inject_Z K * P < pow2 1024).
  { apply Qnot_le_lt. intro B. rewrite <- (Qred_correct (inject_Z K * P)) in B.
    apply Qle_bool_iff in B. congruence. }
  (* the significand lies between 0 and 2^53 *)
  assert (Hxpos : 0 < x).
  { unfold x. apply Qlt_shift_div_l; [exact HP|]. now rewrite Qmult_0_l. }
  assert (Hxlt : x < inject_Z (2 ^ 53)).
  { unfold x. apply Qlt_shift_div_r; [exact HP|].
    apply Qlt_le_trans with (pow2 (L + 1)); [exact L2|].
    rewrite <- pow2_Z by lia. unfold P. rewrite <- pow2_plus. apply pow2_le. lia. }
  assert (HK0 : (0 <= K)%Z).
  { specialize (Hnear 0%Z). rewrite Zle_Qle.
    revert Hnear. apply Qabs_case; intro A; apply Qabs_case; intros B C;
      change (inject_Z 0) with 0 in *; lra. }
  assert (HK1 : (K <= 2 ^ 53)%Z).
  { specialize (Hnear (2 ^ 53)%Z). rewrite Zle_Qle.
    revert Hnear. apply Qabs_case; intro A; apply Qabs_case; intros B C; lra. }
  assert (Hnormal : (-1074 < E)%Z -> (2 ^ 52 <= K)%Z /\ E = (L - 52)%Z).
  { intro H. assert (HEL : E = (L - 52)%Z) by lia. split; [|exact HEL].
    assert (Hxge : inject_Z (2 ^ 52) <= x).
    { unfold x. apply Qle_shift_div_l; [exact HP|].
      rewrite <- pow2_Z by lia. unfold P. rewrite <- pow2_plus.
      replace (52 + E)%Z with L by lia. exact L1. }
    specialize (Hnear (2 ^ 52)%Z). rewrite Zle_Qle.
    revert Hnear. apply Qabs_case; intro A; apply Qabs_case; intros B C; lra. }
  split.
  - (* the result is a binary64 value *)
    destruct (Z.eq_dec K 0) as [K0|K0].
    { exists 0%Z, 0%Z. split; [reflexivity|]. split; [lia|].
      rewrite Hr, K0. ring. }
    assert (HEup : (-1074 < E)%Z -> (52 + E < 1024)%Z).
    { intro H. destruct (Hnormal H) as [HK _].
      apply pow2_lt_inv. apply Qle_lt_trans with (inject_Z K * P); [|exact Hfin].
      rewrite pow2_plus. fold P. apply Qmult_le_compat_r; [|now apply Qlt_le_weak].
      rewrite pow2_Z by lia. now rewrite <- Zle_Qle. }
    destruct (Z.eq_dec K (2 ^ 53)) as [Kmax|Kmax].
    + exists (2 ^ 52)%Z, (E + 1)%Z. split; [reflexivity|].
      assert (HE53 : (53 + E < 1024)%Z).
      { apply pow2_lt_inv. rewrite pow2_plus. fold P.
        rewrite pow2_Z by lia. rewrite <- Kmax. exact Hfin. }
      split; [lia|].
      rewrite Hr, Kmax, pow2_plus. fold P.
      change (pow2 1) with 2. change (inject_Z (2 ^ 53)) with (2 * inject_Z (2 ^ 52)).
      ring.
    + exists K, E. split; [lia|]. split; [|exact Hr].
      destruct (Z_le_gt_dec E (-1074)) as [Hs|Hn]; [lia|].
      specialize (HEup ltac:(lia)). lia.
  - (* no binary64 value is nearer *)
    intros y [m [e [Hm [He Hy]]]].
    assert (Hlattice : forall n : Z,
               Qabs (Q2Qc (Qred (inject_Z K * P)) - q) <= Qabs (inject_Z n * P - q)).
    { intro n. rewrite Hr, Hx. apply scale_near; [exact HP|apply Hnear]. }
    destruct (Z_le_gt_dec m 0) as [Hm0|Hm0].
    + (* y <= 0 *)
      assert (Hy0 : y <= 0).
      { rewrite Hy. rewrite <- (Qmult_0_l (pow2 e)).
        apply Qmult_le_compat_r; [|apply Qlt_le_weak, pow2_pos].
        change 0 with (inject_Z 0). now rewrite <- Zle_Qle. }
      specialize (Hlattice 0%Z). change (inject_Z 0) with 0 in Hlattice.
      rewrite Qmult_0_l in Hlattice.
      eapply Qle_trans; [exact Hlattice|].
      apply Qabs_case; intro A; apply Qabs_case; intro B; lra.
    + destruct (Z_le_gt_dec E e) as [HeE|HeE].
      * (* y is on the lattice of the last place *)
        specialize (Hlattice (m * 2 ^ (e - E))%Z).
        assert (Hyl : y == inject_Z (m * 2 ^ (e - E)) * P).
        { rewrite Hy. replace e with ((e - E) + E)%Z at 1 by lia.
          rewrite pow2_plus, inject_Z_mult, pow2_Z by lia. fold P. ring. }
        now rewrite Hyl.
      * (* y lies below the binade of q *)
        destruct (Hnormal ltac:(lia)) as [_ HEL].
        assert (Hyl : y < pow2 L).
        { rewrite Hy. apply Qlt_le_trans with (pow2 53 * pow2 e).
          - apply Qmult_lt_r; [apply pow2_pos|].
            rewrite pow2_Z by lia. rewrite <- Zlt_Qlt. lia.
          - rewrite <- pow2_plus. apply pow2_le. lia. }
        specialize (Hlattice (2 ^ 52)%Z).
        assert (HL : inject_Z (2 ^ 52) * P == pow2 L).
        { rewrite <- pow2_Z by lia. unfold P. rewrite <- pow2_plus.
          now replace (52 + E)%Z with L by lia. }
        rewrite HL in Hlattice.
        eapply Qle_trans; [exact Hlattice|].
        apply Qabs_case; intro A; apply Qabs_case; intro B; lra.
Qed.

Lemma binary64_opp (q : Qc) : binary64 q -> binary64 (- q)%Qc.
Proof.
  intros [m [e [Hm [He Hq]]]]. exists (- m)%Z, e.
  split; [lia|]. split; [exact He|].
  change (this (- q)%Qc) with (Qred (- q)).
  rewrite Qred_correct, Hq, inject_Z_opp. ring.
Qed.

(** Rounding gives a nearest binary64 value. *)
Lemma round64_near (q r : Qc) : round64 q = Fin r -> nearest64 q r.
Proof.
  unfold round64, nearest64.
  destruct (Qcompare_spec q 0) as [H0|Hneg|Hpos]; intro H.
  - injection H as <-. split.
    + exists 0%Z, 0%Z. split; [reflexivity|]. split; [lia|]. rewrite H0. ring.
    + intros y _. setoid_replace (q - q) with 0 by ring. apply Qabs_nonneg.
  - destruct (round_pos (- q)) as [| | |r'] eqn:E; try discriminate H.
    injection H as <-.
    assert (Hq' : 0 < - q) by lra.
    destruct (round_pos_near (- q) r' Hq' E) as [B N]. split.
    + now apply binary64_opp.
    + intros y Hy. specialize (N (- y)%Qc (binary64_opp y Hy)).
      change (this (- r')%Qc) with (Qred (- r')).
      change (this (- y)%Qc) with (Qred (- y)) in N.
      rewrite Qred_correct in *.
      setoid_replace (- r' - q) with (- (r' - - q)) by ring.
      setoid_replace (y - q) with (- (- y - - q)) by ring.
      now rewrite !Qabs_opp.
  - now apply round_pos_near.
Qed.

(** [round_half_even x] is within a half of [x]. *)
Lemma round_half_even_half (x : Q) :
  Qabs (inject_Z (round_half_even x) - x) <= 1 # 2.
Proof.
  pose proof (Qfloor_le x) as F1. pose proof (Qlt_floor x) as F2.
  rewrite inject_Z_plus in F2. change (inject_Z 1) with 1 in F2.
  pose proof (round_half_even_near x (Qfloor x)) as N1.
  pose proof (round_half_even_near x (Qfloor x + 1)) as N2.
  rewrite inject_Z_plus in N2. change (inject_Z 1) with 1 in N2.
  revert N1 N2.
  apply Qabs_case; intro A; apply Qabs_case; intro B; apply Qabs_case; intros C D E; lra.
Qed.

(** [round_pos] overflows exactly from the midpoint between the largest
    binary64 value and [2^1024] on. *)
Lemma round_pos_overflow (q : Q) :
  0 < q -> (round_pos q = PInf <-> pow2 1024 - pow2 970 <= q).
Proof.
  intro Hq.
  pose proof (ilog2_le q Hq) as L1. pose proof (ilog2_lt q Hq) as L2.
  unfold round_pos.
  set (L := ilog2 q) in *.
  set (E := ulp_exponent q) in *.
  assert (HE : E = Z.max (L - 52) (-1074)) by reflexivity.
  pose proof (pow2_pos E) as HP. set (P := pow2 E) in *.
  set (x := q / P) in *.
  assert (Hx : q == x * P).
  { unfold x. field. intro H0. rewrite H0 in HP. discriminate HP. }
  set (K := round_half_even x) in *.
  pose proof (round_half_even_half x) as Hhalf. fold K in Hhalf.
  assert (H1024 : pow2 1024 == pow2 53 * pow2 971) by (rewrite <- pow2_plus; reflexivity).
  assert (H970 : pow2 971 == 2 * pow2 970).
  { change 971%Z with (1 + 970)%Z. rewrite pow2_plus. reflexivity. }
  assert (Hov : Qle_bool (pow2 1024) (Qred (inject_Z K * P)) = true
                <-> pow2 1024 <= inject_Z K * P).
  { rewrite Qle_bool_iff. now rewrite Qred_correct. }
  assert (Hgoal : pow2 1024 <= inject_Z K * P <-> pow2 1024 - pow2 970 <= q).
  { split; intro H.
    - (* an overflow comes from a large [q] *)
      destruct (Z_le_gt_dec E 971) as [Hs|Hl].
      + assert (HP971 : P <= pow2 971) by (apply pow2_le; exact Hs).
        assert (Hd : inject_Z K * P - q <= (1 # 2) * P).
        { rewrite Hx. setoid_replace (inject_Z K * P - x * P) with ((inject_Z K - x) * P) by ring.
          apply Qmult_le_compat_r; [|now apply Qlt_le_weak].
          revert Hhalf. apply Qabs_case; intros A B; lra. }
        lra.
      + apply Qle_trans with (pow2 L); [|exact L1].
        apply Qle_trans with (pow2 1024).
        * pose proof (pow2_pos 970). lra.
        * apply pow2_le. lia.
    - (* a large [q] overflows *)
      assert (HL : (1023 <= L)%Z).
      { assert (pow2 1023 < pow2 (L + 1)).
        { apply Qle_lt_trans with q; [|exact L2].
          assert (pow2 1024 == 2 * pow2 1023).
          { change 1024%Z with (1 + 1023)%Z. rewrite pow2_plus. reflexivity. }
          assert (pow2 1023 == 2 * pow2 1022).
          { change 1023%Z with (1 + 1022)%Z. rewrite pow2_plus. reflexivity. }
          assert (pow2 970 <= pow2 1022) by (apply pow2_le; lia).
          pose proof (pow2_pos 1022). lra. }
        apply pow2_lt_inv in H0. lia. }
      assert (HEL : E = (L - 52)%Z) by lia.
      assert (Hxge : inject_Z (2 ^ 52) <= x).
      { unfold x. apply Qle_shift_div_l; [exact HP|].
        rewrite <- pow2_Z by lia. unfold P. rewrite <- pow2_plus.
        replace (52 + E)%Z with L by lia. exact L1. }
      destruct (Z_le_gt_dec 1024 L) as [Hbig|Hsmall].
      + (* the last place is beyond the range *)
        assert (HK : inject_Z (2 ^ 52) <= inject_Z K).
        { pose proof (round_half_even_near x (2 ^ 52)) as Hn. fold K in Hn.
          revert Hn. apply Qabs_case; intro A; apply Qabs_case; intros B C; lra. }
        apply Qle_trans with (inject_Z (2 ^ 52) * P).
        * rewrite <- pow2_Z by lia. unfold P. rewrite <- pow2_plus. apply pow2_le. lia.
        * apply Qmult_le_compat_r; [exact HK|now apply Qlt_le_weak].
      + (* the last place is that of the largest values *)
        assert (E971 : E = 971%Z) by lia.
        assert (HPe : P == pow2 971) by (unfold P; now rewrite E971).
        assert (Hxh : inject_Z (2 ^ 53) - (1 # 2) <= x).
        { unfold x. apply Qle_shift_div_l; [exact HP|].
          rewrite HPe. rewrite <- pow2_Z by lia. lra. }
        assert (HK : (2 ^ 53 <= K)%Z).
        { unfold K, round_half_even.
          pose proof (Qfloor_le x) as F1. pose proof (Qlt_floor x) as F2.
          rewrite inject_Z_plus in F2. change (inject_Z 1) with 1 in F2.
          set (f := Qfloor x) in *.
          assert (Hf : (2 ^ 53 - 1 <= f)%Z).
          { assert (inject_Z (2 ^ 53 - 1) < inject_Z (f + 1)).
            { rewrite inject_Z_plus. change (inject_Z 1) with 1.
              change (inject_Z (2 ^ 53 - 1)) with (inject_Z (2 ^ 53) - 1). lra. }
            rewrite <- Zlt_Qlt in H0. lia. }
          destruct (Z.eq_dec f (2 ^ 53 - 1)) as [Ef|Nf].
          - assert (Hge : ~ x - inject_Z f < 1 # 2).
            { rewrite Ef.
              change (inject_Z (2 ^ 53 - 1)) with (inject_Z (2 ^ 53) - 1). lra. }
            destruct (Qcompare_spec (x - inject_Z f) (1 # 2)) as [C|C|C].
            + rewrite Ef. cbn. lia.
            + contradiction.
            + lia.
          - destruct (Qcompare (x - inject_Z f) (1 # 2)); [destruct (Z.even f)| |]; lia. }
        rewrite H1024, HPe.
        apply Qmult_le_compat_r; [|apply Qlt_le_weak, pow2_pos].
        rewrite pow2_Z by lia. now rewrite <- Zle_Qle. }
  destruct (Qle_bool (pow2 1024) (Qred (inject_Z K * P))) eqn:B.
  - split; [intros _|reflexivity]. apply Hgoal, Hov. reflexivity.
  - split; [discriminate|]. intro H. apply Hgoal, Hov in H. discriminate H.
Qed.

Lemma round_pos_cases (q : Q) : round_pos q = PInf \/ exists r, round_pos q = Fin r.
Proof. unfold round_pos. destruct (Qle_bool _ _); eauto. Qed.

(** The other results of [round64]: it overflows exactly from the midpoint
    between the largest binary64 value and [2^1024] on, in either
    direction, and it never gives [NaN]. *)
Lemma round64_overflow (q : Qc) :
  (round64 q = PInf <-> pow2 1024 - pow2 970 <= q)
  /\ (round64 q = NInf <-> q <= - (pow2 1024 - pow2 970))
  /\ round64 q <> NaN.
Proof.
  assert (T : 0 < pow2 1024 - pow2 970).
  { assert (pow2 970 < pow2 1024) by (apply pow2_lt; lia). lra. }
  unfold round64.
  destruct (Qcompare_spec q 0) as [H0|Hneg|Hpos].
  - split; [|split]; [split|split|]; try discriminate; intro H; exfalso; lra.
  - assert (Hq' : 0 < - q) by lra.
    pose proof (round_pos_overflow (- q) Hq') as Hov.
    destruct (round_pos_cases (- q)) as [E|[r E]]; rewrite E in *; cbn [nneg].
    + split; [|split]; [split|split|]; try discriminate.
      * intro H; exfalso; lra.
      * intros _. apply proj1 in Hov. specialize (Hov eq_refl). lra.
      * reflexivity.
    + split; [|split]; [split|split|]; try discriminate.
      * intro H; exfalso; lra.
      * intro H. exfalso. assert (Fin r = PInf); [|discriminate].
        apply Hov. lra.
  - pose proof (round_pos_overflow q Hpos) as Hov.
    destruct (round_pos_cases q) as [E|[r E]]; rewrite E in *.
    + split; [|split]; [split|split|]; try discriminate.
      * intros _. now apply Hov.
      * reflexivity.
      * intro H; exfalso; lra.
    + split; [|split]; [split|split|]; try discriminate.
      * intro H. exfalso. assert (Fin r = PInf); [|discriminate]. now apply Hov.
      * intro H; exfalso; lra.
Qed.

Lemma binary64_pow2 (e : Z) : (-1074 <= e <= 1023)%Z -> binary64 (Q2Qc (pow2 e)).
Proof.
  intro H.
  assert (E : Q2Qc (pow2 e) == pow2 e).
  { change (this (Q2Qc (pow2 e))) with (Qred (pow2 e)). apply Qred_correct. }
  destruct (Z_le_gt_dec e 971) as [L|G].
  - exists 1%Z, e. split; [reflexivity|]. split; [lia|]. rewrite E. ring.
  - exists (2 ^ (e - 971))%Z, 971%Z. split; [|split; [lia|]].
    + rewrite Z.abs_eq by (apply Z.pow_nonneg; lia).
      apply Z.pow_lt_mono_r; lia.
    + rewrite E. rewrite <- pow2_Z by lia. rewrite <- pow2_plus.
      now replace (e - 971 + 971)%Z with e by lia.
Qed.

Lemma binary64_0 : binary64 (Q2Qc 0).
Proof. exists 0%Z, 0%Z. split; [reflexivity|]. split; [lia|]. reflexivity. Qed.

(** Rounding keeps a number between [0] and a binary64 value in that
    range. *)
Lemma round64_between (q hi : Qc) :
  binary64 hi -> hi < pow2 1024 - pow2 970 -> 0 <= q -> q <= hi ->
  exists r : Qc, round64 q = Fin r /\ 0 <= r /\ r <= hi.
Proof.
  intros Bhi Hhi Hq0 Hq1.
  destruct (round64_overflow q) as [Hp [Hn Hnan]].
  destruct (round64 q) as [| | |r] eqn:E.
  - now contradiction Hnan.
  - exfalso. apply proj1 in Hp. specialize (Hp eq_refl). lra.
  - exfalso. apply proj1 in Hn. specialize (Hn eq_refl). lra.
  - exists r. split; [reflexivity|].
    destruct (round64_near q r E) as [_ N].
    pose proof (N (Q2Qc 0) binary64_0) as N0.
    pose proof (N hi Bhi) as N1.
    change (this (Q2Qc 0)) with 0 in N0.
    split.
    + revert N0. apply Qabs_case; intro A; apply Qabs_case; intros B C; lra.
    + revert N1. apply Qabs_case; intro A; apply Qabs_case; intros B C; lra.
Qed.

(** The product of two numbers between [0] and [2^511] is finite and not
    negative. *)
Lemma nmul_within_limit (s o : Qc) :
  (0 <= s)%Qc -> (s <= limit)%Qc -> (0 <= o)%Qc -> (o <= limit)%Qc ->
  exists p : Qc, nmul (Fin s) (Fin o) = Fin p /\ (0 <= p)%Qc.
Proof.
  intros Hs0 Hs1 Ho0 Ho1.
  assert (Blim : binary64 limit) by (apply binary64_pow2; lia).
  assert (Hlim : limit == pow2 511).
  { unfold limit. change (this (Q2Qc (pow2 511))) with (Qred (pow2 511)).
    apply Qred_correct. }
  assert (T : pow2 1022 < pow2 1024 - pow2 970).
  { assert (pow2 1024 == 4 * pow2 1022).
    { change 1024%Z with (2 + 1022)%Z. rewrite pow2_plus. reflexivity. }
    assert (pow2 970 < pow2 1022) by (apply pow2_lt; lia).
    pose proof (pow2_pos 970). lra. }
  assert (T' : limit < pow2 1024 - pow2 970).
  { rewrite Hlim. apply Qlt_trans with (pow2 1022); [apply pow2_lt; lia|exact T]. }
  unfold Qcle in Hs0, Hs1, Ho0, Ho1. change (this (Q2Qc 0)) with 0 in Hs0, Ho0.
  destruct (round64_between s limit Blim T' Hs0 Hs1) as [s' [Es [Hs'0 Hs'1]]].
  destruct (round64_between o limit Blim T' Ho0 Ho1) as [o' [Eo [Ho'0 Ho'1]]].
  unfold nmul, to_binary64. rewrite Es, Eo.
  assert (Bsq : binary64 (Q2Qc (pow2 1022))) by (apply binary64_pow2; lia).
  assert (Hsq : Q2Qc (pow2 1022) == pow2 1022).
  { change (this (Q2Qc (pow2 1022))) with (Qred (pow2 1022)). apply Qred_correct. }
  assert (Hprod : (s' * o')%Qc == s' * o').
  { change (this (s' * o')%Qc) with (Qred (s' * o')). apply Qred_correct. }
  assert (H511 : pow2 1022 == pow2 511 * pow2 511).
  { rewrite <- pow2_plus. reflexivity. }
  destruct (round64_between (s' * o')%Qc (Q2Qc (pow2 1022))) as [p [Ep [Hp0 _]]].
  - exact Bsq.
  - now rewrite Hsq.
  - rewrite Hprod. now apply Qmult_le_0_compat.
  - rewrite Hprod, Hsq, H511. rewrite Hlim in Hs'1, Ho'1.
    apply Qle_trans with (s' * pow2 511).
    + rewrite (Qmult_comm s' o'), (Qmult_comm s' (pow2 511)).
      apply Qmult_le_compat_r; [exact Ho'1|exact Hs'0].
    + apply Qmult_le_compat_r; [exact Hs'1|apply Qlt_le_weak, pow2_pos].
  - exists p. split; [exact Ep|]. unfold Qcle. change (this (Q2Qc 0)) with 0. exact Hp0.
Qed.

(** A finite product is a binary64 value nearest to the exact product of
    the operands as JavaScript holds them. *)
Lemma nmul_finite (s o p : Qc) :
  nmul (Fin s) (Fin o) = Fin p -> binary64_product s o p.
Proof.
  unfold nmul, to_binary64.
  destruct (round64 s) as [| | |s'] eqn:Es; destruct (round64 o) as [| | |o'] eqn:Eo;
    try discriminate;
    try (unfold inf_of_sign; destruct (Qc_sign _); discriminate).
  intro H. exists s', o'.
  split; [now apply round64_near|]. split; now apply round64_near.
Qed.

(** The product of two binary64 values whose exact product is a binary64
    value is that product. *)
Lemma nmul_exact (s o : Qc) :
  binary64 s -> binary64 o -> binary64 (s * o)%Qc ->
  nmul (Fin s) (Fin o) = Fin (s * o)%Qc.
Proof.
  intros Hs Ho Hp. unfold nmul, to_binary64.
  now rewrite (round64_exact s Hs), (round64_exact o Ho), (round64_exact _ Hp).
Qed.

(** An integer below [2^53] in absolute value is a binary64 value. *)
Lemma binary64_Z (z : Z) : (Z.abs z < 2 ^ 53)%Z -> binary64 (Q2Qc (inject_Z z)).
Proof.
  intro H. exists z, 0%Z. split; [exact H|]. split; [lia|].
  change (this (Q2Qc (inject_Z z))) with (Qred (inject_Z z)).
  rewrite Qred_correct. unfold pow2. rewrite Qpower_0_r. ring.
Qed.

End Binary64.

(** [3 * 1.1] is [3.3000000000000003], the binary64 value
    [7430939385161319 / 2^51]; [0.1 * 3] is [0.30000000000000004]; the
    product of two finite numbers can be [Infinity], and it can be [0]. *)
Example nmul_rounds :
  nmul (ofZ 3) (ofQ (11 # 10)) = ofQ (7430939385161319 # 2251799813685248)
  /\ nmul (ofQ (1 # 10)) (ofZ 3) = ofQ (5404319552844596 # 18014398509481984)
  /\ nmul (ofZ (10 ^ 200)) (ofZ (10 ^ 200)) = PInf
  /\ nmul (ofQ (1 # 10 ^ 200)) (ofQ (1 # 10 ^ 200)) = ofZ 0
  /\ nmul (ofZ 40) (ofQ 2) = ofZ 80.
Proof.
  repeat split; apply num_eqb_eq; vm_compute; reflexivity.
Qed.

(** ** Basic facts: lists and the statement monad *)

Lemma find_map_same {A : Type} (p : A -> bool) (f : A -> A) (l : list A) :
  (forall x, p (f x) = p x) ->
  find p (map f l) = option_map f (find p l).
Proof.
  intro H. induction l as [|x l IH]; simpl; [reflexivity|].
  rewrite H. destruct (p x); [reflexivity|exact IH].
Qed.

Lemma hd_filter_find {A : Type} (p : A -> bool) (l : list A) :
  hd_error (filter p l) = find p l.
Proof.
  induction l as [|x l IH]; simpl; [reflexivity|].
  destruct (p x); [reflexivity|exact IH].
Qed.

Lemma run_bind {A B : Type} (p : prog A) (f : A -> prog B) (d : db) :
  run (bind p f) d = run (f (snd (run p d))) (fst (run p d)).
Proof.
  revert d. induction p as [a|R q k IH]; intro d; simpl; [reflexivity|].
  destruct (exec q d) as [d' r]. apply IH.
Qed.

Lemma run_await {R : Type} (q : query R) (d : db) :
  run (await q) d = exec q d.
Proof. unfold await. simpl. now destruct (exec q d). Qed.

Lemma credit_row_id (inc : num) (id : Z) (u : user) :
  u_id (credit_row inc id u) = u_id u.
Proof. unfold credit_row. now destruct (u_id u =? id)%Z. Qed.

Lemma debit_row_id (amount : num) (id : Z) (u : user) :
  u_id (debit_row amount id u) = u_id u.
Proof. unfold debit_row. now destruct (u_id u =? id)%Z. Qed.

Lemma status_row_id (s : bet_status) (id : Z) (b : bet) :
  b_id (status_row s id b) = b_id b.
Proof. unfold status_row. now destruct (b_id b =? id)%Z. Qed.

Lemma find_user_credit (inc : num) (id a : Z) (us : list user) :
  find (fun u => (u_id u =? a)%Z) (map (credit_row inc id) us)
  = option_map (credit_row inc id) (find (fun u => (u_id u =? a)%Z) us).
Proof. apply find_map_same. intro x. now rewrite credit_row_id. Qed.

Lemma find_user_debit (amount : num) (id a : Z) (us : list user) :
  find (fun u => (u_id u =? a)%Z) (map (debit_row amount id) us)
  = option_map (debit_row amount id) (find (fun u => (u_id u =? a)%Z) us).
Proof. apply find_map_same. intro x. now rewrite debit_row_id. Qed.

Lemma find_bet_status (s : bet_status) (id a : Z) (bs : list bet) :
  find (fun b => (b_id b =? a)%Z) (map (status_row s id) bs)
  = option_map (status_row s id) (find (fun b => (b_id b =? a)%Z) bs).
Proof. apply find_map_same. intro x. now rewrite status_row_id. Qed.

(** ** add-coins *)

(** C10.  [POST /admin/add-coins] takes every amount that is not [NaN]
    (negative, fractional and infinite ones included): for an existing user
    the answer is a success, the stored balance becomes the previous one
    ([NULL] read as [0]) plus the amount, whatever its sign, and no other
    account changes; and there are a store, a user and a negative amount for
    which the resulting balance is below zero. *)
Theorem add_coins_unbounded :
  (forall (d : db) (id : Z) (amount coinsv : jsval) (u0 : user),
      id <> 0%Z ->
      isNaN (Number (nullish amount coinsv)) = false ->
      find_user d id = Some u0 ->
      let inc := Number (nullish amount coinsv) in
      let d' := fst (run (Admin.add_coins (Some id) amount coinsv) d) in
      snd (run (Admin.add_coins (Some id) amount coinsv) d)
        = json_ok (set_coins (Some (nadd (COALESCE0 (coins u0)) inc)) u0)
      /\ balance d' id = Some (nadd (COALESCE0 (coins u0)) inc)
      /\ (forall a, a <> id -> find_user d' a = find_user d a)
      /\ bets d' = bets d /\ games d' = games d)
  /\ (exists (d : db) (id : Z) (amount : jsval),
         nlt (Number amount) (Fin 0%Qc) = true
         /\ (exists u0, find_user d id = Some u0)
         /\ is_ok (snd (run (Admin.add_coins (Some id) amount undefined) d)) = true
         /\ exists c, balance (fst (run (Admin.add_coins (Some id) amount undefined) d)) id
                      = Some c /\ nlt c (Fin 0%Qc) = true).
Proof.
  split.
  - intros d id amount coinsv u0 Hid Hnan Hu inc d'.
    assert (Hrun : run (Admin.add_coins (Some id) amount coinsv) d
                   = (with_users (map (credit_row inc id) (users d)) d,
                      json_ok (credit_row inc id u0))).
    { unfold Admin.add_coins. fold inc. simpl truthy_id.
      apply Z.eqb_neq in Hid. rewrite Hid. unfold inc at 1. rewrite Hnan.
      simpl. 
      pose proof (hd_filter_find (fun u => (u_id u =? id)%Z)
                    (map (credit_row inc id) (users d))) as Hh.
      rewrite find_user_credit in Hh. unfold find_user in Hu. rewrite Hu in Hh.
      simpl in Hh.
      destruct (filter _ (map (credit_row inc id) (users d))) as [|u rest];
        simpl in Hh; [discriminate|].
      injection Hh as ->. reflexivity. }
    assert (Hcr : credit_row inc id u0
                  = set_coins (Some (nadd (COALESCE0 (coins u0)) inc)) u0).
    { unfold credit_row. apply find_some in Hu. destruct Hu as [_ Hu].
      now rewrite Hu. }
    subst d'. rewrite Hrun. simpl. rewrite Hcr.
    split; [reflexivity|]. split.
    + unfold balance, find_user. simpl. rewrite find_user_credit.
      unfold find_user in Hu. rewrite Hu. simpl. now rewrite Hcr.
    + split; [|split; reflexivity].
      intros a Ha. unfold find_user. simpl. rewrite find_user_credit.
      destruct (find (fun u => (u_id u =? a)%Z) (users d)) as [u|] eqn:E;
        [|reflexivity].
      simpl. f_equal. unfold credit_row.
      apply find_some in E. destruct E as [_ E]. apply Z.eqb_eq in E.
      destruct (u_id u =? id)%Z eqn:E2; [|reflexivity].
      apply Z.eqb_eq in E2. congruence.
  - exists {| users := [ {| u_id := 1; coins := Some (ofZ 10) |} ];
              bets := []; games := []; bets_seq := 1; games_seq := 1 |}.
    exists 1%Z, (jnum (ofZ (-25))).
    split; [vm_compute; reflexivity|].
    split; [eexists; vm_compute; reflexivity|].
    split; [vm_compute; reflexivity|].
    eexists. split; vm_compute; reflexivity.
Qed.

Lemma add_coins_unbounded_witness :
  1%Z <> 0%Z
  /\ isNaN (Number (nullish (jnum (ofQ (5 # 2))) undefined)) = false
  /\ find_user Scenario.fresh 7 = Some {| u_id := 7; coins := Some (ofZ 100) |}
  /\ balance (fst (run (Admin.add_coins (Some 7%Z) (jnum (ofQ (5 # 2))) undefined)
                     Scenario.fresh)) 7
     = Some (nadd (ofZ 100) (ofQ (5 # 2))).
Proof.
  assert (H1 : 7%Z <> 0%Z) by discriminate.
  assert (H2 : isNaN (Number (nullish (jnum (ofQ (5 # 2))) undefined)) = false)
    by reflexivity.
  assert (H3 : find_user Scenario.fresh 7
               = Some {| u_id := 7; coins := Some (ofZ 100) |}) by reflexivity.
  split; [discriminate|]. split; [exact H2|]. split; [exact H3|].
  exact (proj1 (proj2 (proj1 add_coins_unbounded Scenario.fresh 7%Z
                         (jnum (ofQ (5 # 2))) undefined _ H1 H2 H3))).
Defined.

Lemma num_eqb_neq (a b : num) : num_eqb a b = false -> a <> b.
Proof. intros H E. subst. rewrite num_eqb_refl in H. discriminate. Qed.

Lemma steps_ret {A : Type} (n : nat) (a : A) (d : db) :
  steps n (Ret a) d = (d, Ret a).
Proof. induction n; simpl; [reflexivity|exact IHn]. Qed.

Lemma steps_S_do {A R : Type} (n : nat) (q : query R) (k : R -> prog A) (d : db) :
  steps (S n) (Do q k) d = steps n (k (snd (exec q d))) (fst (exec q d)).
Proof. simpl. now destruct (exec q d). Qed.

(** ** Settlement of a wager that is already terminal *)

(** C1, on the code.  In the store where account 7 holds 140 after its
    winning stake on Red was settled, [POST /admin/resolve-bet] with the
    same wager and result ['won'] succeeds, leaves the status [won] and
    credits the winnings of 80 a second time: the balance becomes 220.
    With result ['lost'] the terminal status itself is overwritten. *)
Theorem resolve_bet_recredits_terminal :
  status_of Scenario.settled 1 = Some won
  /\ balance Scenario.settled 7 = Some (ofZ 140)
  /\ is_ok (snd (run (Admin.resolve_bet (Some 1%Z) "won") Scenario.settled)) = true
  /\ status_of (fst (run (Admin.resolve_bet (Some 1%Z) "won") Scenario.settled)) 1
     = Some won
  /\ balance (fst (run (Admin.resolve_bet (Some 1%Z) "won") Scenario.settled)) 7
     = Some (ofZ 220)
  /\ status_of (fst (run (Admin.resolve_bet (Some 1%Z) "lost") Scenario.settled)) 1
     = Some lost.
Proof.
  repeat split; reflexivity.
Qed.

(** ** The two writes of a settlement *)

Lemma balance_credit (inc : num) (id a : Z) (d : db) :
  balance (with_users (map (credit_row inc id) (users d)) d) a
  = if (a =? id)%Z then option_map (fun c => nadd c inc) (balance d a)
    else balance d a.
Proof.
  unfold balance, find_user. simpl. rewrite find_user_credit.
  destruct (find (fun u => (u_id u =? a)%Z) (users d)) as [u|] eqn:E; simpl.
  - apply find_some in E. destruct E as [_ E]. apply Z.eqb_eq in E.
    unfold credit_row. rewrite E. now destruct (a =? id)%Z.
  - now destruct (a =? id)%Z.
Qed.

Lemma balance_debit (amount : num) (id a : Z) (d : db) :
  balance (with_users (map (debit_row amount id) (users d)) d) a
  = if (a =? id)%Z then option_map (fun c => nsub c amount) (balance d a)
    else balance d a.
Proof.
  unfold balance, find_user. simpl. rewrite find_user_debit.
  destruct (find (fun u => (u_id u =? a)%Z) (users d)) as [u|] eqn:E; simpl.
  - apply find_some in E. destruct E as [_ E]. apply Z.eqb_eq in E.
    unfold debit_row. rewrite E. now destruct (a =? id)%Z.
  - now destruct (a =? id)%Z.
Qed.

Lemma status_of_update (s : bet_status) (id a : Z) (d : db) :
  status_of (with_bets (map (status_row s id) (bets d)) d) a
  = if (a =? id)%Z then option_map (fun _ => s) (status_of d a)
    else status_of d a.
Proof.
  unfold status_of, find_bet. simpl. rewrite find_bet_status.
  destruct (find (fun b => (b_id b =? a)%Z) (bets d)) as [b|] eqn:E; simpl.
  - apply find_some in E. destruct E as [_ E]. apply Z.eqb_eq in E.
    unfold status_row. rewrite E. now destruct (a =? id)%Z.
  - now destruct (a =? id)%Z.
Qed.

Lemma balance_of_find (d : db) (id : Z) (u : user) :
  find_user d id = Some u -> balance d id = Some (COALESCE0 (coins u)).
Proof. unfold balance. now intros ->. Qed.

Lemma status_of_find (d : db) (id : Z) (b : bet) :
  find_bet d id = Some b -> status_of d id = Some (status b).
Proof. unfold status_of. now intros ->. Qed.

Lemma status_of_with_users (us : list user) (d : db) (a : Z) :
  status_of (with_users us d) a = status_of d a.
Proof. reflexivity. Qed.

Lemma balance_with_bets (bs : list bet) (d : db) (a : Z) :
  balance (with_bets bs d) a = balance d a.
Proof. reflexivity. Qed.

Lemma users_with_bets (bs : list bet) (d : db) : users (with_bets bs d) = users d.
Proof. reflexivity. Qed.

Lemma bets_with_users (us : list user) (d : db) : bets (with_users us d) = bets d.
Proof. reflexivity. Qed.

Create Rewrite HintDb store.
#[local] Hint Rewrite status_of_with_users balance_with_bets users_with_bets
  bets_with_users status_of_update balance_credit balance_debit Z.eqb_refl
  : store.

(** The batch handler as the file has it: whatever its environment and
    the answer of the feed, it is answered 500 before it issues a statement. *)
Lemma auto_resolve_answer (apiKey : option string) (feed : Admin.scores_response) :
  Admin.auto_resolve apiKey feed
  = Ret (json_error 500 (if truthy_ostr apiKey then "axios is not defined"
                         else "ODDS_API_KEY missing")).
Proof.
  unfold Admin.auto_resolve, Admin.auto_resolve_in.
  now destruct (truthy_ostr apiKey).
Qed.

Lemma auto_resolve_steps (apiKey : option string) (feed : Admin.scores_response)
    (n : nat) (d : db) :
  fst (steps n (Admin.auto_resolve apiKey feed) d) = d.
Proof. rewrite auto_resolve_answer. now rewrite steps_ret. Qed.

Lemma auto_resolve_run (apiKey : option string) (feed : Admin.scores_response) (d : db) :
  run (Admin.auto_resolve apiKey feed) d
  = (d, json_error 500 (if truthy_ostr apiKey then "axios is not defined"
                        else "ODDS_API_KEY missing")).
Proof. now rewrite auto_resolve_answer. Qed.

(** The handler of the batch settlement, whatever the module binds. *)
Lemma run_auto_resolve_in (scope : list string) (apiKey : option string)
    (feed : Admin.scores_response) (d : db) :
  run (Admin.auto_resolve_in scope apiKey feed) d
  = if negb (truthy_ostr apiKey) then (d, json_error 500 "ODDS_API_KEY missing")
    else if negb (str_mem "axios" scope) then (d, json_error 500 "axios is not defined")
    else match feed with
         | Admin.ScoresError message => (d, json_error 500 message)
         | Admin.ScoresData events =>
             let r := run (Admin.resolve_events (filter Admin.completed events) 0) d in
             (fst r, json_ok (snd r, Z.of_nat (List.length (filter Admin.completed events))))
         end.
Proof.
  unfold Admin.auto_resolve_in.
  destruct (negb (truthy_ostr apiKey)); [reflexivity|].
  destruct (negb (str_mem "axios" scope)); [reflexivity|].
  destruct feed as [events|message]; [|reflexivity].
  cbv zeta. now rewrite run_bind.
Qed.




(** ** Placement *)

Lemma filter_cons_find {A : Type} (p : A -> bool) (l : list A) (x : A) (r : list A) :
  filter p l = x :: r -> find p l = Some x.
Proof. intro H. rewrite <- hd_filter_find, H. reflexivity. Qed.

Ltac destruct_match_goal :=
  match goal with
  | |- context [match ?x with _ => _ end] => destruct x
  end.

(** The handler run to completion, branch by branch. *)
Lemma place_run (req : Bet.place_request) (d : db) :
  run (Bet.place req) d =
  if invalid_request req then
    (d, json_error 400 "Invalid userId, gameId, selectedTeam or betAmount")
  else
    match find (fun x => (g_id x =? param_id (Bet.gameId req))%Z) (games d) with
    | None => (d, json_error 400 "Game not found")
    | Some g =>
        if Bet.odds_rejected
             (Bet.chosenOdds g (Bet.name_or_empty (Bet.selectedTeam req)))
        then (d, json_error 400 "Invalid selected team / odds not available")
        else
          match find_user d (param_id (Bet.userId req)) with
          | None => (d, json_error 400 "User not found")
          | Some u =>
              if nlt (Bet.coins_or_0 (coins u)) (Number (Bet.betAmount req))
              then (d, json_error 400 "Insufficient balance")
              else (insert_bet (Bet.wager_values req g) (debited req d),
                    json_ok (bet_of_values (bets_seq d) (Bet.wager_values req g)))
          end
    end.
Proof.
  unfold Bet.place. fold (invalid_request req).
  destruct (invalid_request req); [reflexivity|].
  cbn [bind await run exec].
  rewrite <- hd_filter_find.
  destruct (filter (fun g => (g_id g =? param_id (Bet.gameId req))%Z) (games d))
    as [|g gs]; [reflexivity|].
  cbn [hd_error].
  destruct (Bet.odds_rejected _); [reflexivity|].
  cbn [bind await run exec]. unfold find_user. rewrite <- hd_filter_find.
  destruct (filter (fun u => (u_id u =? param_id (Bet.userId req))%Z) (users d))
    as [|u us]; [reflexivity|].
  cbn [hd_error].
  destruct (nlt _ _); reflexivity.
Qed.

(** The store after [n] statements of the handler, branch by branch: the
    first two statements are reads, the third is the debit. *)
Lemma place_steps (req : Bet.place_request) (d : db) (n : nat) :
  fst (steps n (Bet.place req) d) =
  if is_ok (snd (run (Bet.place req) d)) then
    match n with
    | 0%nat | 1%nat | 2%nat => d
    | 3%nat => debited req d
    | _ => fst (run (Bet.place req) d)
    end
  else d.
Proof.
  rewrite place_run. unfold Bet.place. fold (invalid_request req).
  destruct (invalid_request req); [now rewrite steps_ret|].
  cbn [bind await].
  destruct n as [|n]; [now repeat destruct_match_goal|].
  rewrite steps_S_do. cbn [exec fst snd]. rewrite <- hd_filter_find.
  destruct (filter (fun g => (g_id g =? param_id (Bet.gameId req))%Z) (games d))
    as [|g gs]; [now rewrite steps_ret|].
  cbn [hd_error].
  destruct (Bet.odds_rejected _); [now rewrite steps_ret|].
  cbn [bind].
  unfold find_user. rewrite <- hd_filter_find.
  destruct n as [|n];
    [destruct (filter _ (users d)) as [|u us]; [reflexivity|];
     cbn [hd_error]; now destruct (nlt _ _)|].
  rewrite steps_S_do. cbn [exec fst snd].
  destruct (filter (fun u => (u_id u =? param_id (Bet.userId req))%Z) (users d))
    as [|u us]; [now rewrite steps_ret|].
  cbn [hd_error].
  destruct (nlt _ _); [now rewrite steps_ret|].
  cbn [bind is_ok snd fst].
  destruct n as [|n]; [reflexivity|].
  rewrite steps_S_do. cbn [exec fst snd].
  destruct n as [|n]; [reflexivity|].
  rewrite steps_S_do. cbn [exec fst snd]. now rewrite steps_ret.
Qed.

(** C4, as the code has it.  A placement that is answered with an error
    has written nothing: the store is the initial one after any number of
    its statements.  A placement that is answered with a wager read the
    market [g] and the account, debited the stake with one statement and
    inserted with the next one a [pending] row that carries the market's
    name, the selected side and the price chosen from [g]; between these
    two statements (after three statements of the handler) the stake is
    debited and the wager table is still the old one. *)
Theorem placement_validates_then_writes (req : Bet.place_request) (d : db) :
  (is_ok (snd (run (Bet.place req) d)) = false ->
   forall n : nat, fst (steps n (Bet.place req) d) = d)
  /\ (forall b : bet,
         snd (run (Bet.place req) d) = json_ok b ->
         exists g : game,
           find (fun x => (g_id x =? param_id (Bet.gameId req))%Z) (games d) = Some g
           /\ b = bet_of_values (bets_seq d) (Bet.wager_values req g)
           /\ status b = pending
           /\ b_game_name b = game_name g
           /\ Some (selected_team b) = Bet.selectedTeam req
           /\ Some (b_odds b) = Bet.chosenOdds g (selected_team b)
           /\ bet_amount b = Number (Bet.betAmount req)
           /\ fst (steps 3 (Bet.place req) d)
              = with_users (map (debit_row (Number (Bet.betAmount req))
                                   (param_id (Bet.userId req))) (users d)) d
           /\ fst (run (Bet.place req) d)
              = insert_bet (Bet.wager_values req g)
                  (with_users (map (debit_row (Number (Bet.betAmount req))
                                      (param_id (Bet.userId req))) (users d)) d)).
Proof.
  split.
  - intros H n. now rewrite place_steps, H.
  - intros b H.
    pose proof (place_steps req d 3) as H3. rewrite H in H3. cbn [is_ok] in H3.
    pose proof (place_run req d) as Hr.
    destruct (invalid_request req) eqn:Hval;
      [rewrite Hr in H; discriminate H|].
    destruct (find _ (games d)) as [g|]; [|rewrite Hr in H; discriminate H].
    destruct (Bet.odds_rejected _) eqn:Hodds; [rewrite Hr in H; discriminate H|].
    destruct (find_user d _) as [u|]; [|rewrite Hr in H; discriminate H].
    destruct (nlt _ _); [rewrite Hr in H; discriminate H|].
    rewrite Hr in H. cbn [snd] in H. injection H as <-.
    exists g. split; [reflexivity|].
    assert (Hsel : Bet.selectedTeam req
                   = Some (Bet.name_or_empty (Bet.selectedTeam req))).
    { destruct (Bet.selectedTeam req) eqn:E; [reflexivity|].
      unfold invalid_request in Hval. rewrite E in Hval.
      cbn [truthy_ostr negb] in Hval.
      rewrite orb_true_r in Hval. discriminate Hval. }
    assert (Hsome : Bet.chosenOdds g (Bet.name_or_empty (Bet.selectedTeam req))
                    = Some (Number_col (Bet.chosenOdds g
                              (Bet.name_or_empty (Bet.selectedTeam req))))).
    { destruct (Bet.chosenOdds g _); [reflexivity|discriminate Hodds]. }
    split; [reflexivity|]. split; [reflexivity|]. split; [reflexivity|].
    split; [symmetry; exact Hsel|]. split; [symmetry; exact Hsome|].
    split; [reflexivity|]. split; [exact H3|].
    now rewrite Hr.
Qed.

Lemma placement_validates_then_writes_witness :
  is_ok (snd (run (Bet.place Scenario.stake_150_red) Scenario.fresh)) = false
  /\ fst (steps 2 (Bet.place Scenario.stake_150_red) Scenario.fresh) = Scenario.fresh
  /\ snd (run (Bet.place Scenario.stake_40_red) Scenario.fresh)
     = json_ok (Scenario.stake_on_red pending)
  /\ exists g : game,
       find (fun x => (g_id x =? 1)%Z) (games Scenario.fresh) = Some g
       /\ Scenario.stake_on_red pending
          = bet_of_values 1 (Bet.wager_values Scenario.stake_40_red g).
Proof.
  assert (H1 : is_ok (snd (run (Bet.place Scenario.stake_150_red) Scenario.fresh))
               = false) by reflexivity.
  assert (H2 : snd (run (Bet.place Scenario.stake_40_red) Scenario.fresh)
               = json_ok (Scenario.stake_on_red pending)) by reflexivity.
  split; [exact H1|].
  split; [exact (proj1 (placement_validates_then_writes
                          Scenario.stake_150_red Scenario.fresh) H1 2%nat)|].
  split; [exact H2|].
  destruct (proj2 (placement_validates_then_writes
                     Scenario.stake_40_red Scenario.fresh) _ H2)
    as [g [Hg [Hb _]]].
  exists g. split; [exact Hg|exact Hb].
Defined.

(** C4, as stated, fails in its second half.  The stake of 40 on Red from
    balance 100 is valid; after three statements of the handler the
    balance is 60 and the wager table is still empty, which is neither the
    initial ledger nor the final one. *)
Lemma placement_not_atomic :
  ~ atomic_placement Scenario.stake_40_red Scenario.fresh.
Proof.
  intro H. destruct (H 3%nat) as [[Hu _]|[_ Hb]].
  - vm_compute in Hu. injection Hu as Hu. discriminate Hu.
  - vm_compute in Hb. discriminate Hb.
Qed.




(** ** Best prices *)

Lemma nle_refl (a : num) : isNaN a = false -> nle a a = true.
Proof.
  destruct a; simpl; try reflexivity; try discriminate.
  intros _. apply Qc_leb_le. apply Qcle_refl.
Qed.

Lemma nle_trans (a b c : num) : nle a b = true -> nle b c = true -> nle a c = true.
Proof.
  destruct a, b, c; simpl; try reflexivity; try discriminate.
  rewrite !Qc_leb_le. apply Qcle_trans.
Qed.

Lemma nlt_nle (a b : num) : nlt a b = true -> nle a b = true.
Proof.
  destruct a, b; simpl; try reflexivity; try discriminate.
  rewrite Qc_ltb_lt, Qc_leb_le. apply Qclt_le_weak.
Qed.

Lemma nlt_false_nle (a b : num) :
  isNaN a = false -> isNaN b = false -> nlt a b = false -> nle b a = true.
Proof.
  destruct a, b; simpl; try reflexivity; try discriminate.
  intros _ _. rewrite Qc_ltb_ge, Qc_leb_le. trivial.
Qed.

Lemma Math_max_cases (a b : num) :
  isNaN a = false -> isNaN b = false ->
  (Math_max a b = a \/ Math_max a b = b)
  /\ nle a (Math_max a b) = true /\ nle b (Math_max a b) = true
  /\ isNaN (Math_max a b) = false.
Proof.
  intros Ha Hb.
  assert (E : Math_max a b = if nlt a b then b else a).
  { destruct a, b; try discriminate; reflexivity. }
  rewrite E. destruct (nlt a b) eqn:L.
  - repeat split; auto using nlt_nle, nle_refl.
  - repeat split; auto using nlt_false_nle, nle_refl.
Qed.

Lemma fold_max_is_maximum (l : list num) (x : num) :
  (forall q, In q (x :: l) -> isNaN q = false) ->
  is_maximum (x :: l) (fold_left Math_max l x)
  /\ isNaN (fold_left Math_max l x) = false.
Proof.
  revert x. induction l as [|y l IH]; intros x H.
  - simpl. split; [split|].
    + now left.
    + intros q [<-|[]]. apply nle_refl. apply H. now left.
    + apply H. now left.
  - cbn [fold_left].
    assert (Hx : isNaN x = false) by (apply H; now left).
    assert (Hy : isNaN y = false) by (apply H; right; now left).
    destruct (Math_max_cases x y Hx Hy) as [Hc [Hxa [Hya Hn]]].
    destruct (IH (Math_max x y)) as [[Hin Hub] Hnn].
    { intros q [<-|Hq]; [exact Hn|]. apply H. right. now right. }
    split; [split|exact Hnn].
    + destruct Hin as [Hin|Hin].
      * rewrite <- Hin. destruct Hc as [-> | ->]; [now left|right; now left].
      * right. now right.
    + intros q [<-|[<-|Hq]].
      * eapply nle_trans; [exact Hxa|]. apply Hub. now left.
      * eapply nle_trans; [exact Hya|]. apply Hub. now left.
      * apply Hub. now right.
Qed.

Lemma fold_better_some (l : list num) (b : num) :
  fold_left Bet.better l (Some b) = Some (fold_left Math_max l b).
Proof.
  revert b. induction l as [|x l IH]; intro b; [reflexivity|].
  simpl. apply IH.
Qed.

Lemma fold_better_recorded (l : list num) :
  (forall q, In q l -> isNaN q = false) ->
  recorded (fold_left Bet.better l None) l.
Proof.
  destruct l as [|x l]; intro H; [reflexivity|].
  cbn [fold_left Bet.better]. rewrite fold_better_some.
  exact (proj1 (fold_max_is_maximum l x H)).
Qed.

Lemma fold_quote (home away : string) (outs : list Bet.outcome) (acc : Bet.best_odds) :
  let r := fold_left (Bet.quote home away) outs acc in
  Bet.bestHome r
  = fold_left Bet.better (map Bet.price (filter (to_home home) outs)) (Bet.bestHome acc)
  /\ Bet.bestAway r
     = fold_left Bet.better (map Bet.price (filter (to_away home away) outs))
         (Bet.bestAway acc)
  /\ Bet.bestDraw r
     = fold_left Bet.better (map Bet.price (filter (to_draw home away) outs))
         (Bet.bestDraw acc).
Proof.
  revert acc. induction outs as [|o outs IH]; intro acc; [now repeat split|].
  cbn [fold_left filter]. specialize (IH (Bet.quote home away acc o)).
  cbv zeta in IH |- *. destruct IH as [IH1 [IH2 IH3]].
  rewrite IH1, IH2, IH3. clear IH1 IH2 IH3.
  unfold Bet.quote, to_away, to_draw, to_home.
  destruct (ostr_eqb (Bet.out_name o) home);
    [cbn; now repeat split|].
  destruct (ostr_eqb (Bet.out_name o) away);
    [cbn; now repeat split|].
  destruct (String.eqb _ "draw"); cbn; now repeat split.
Qed.

Lemma bookmaker_quotes_fold (home away : string) (acc : Bet.best_odds) (bm : Bet.bookmaker) :
  Bet.bookmaker_quotes home away acc bm
  = fold_left (Bet.quote home away)
      (match find (fun m => String.eqb (Bet.key m) "h2h") (Bet.markets bm) with
       | Some h2h => Bet.outcomes h2h
       | None => []
       end) acc.
Proof. unfold Bet.bookmaker_quotes. now destruct (find _ _). Qed.

Lemma fold_bookmakers (home away : string) (bms : list Bet.bookmaker) (acc : Bet.best_odds) :
  let outs :=
    flat_map (fun bm =>
                match find (fun m => String.eqb (Bet.key m) "h2h") (Bet.markets bm) with
                | Some h2h => Bet.outcomes h2h
                | None => []
                end) bms in
  let r := fold_left (Bet.bookmaker_quotes home away) bms acc in
  Bet.bestHome r
  = fold_left Bet.better (map Bet.price (filter (to_home home) outs)) (Bet.bestHome acc)
  /\ Bet.bestAway r
     = fold_left Bet.better (map Bet.price (filter (to_away home away) outs))
         (Bet.bestAway acc)
  /\ Bet.bestDraw r
     = fold_left Bet.better (map Bet.price (filter (to_draw home away) outs))
         (Bet.bestDraw acc).
Proof.
  revert acc. induction bms as [|bm bms IH]; intro acc; [now repeat split|].
  cbn [fold_left flat_map]. cbv zeta in IH |- *.
  destruct (IH (Bet.bookmaker_quotes home away acc bm)) as [IH1 [IH2 IH3]].
  rewrite IH1, IH2, IH3, bookmaker_quotes_fold.
  rewrite !filter_app, !map_app, !fold_left_app.
  destruct (fold_quote home away
              (match find (fun m => String.eqb (Bet.key m) "h2h") (Bet.markets bm) with
               | Some h2h => Bet.outcomes h2h
               | None => []
               end) acc) as [Q1 [Q2 Q3]].
  cbv zeta in Q1, Q2, Q3. rewrite Q1, Q2, Q3. now repeat split.
Qed.

Lemma ostr_eqb_true (n : option string) (s : string) :
  ostr_eqb n s = true <-> n = Some s.
Proof.
  destruct n as [x|]; simpl; [|split; discriminate].
  rewrite String.eqb_eq. split; congruence.
Qed.

Section WellFormedEvent.

Variable ev : Bet.raw_event.
Hypothesis distinct_sides : Bet.home_team ev <> Bet.away_team ev.
Hypothesis home_not_draw : toLowerCase (Bet.home_team ev) <> "draw"%string.
Hypothesis away_not_draw : toLowerCase (Bet.away_team ev) <> "draw"%string.

Lemma to_away_side (o : Bet.outcome) :
  to_away (Bet.home_team ev) (Bet.away_team ev) o = quotes_side Away ev o.
Proof.
  unfold to_away, to_home, quotes_side.
  destruct (ostr_eqb (Bet.out_name o) (Bet.away_team ev)) eqn:Ea;
    [|apply andb_false_r].
  rewrite andb_true_r.
  destruct (ostr_eqb (Bet.out_name o) (Bet.home_team ev)) eqn:Eh;
    [|reflexivity].
  apply ostr_eqb_true in Ea. apply ostr_eqb_true in Eh. congruence.
Qed.

Lemma to_draw_side (o : Bet.outcome) :
  to_draw (Bet.home_team ev) (Bet.away_team ev) o = quotes_side Draw ev o.
Proof.
  unfold to_draw, to_home, quotes_side.
  destruct (String.eqb (toLowerCase (Bet.name_or_empty (Bet.out_name o))) "draw")
    eqn:Ed; [|apply andb_false_r].
  rewrite andb_true_r. apply String.eqb_eq in Ed.
  destruct (ostr_eqb (Bet.out_name o) (Bet.home_team ev)) eqn:Eh.
  { apply ostr_eqb_true in Eh. rewrite Eh in Ed. simpl in Ed. contradiction. }
  destruct (ostr_eqb (Bet.out_name o) (Bet.away_team ev)) eqn:Ea.
  { apply ostr_eqb_true in Ea. rewrite Ea in Ed. simpl in Ed. contradiction. }
  reflexivity.
Qed.

Lemma best_prices_quotes :
  Bet.bestHome (Bet.best_prices ev) = fold_left Bet.better (quotes Home ev) None
  /\ Bet.bestAway (Bet.best_prices ev) = fold_left Bet.better (quotes Away ev) None
  /\ Bet.bestDraw (Bet.best_prices ev) = fold_left Bet.better (quotes Draw ev) None.
Proof.
  unfold Bet.best_prices, quotes.
  destruct (fold_bookmakers (Bet.home_team ev) (Bet.away_team ev) (Bet.bookmakers ev)
              {| Bet.bestHome := None; Bet.bestDraw := None; Bet.bestAway := None |})
    as [H1 [H2 H3]].
  cbv zeta in H1, H2, H3. rewrite H1, H2, H3. cbn [Bet.bestHome Bet.bestAway Bet.bestDraw].
  fold (h2h_outcomes ev).
  rewrite (filter_ext _ _ to_away_side), (filter_ext _ _ to_draw_side).
  now repeat split.
Qed.

End WellFormedEvent.

Lemma quotes_numeric (s : side) (ev : Bet.raw_event) :
  (forall o, In o (h2h_outcomes ev) -> isNaN (Bet.price o) = false) ->
  forall q, In q (quotes s ev) -> isNaN q = false.
Proof.
  intros H q Hq. unfold quotes in Hq. apply in_map_iff in Hq.
  destruct Hq as [o [<- Ho]]. apply filter_In in Ho. apply H. tauto.
Qed.

(** C8.  For an event whose two sides have different names, neither of
    which reads "draw", and whose quoted prices are numbers: what
    [syncEflCupOddsToDB] records for the home side, for the away side and
    for the draw is nothing when no bookmaker's h2h market quotes that
    outcome, and otherwise a quoted price that no other quote for the
    outcome exceeds.  An event with nothing recorded for the home or for
    the away side is skipped: the loop body writes nothing and adds one to
    [skippedNoOdds] only.  An event that is upserted carries exactly the
    recorded prices, the draw price being [NULL] when there is no quote. *)
Theorem best_price_is_maximum (ev : Bet.raw_event)
    (distinct_sides : Bet.home_team ev <> Bet.away_team ev)
    (home_not_draw : toLowerCase (Bet.home_team ev) <> "draw"%string)
    (away_not_draw : toLowerCase (Bet.away_team ev) <> "draw"%string)
    (numeric : forall o, In o (h2h_outcomes ev) -> isNaN (Bet.price o) = false) :
  let b := Bet.best_prices ev in
  recorded (Bet.bestHome b) (quotes Home ev)
  /\ recorded (Bet.bestAway b) (quotes Away ev)
  /\ recorded (Bet.bestDraw b) (quotes Draw ev)
  /\ (Bet.bestHome b = None \/ Bet.bestAway b = None ->
      forall (st : Bet.sync_state) (d : db),
        run (Bet.sync_event ev st) d
        = (d, {| Bet.upserted := Bet.upserted st;
                 Bet.skippedNoOdds := (Bet.skippedNoOdds st + 1)%Z;
                 Bet.activeExternalIds := Bet.activeExternalIds st |}))
  /\ (forall v : game_values,
         Bet.priced ev = Some v ->
         Bet.bestHome b = Some (v_team1_odds v)
         /\ Bet.bestAway b = Some (v_team2_odds v)
         /\ Bet.bestDraw b = v_draw_odds v).
Proof.
  intro b. subst b.
  destruct (best_prices_quotes ev distinct_sides home_not_draw away_not_draw)
    as [H1 [H2 H3]].
  split; [|split; [|split; [|split]]].
  - rewrite H1. apply fold_better_recorded. now apply quotes_numeric.
  - rewrite H2. apply fold_better_recorded. now apply quotes_numeric.
  - rewrite H3. apply fold_better_recorded. now apply quotes_numeric.
  - intros Hnone st d. unfold Bet.sync_event, Bet.priced.
    destruct Hnone as [-> | ->]; [reflexivity|].
    now destruct (Bet.bestHome (Bet.best_prices ev)).
  - intros v Hv. unfold Bet.priced in Hv.
    destruct (Bet.bestHome (Bet.best_prices ev)) as [h|]; [|discriminate Hv].
    destruct (Bet.bestAway (Bet.best_prices ev)) as [a|]; [|discriminate Hv].
    destruct (negb (truthy_num h) || negb (truthy_num a)); [discriminate Hv|].
    injection Hv as <-. now repeat split.
Qed.

Example best_prices_quoted :
  Bet.best_prices Scenario.quoted
  = {| Bet.bestHome := Some (ofQ (21 # 10));
       Bet.bestDraw := Some (ofQ (31 # 10));
       Bet.bestAway := Some (ofQ (18 # 10)) |}.
Proof. reflexivity. Qed.

Lemma best_price_is_maximum_witness :
  recorded (Bet.bestHome (Bet.best_prices Scenario.quoted)) (quotes Home Scenario.quoted)
  /\ recorded (Bet.bestAway (Bet.best_prices Scenario.quoted)) (quotes Away Scenario.quoted)
  /\ recorded (Bet.bestDraw (Bet.best_prices Scenario.quoted)) (quotes Draw Scenario.quoted).
Proof.
  assert (H1 : Bet.home_team Scenario.quoted <> Bet.away_team Scenario.quoted)
    by discriminate.
  assert (H2 : toLowerCase (Bet.home_team Scenario.quoted) <> "draw"%string)
    by discriminate.
  assert (H3 : toLowerCase (Bet.away_team Scenario.quoted) <> "draw"%string)
    by discriminate.
  assert (H4 : forall o, In o (h2h_outcomes Scenario.quoted) ->
                         isNaN (Bet.price o) = false).
  { intros o H. simpl in H.
    repeat (destruct H as [<-|H]; [reflexivity|]). destruct H. }
  destruct (best_price_is_maximum Scenario.quoted H1 H2 H3 H4) as [A [B [C _]]].
  exact (conj A (conj B C)).
Defined.

(** ** Reconciliation *)

Lemma run_sync_events (events : list Bet.raw_event) (st : Bet.sync_state) (d : db) :
  fst (run (Bet.sync_events events st) d) = upserts (priced_rows events) d
  /\ Bet.activeExternalIds (snd (run (Bet.sync_events events st) d))
     = Bet.activeExternalIds st ++ map v_external_id (priced_rows events).
Proof.
  revert st d. induction events as [|ev events IH]; intros st d.
  - simpl. now rewrite app_nil_r.
  - cbn [Bet.sync_events]. rewrite run_bind.
    unfold priced_rows. cbn [flat_map]. fold (priced_rows events).
    unfold Bet.sync_event at 1 2. unfold Bet.sync_event at 1 2.
    destruct (Bet.priced ev) as [v|].
    + cbn [bind await run exec fst snd app map].
      destruct (IH {| Bet.upserted := (Bet.upserted st + 1)%Z;
                      Bet.skippedNoOdds := Bet.skippedNoOdds st;
                      Bet.activeExternalIds := Bet.activeExternalIds st ++ [v_external_id v] |}
                   (upsert_game v d)) as [IH1 IH2].
      rewrite IH1, IH2. cbn [Bet.activeExternalIds].
      now rewrite <- app_assoc.
    + cbn [run fst snd app].
      destruct (IH {| Bet.upserted := Bet.upserted st;
                      Bet.skippedNoOdds := (Bet.skippedNoOdds st + 1)%Z;
                      Bet.activeExternalIds := Bet.activeExternalIds st |} d)
        as [IH1 IH2].
      now rewrite IH1, IH2.
Qed.

(** The pass as a whole: the upserts, then the pruning when at least one
    event was upserted. *)
Lemma run_sync (events : list Bet.raw_event) (d : db) :
  fst (run (Bet.syncEflCupOddsToDB events) d)
  = match priced_rows events with
    | [] => d
    | _ :: _ => delete_finished (map v_external_id (priced_rows events))
                  (upserts (priced_rows events) d)
    end.
Proof.
  unfold Bet.syncEflCupOddsToDB. rewrite run_bind.
  destruct (run_sync_events events
              {| Bet.upserted := 0; Bet.skippedNoOdds := 0;
                 Bet.activeExternalIds := [] |} d) as [H1 H2].
  rewrite H1. cbn [app Bet.activeExternalIds] in H2.
  rewrite run_bind, H2.
  destruct (priced_rows events) as [|v vs]; [reflexivity|].
  cbn [map List.length]. 
  replace (0 <? Z.of_nat (S (List.length (map v_external_id vs))))%Z with true
    by (symmetry; apply Z.ltb_lt; lia).
  now rewrite run_await.
Qed.

Lemma str_mem_In (e : string) (l : list string) : str_mem e l = true <-> In e l.
Proof.
  unfold str_mem. rewrite existsb_exists. split.
  - intros [x [Hx E]]. apply String.eqb_eq in E. now subst.
  - intro H. exists e. split; [exact H|apply String.eqb_refl].
Qed.

Lemma overwrite_row_id (v : game_values) (g : game) :
  g_id (overwrite_row v g) = g_id g.
Proof. unfold overwrite_row. now destruct (has_external_id _ g). Qed.

Lemma overwrite_row_ext (v : game_values) (g : game) :
  external_id (overwrite_row v g) = external_id g.
Proof.
  unfold overwrite_row. destruct (has_external_id _ g) eqn:E; [|reflexivity].
  apply ostr_eqb_true in E. now rewrite E.
Qed.

Lemma overwrite_row_hit (v : game_values) (g : game) :
  external_id g = Some (v_external_id v) ->
  overwrite_row v g = game_of_values (g_id g) v.
Proof.
  intro H. unfold overwrite_row, has_external_id. rewrite H. simpl.
  now rewrite String.eqb_refl.
Qed.

Lemma overwrite_row_miss (v : game_values) (g : game) :
  has_external_id (v_external_id v) g = false -> overwrite_row v g = g.
Proof. intro H. unfold overwrite_row. now rewrite H. Qed.

Lemma refresh_id_ext (vs : list game_values) (g : game) :
  g_id (refresh vs g) = g_id g /\ external_id (refresh vs g) = external_id g.
Proof.
  revert g. induction vs as [|v vs IH]; intro g; [now split|].
  unfold refresh. cbn [fold_left]. fold (refresh vs (overwrite_row v g)).
  destruct (IH (overwrite_row v g)) as [H1 H2].
  now rewrite H1, H2, overwrite_row_id, overwrite_row_ext.
Qed.

Lemma refresh_snoc (vs : list game_values) (v : game_values) (g : game) :
  refresh (vs ++ [v]) g = overwrite_row v (refresh vs g).
Proof. unfold refresh. now rewrite fold_left_app. Qed.

Lemma refresh_untouched (vs : list game_values) (g : game) :
  (forall v, In v vs -> has_external_id (v_external_id v) g = false) ->
  refresh vs g = g.
Proof.
  revert g. induction vs as [|v vs IH]; intros g H; [reflexivity|].
  unfold refresh. cbn [fold_left]. fold (refresh vs (overwrite_row v g)).
  rewrite overwrite_row_miss by (apply H; now left).
  apply IH. intros w Hw. apply H. now right.
Qed.

Lemma existsb_has_ext_overwrite (e : string) (v : game_values) (gs : list game) :
  existsb (has_external_id e) (map (overwrite_row v) gs)
  = existsb (has_external_id e) gs.
Proof.
  induction gs as [|g gs IH]; [reflexivity|].
  cbn [map existsb]. rewrite IH. f_equal.
  unfold has_external_id. now rewrite overwrite_row_ext.
Qed.

(** The rows that were stored before a run of upserts are all still there,
    refreshed in place; the rows it adds come after them. *)
Lemma upserts_games (vs : list game_values) (d : db) :
  exists news : list game,
    games (upserts vs d) = map (refresh vs) (games d) ++ news
    /\ (forall n, In n news ->
          exists e, external_id n = Some e /\ In e (map v_external_id vs)).
Proof.
  revert d. induction vs as [|v vs IH]; intro d.
  - exists []. cbn [upserts fold_left refresh map]. rewrite app_nil_r.
    split; [now rewrite map_id|intros n []].
  - unfold upserts. cbn [fold_left]. fold (upserts vs (upsert_game v d)).
    destruct (IH (upsert_game v d)) as [news [Hg Hn]].
    unfold upsert_game in Hg at 2. cbn [games] in Hg.
    destruct (existsb (has_external_id (v_external_id v)) (games d)) eqn:E.
    + exists news. split.
      * rewrite Hg, map_map. reflexivity.
      * intros n Hin. destruct (Hn n Hin) as [e [H1 H2]].
        exists e. split; [exact H1|now right].
    + exists (refresh vs (game_of_values (games_seq d) v) :: news). split.
      * rewrite Hg, map_app. cbn [map]. rewrite <- app_assoc. cbn [app].
        f_equal. apply map_ext_in. intros g Hg'.
        unfold refresh at 2. cbn [fold_left]. rewrite overwrite_row_miss; [reflexivity|].
        destruct (has_external_id (v_external_id v) g) eqn:Eg; [|reflexivity].
        assert (existsb (has_external_id (v_external_id v)) (games d) = true)
          by (apply existsb_exists; eauto).
        congruence.
      * intros n [<-|Hin].
        -- exists (v_external_id v). split; [|now left].
           now rewrite (proj2 (refresh_id_ext vs _)).
        -- destruct (Hn n Hin) as [e [H1 H2]].
           exists e. split; [exact H1|now right].
Qed.

Lemma finished_refresh (vs : list game_values) (g : game) :
  finished (map v_external_id vs) (refresh vs g)
  = finished (map v_external_id vs) g.
Proof.
  destruct (existsb (fun v => has_external_id (v_external_id v) g) vs) eqn:E.
  - apply existsb_exists in E. destruct E as [v [Hv Hm]].
    apply ostr_eqb_true in Hm.
    assert (Hin : str_mem (v_external_id v) (map v_external_id vs) = true)
      by (apply str_mem_In, in_map; exact Hv).
    unfold finished. rewrite (proj2 (refresh_id_ext vs g)), Hm, Hin.
    now rewrite !andb_false_r.
  - rewrite refresh_untouched; [reflexivity|].
    intros v Hv. destruct (has_external_id (v_external_id v) g) eqn:Eg; [|reflexivity].
    assert (existsb (fun v => has_external_id (v_external_id v) g) vs = true)
      by (apply existsb_exists; eauto).
    congruence.
Qed.

Lemma filter_map_comm {A B : Type} (p : B -> bool) (f : A -> B) (l : list A) :
  filter p (map f l) = map f (filter (fun x => p (f x)) l).
Proof.
  induction l as [|x l IH]; [reflexivity|].
  cbn [map filter]. rewrite IH. now destruct (p (f x)).
Qed.

Lemma filter_all {A : Type} (p : A -> bool) (l : list A) :
  (forall x, In x l -> p x = true) -> filter p l = l.
Proof.
  induction l as [|x l IH]; intro H; [reflexivity|].
  cbn [filter]. rewrite (H x (or_introl eq_refl)). f_equal.
  apply IH. intros y Hy. apply H. now right.
Qed.

Lemma finished_active (active : list string) (g : game) (e : string) :
  external_id g = Some e -> In e active -> finished active g = false.
Proof.
  intros He Hin. unfold finished. rewrite He.
  apply str_mem_In in Hin. rewrite Hin. now rewrite andb_false_r.
Qed.

(** The games table after a pass that upserted at least one event. *)
Lemma sync_games (events : list Bet.raw_event) (d : db) :
  priced_rows events <> [] ->
  exists news : list game,
    games (fst (run (Bet.syncEflCupOddsToDB events) d))
    = map (refresh (priced_rows events))
        (filter (fun g => negb (finished (map v_external_id (priced_rows events)) g))
           (games d)) ++ news
    /\ (forall n, In n news ->
          exists e, external_id n = Some e
                    /\ In e (map v_external_id (priced_rows events))).
Proof.
  intro Hne. rewrite run_sync.
  destruct (priced_rows events) as [|v0 vs0] eqn:Ev; [congruence|].
  rewrite <- Ev. clear Ev Hne v0 vs0.
  destruct (upserts_games (priced_rows events) d) as [news [Hg Hn]].
  exists news. split; [|exact Hn].
  unfold delete_finished. cbn [games]. rewrite Hg, filter_app.
  rewrite filter_map_comm. f_equal.
  - f_equal. apply filter_ext. intro g. now rewrite finished_refresh.
  - apply filter_all. intros n Hin. destruct (Hn n Hin) as [e [H1 H2]].
    now rewrite (finished_active _ _ _ H1 H2).
Qed.

(** What a pass prunes.  A pass over an empty snapshot, and more generally
    a pass that upserts no event, leaves the store as it is.  A pass that
    upserts at least one event removes from the rows stored before it
    exactly those whose [game_type] is ['soccer'], whose external id matches
    [LIKE 'odds_%'] and is not the id of an upserted event; the other rows
    stay in place, refreshed by the upserts with their [id] and external id
    unchanged, and the rows added by the pass follow them. *)
Lemma pruning_follows_upserted_ids (events : list Bet.raw_event) (d : db) :
  let vs := priced_rows events in
  let active := map v_external_id vs in
  let d' := fst (run (Bet.syncEflCupOddsToDB events) d) in
  (events = [] -> d' = d)
  /\ (vs = [] -> d' = d)
  /\ (vs <> [] ->
      exists news : list game,
        games d' = map (refresh vs)
                     (filter (fun g => negb (finished active g)) (games d)) ++ news
        /\ (forall n, In n news ->
              exists e, external_id n = Some e /\ In e active))
  /\ (forall g, g_id (refresh vs g) = g_id g
                /\ external_id (refresh vs g) = external_id g).
Proof.
  intros vs active d'. subst vs active d'.
  split; [|split; [|split]].
  - intros ->. reflexivity.
  - intro H. now rewrite run_sync, H.
  - apply sync_games.
  - apply refresh_id_ext.
Qed.

(** C6, on the code.  The comments of [syncEflCupOddsToDB] call finished
    a match that is "not present in latest Odds API response" and introduce
    the id list as "all matches returned NOW by Odds API"; but an id enters
    the list on line 75, after the [continue] that skips an event without a
    price for both sides (lines 69-72), and that list gates and drives the
    [DELETE].  A pass over an empty snapshot deletes nothing, as claimed.
    A pass over a snapshot whose only event is priced for one side deletes
    nothing either, although the snapshot is not empty and the market
    odds_1 of the store is absent from it.  And a pass over a priced event
    and an event priced for one side deletes the market of the latter,
    odds_2, although the snapshot has its event. *)
Theorem pruning_not_by_snapshot :
  let pass := fun events d => fst (run (Bet.syncEflCupOddsToDB events) d) in
  (forall d : db, pass [] d = d)
  /\ (In Scenario.red_blue (games Scenario.fresh)
      /\ in_namespace Scenario.red_blue = true
      /\ in_snapshot [Scenario.green_white_half_quoted] Scenario.red_blue = false
      /\ pass [Scenario.green_white_half_quoted] Scenario.fresh = Scenario.fresh)
  /\ (In Scenario.green_white (games Scenario.two_markets)
      /\ in_snapshot [Scenario.quoted; Scenario.green_white_half_quoted]
           Scenario.green_white = true
      /\ kept (pass [Scenario.quoted; Scenario.green_white_half_quoted]
                 Scenario.two_markets) Scenario.green_white = false
      /\ map external_id
           (games (pass [Scenario.quoted; Scenario.green_white_half_quoted]
                     Scenario.two_markets))
         = [Some "odds_1"%string])
  /\ ~ prunes_as_specified [Scenario.green_white_half_quoted] Scenario.fresh
  /\ ~ prunes_as_specified [Scenario.quoted; Scenario.green_white_half_quoted]
         Scenario.two_markets.
Proof.
  cbv zeta. split; [|split; [|split; [|split]]].
  - intro d. reflexivity.
  - split; [now left|]. repeat split; reflexivity.
  - split; [right; now left|]. repeat split; reflexivity.
  - intro H.
    destruct (H Scenario.red_blue (or_introl eq_refl)) as [_ H2].
    specialize (H2 eq_refl). vm_compute in H2. discriminate H2.
  - intro H.
    destruct (H Scenario.green_white (or_intror (or_introl eq_refl))) as [H1 _].
    specialize (H1 eq_refl). vm_compute in H1. discriminate H1.
Qed.

Lemma upserts_snoc (vs : list game_values) (v : game_values) (d : db) :
  upserts (vs ++ [v]) d = upsert_game v (upserts vs d).
Proof. unfold upserts. now rewrite fold_left_app. Qed.

Lemma upsert_game_present (v : game_values) (d : db) :
  existsb (has_external_id (v_external_id v)) (games (upsert_game v d)) = true.
Proof.
  unfold upsert_game. cbn [games].
  destruct (existsb _ (games d)) eqn:E.
  - now rewrite existsb_has_ext_overwrite.
  - rewrite existsb_app. cbn [existsb]. unfold has_external_id at 2.
    cbn [game_of_values external_id ostr_eqb]. rewrite String.eqb_refl.
    now rewrite orb_true_r.
Qed.

Lemma upsert_game_keeps (e : string) (v : game_values) (d : db) :
  existsb (has_external_id e) (games d) = true ->
  existsb (has_external_id e) (games (upsert_game v d)) = true.
Proof.
  intro H. unfold upsert_game. cbn [games].
  destruct (existsb (has_external_id (v_external_id v)) (games d)).
  - now rewrite existsb_has_ext_overwrite.
  - rewrite existsb_app, H. reflexivity.
Qed.

(** Every upserted event has its row. *)
Lemma upserts_present (vs : list game_values) (d : db) (v : game_values) :
  In v vs ->
  existsb (has_external_id (v_external_id v)) (games (upserts vs d)) = true.
Proof.
  induction vs as [|w vs IH] using rev_ind; intro H; [destruct H|].
  rewrite upserts_snoc. apply in_app_or in H. destruct H as [H|[<-|[]]].
  - apply upsert_game_keeps. now apply IH.
  - apply upsert_game_present.
Qed.

(** After a run of upserts every row holds what the run leaves in it: a
    second run over the same rows rewrites each with its own content. *)
Lemma upserts_settled (vs : list game_values) (d : db) (g : game) :
  In g (games (upserts vs d)) -> refresh vs g = g.
Proof.
  revert g. induction vs as [|v vs IH] using rev_ind; intros g H; [reflexivity|].
  rewrite upserts_snoc in H. rewrite refresh_snoc.
  unfold upsert_game in H. cbn [games] in H.
  destruct (existsb (has_external_id (v_external_id v)) (games (upserts vs d))) eqn:E.
  - apply in_map_iff in H. destruct H as [g' [<- Hg']].
    destruct (has_external_id (v_external_id v) g') eqn:Eg.
    + apply ostr_eqb_true in Eg.
      rewrite (overwrite_row_hit v g' Eg).
      rewrite overwrite_row_hit.
      * now rewrite (proj1 (refresh_id_ext vs _)).
      * now rewrite (proj2 (refresh_id_ext vs _)).
    + rewrite (overwrite_row_miss v g' Eg), (IH g' Hg').
      now apply overwrite_row_miss.
  - apply in_app_or in H. destruct H as [H|[<-|[]]].
    + rewrite (IH g H). apply overwrite_row_miss.
      destruct (has_external_id (v_external_id v) g) eqn:Eg; [|reflexivity].
      assert (existsb (has_external_id (v_external_id v)) (games (upserts vs d)) = true)
        by (apply existsb_exists; eauto).
      congruence.
    + rewrite overwrite_row_hit.
      * now rewrite (proj1 (refresh_id_ext vs _)).
      * now rewrite (proj2 (refresh_id_ext vs _)).
Qed.

(** When every event already has its row, a run of upserts adds none. *)
Lemma upserts_in_place (vs : list game_values) (d : db) :
  (forall v, In v vs ->
     existsb (has_external_id (v_external_id v)) (games d) = true) ->
  games (upserts vs d) = map (refresh vs) (games d).
Proof.
  revert d. induction vs as [|v vs IH]; intros d H.
  - cbn. now rewrite map_id.
  - unfold upserts. cbn [fold_left]. fold (upserts vs (upsert_game v d)).
    rewrite IH.
    + unfold upsert_game. cbn [games]. rewrite (H v (or_introl eq_refl)).
      now rewrite map_map.
    + intros w Hw. apply upsert_game_keeps. apply H. now right.
Qed.

Lemma upserts_ledger (vs : list game_values) (d : db) :
  users (upserts vs d) = users d /\ bets (upserts vs d) = bets d.
Proof.
  revert d. induction vs as [|v vs IH]; intro d; [now split|].
  unfold upserts. cbn [fold_left]. fold (upserts vs (upsert_game v d)).
  destruct (IH (upsert_game v d)) as [H1 H2]. now rewrite H1, H2.
Qed.

(** C9.  Reconciling a snapshot a second time leaves the games table, row
    for row, as the first pass left it (and the ledger tables as they
    were). *)
Theorem reconciliation_idempotent (events : list Bet.raw_event) (d : db) :
  let once := fst (run (Bet.syncEflCupOddsToDB events) d) in
  let twice := fst (run (Bet.syncEflCupOddsToDB events) once) in
  games twice = games once /\ users twice = users once /\ bets twice = bets once.
Proof.
  intros once twice. subst twice once. rewrite !run_sync.
  destruct (priced_rows events) as [|v0 vs0] eqn:Ev; [now repeat split|].
  rewrite <- Ev.
  assert (Hne : priced_rows events <> []) by (rewrite Ev; discriminate).
  clear Ev v0 vs0.
  set (vs := priced_rows events) in *.
  set (active := map v_external_id vs).
  set (once := delete_finished active (upserts vs d)).
  assert (Hkeep : forall g, In g (games once) -> finished active g = false).
  { intros g Hg. unfold once, delete_finished in Hg. cbn [games] in Hg.
    apply filter_In in Hg. destruct Hg as [_ Hg]. now apply negb_true_iff in Hg. }
  assert (Hin : forall g, In g (games once) -> In g (games (upserts vs d))).
  { intros g Hg. unfold once, delete_finished in Hg. cbn [games] in Hg.
    apply filter_In in Hg. tauto. }
  assert (Hpresent : forall v, In v vs ->
             existsb (has_external_id (v_external_id v)) (games once) = true).
  { intros v Hv. pose proof (upserts_present vs d v Hv) as Hp.
    apply existsb_exists in Hp. destruct Hp as [g [Hg Hm]].
    apply existsb_exists. exists g. split; [|exact Hm].
    unfold once, delete_finished. cbn [games]. apply filter_In. split; [exact Hg|].
    apply ostr_eqb_true in Hm.
    rewrite (finished_active active g _ Hm); [reflexivity|].
    unfold active. now apply in_map. }
  assert (Hsame : games (upserts vs once) = games once).
  { rewrite (upserts_in_place vs once Hpresent).
    rewrite <- (map_id (games once)) at 2. apply map_ext_in.
    intros g Hg. apply (upserts_settled vs d). now apply Hin. }
  split; [|split].
  - unfold delete_finished at 1. cbn [games]. rewrite Hsame.
    apply filter_all. intros g Hg. now rewrite (Hkeep g Hg).
  - unfold delete_finished at 1. cbn [users].
    now rewrite (proj1 (upserts_ledger vs once)).
  - unfold delete_finished at 1. cbn [bets].
    now rewrite (proj2 (upserts_ledger vs once)).
Qed.

(** ** Batch settlement *)

Lemma run_settle_bet (w : option string) (b : bet) (d : db) :
  run (Admin.settle_bet w b) d
  = (with_users (credit_step w (users d) b) (with_bets (status_step w (bets d) b) d), tt).
Proof.
  unfold Admin.settle_bet, credit_step, status_step.
  cbn [bind await run exec].
  destruct (ostr_eqb w (selected_team b)); cbn [bind await run exec].
  - reflexivity.
  - now destruct d.
Qed.

Lemma run_settle_bets (w : option string) (rows : list bet) (k : Z) (d : db) :
  run (Admin.settle_bets w rows k) d
  = (with_users (fold_left (credit_step w) rows (users d))
       (with_bets (fold_left (status_step w) rows (bets d)) d),
     (k + Z.of_nat (List.length rows))%Z).
Proof.
  revert k d. induction rows as [|b rows IH]; intros k d.
  - cbn. rewrite Z.add_0_r. now destruct d.
  - cbn [Admin.settle_bets]. rewrite run_bind, run_settle_bet. cbn [fst snd].
    rewrite IH. cbn [fold_left List.length]. f_equal. lia.
Qed.

Lemma fold_credit_step (w : option string) (rows : list bet) (us : list user) :
  fold_left (credit_step w) rows us
  = map (fun u => fold_left (fun u b => credit_row (Admin.winnings b) (user_id b) u)
                    (filter (fun b => ostr_eqb w (selected_team b)) rows) u) us.
Proof.
  revert us. induction rows as [|b rows IH]; intro us.
  - cbn. now rewrite map_id.
  - cbn [fold_left filter]. rewrite IH. unfold credit_step.
    destruct (ostr_eqb w (selected_team b)); [|reflexivity].
    now rewrite map_map.
Qed.

Lemma fold_status_step (w : option string) (rows : list bet) (bs : list bet) :
  NoDup (map b_id rows) ->
  fold_left (status_step w) rows bs
  = map (fun b => match find (fun x => (b_id x =? b_id b)%Z) rows with
                  | Some x => set_status (Admin.newStatus w x) b
                  | None => b
                  end) bs.
Proof.
  revert bs. induction rows as [|x rows IH]; intros bs Hnd.
  - cbn. now rewrite map_id.
  - cbn [fold_left]. inversion Hnd as [|? ? Hnotin Hnd']; subst.
    rewrite (IH _ Hnd'). unfold status_step. rewrite map_map.
    apply map_ext. intro b. unfold status_row. cbn [find].
    rewrite (Z.eqb_sym (b_id x) (b_id b)).
    destruct (b_id b =? b_id x)%Z eqn:E.
    + cbn [set_status b_id].
      apply Z.eqb_eq in E. rewrite E.
      destruct (find (fun y => (b_id y =? b_id x)%Z) rows) as [y|] eqn:F;
        [|reflexivity].
      apply find_some in F. destruct F as [Hy Ey]. apply Z.eqb_eq in Ey.
      exfalso. apply Hnotin. rewrite <- Ey. now apply in_map.
    + reflexivity.
Qed.

Lemma find_by_id_filter (P : bet -> bool) (bs : list bet) (b : bet) :
  NoDup (map b_id bs) -> In b bs ->
  find (fun x => (b_id x =? b_id b)%Z) (filter P bs)
  = if P b then Some b else None.
Proof.
  induction bs as [|x bs IH]; intros Hnd Hin; [destruct Hin|].
  inversion Hnd as [|? ? Hnotin Hnd']; subst.
  assert (Hnone : forall l, (forall y, In y l -> In y bs) -> b_id x = b_id b ->
                   find (fun y => (b_id y =? b_id b)%Z) l = None).
  { intros l Hl E. destruct (find _ l) as [y|] eqn:F; [|reflexivity].
    apply find_some in F. destruct F as [Hy Ey]. apply Z.eqb_eq in Ey.
    exfalso. apply Hnotin. rewrite E, <- Ey. apply in_map. now apply Hl. }
  cbn [filter]. destruct Hin as [->|Hin].
  - destruct (P b) eqn:Pb.
    + cbn [find]. now rewrite Z.eqb_refl.
    + apply (Hnone (filter P bs)); [|reflexivity].
      intros y Hy. apply filter_In in Hy. tauto.
  - assert (Hne : b_id x <> b_id b).
    { intro E. apply Hnotin. rewrite E. now apply in_map. }
    destruct (P x).
    + cbn [find]. apply Z.eqb_neq in Hne. rewrite Hne. now apply IH.
    + now apply IH.
Qed.

Lemma NoDup_map_filter {A B : Type} (f : A -> B) (P : A -> bool) (l : list A) :
  NoDup (map f l) -> NoDup (map f (filter P l)).
Proof.
  induction l as [|x l IH]; intro H; [constructor|].
  inversion H as [|? ? Hnotin Hnd]; subst. cbn [filter].
  destruct (P x); [|now apply IH].
  cbn [map]. constructor; [|now apply IH].
  intro Hin. apply Hnotin. apply in_map_iff in Hin.
  destruct Hin as [y [E Hy]]. apply filter_In in Hy.
  rewrite <- E. apply in_map. tauto.
Qed.

Lemma credit_fold_id (ws : list bet) (u : user) :
  u_id (fold_left (fun u b => credit_row (Admin.winnings b) (user_id b) u) ws u)
  = u_id u.
Proof.
  revert u. induction ws as [|b ws IH]; intro u; [reflexivity|].
  cbn [fold_left]. now rewrite IH, credit_row_id.
Qed.

Lemma credit_fold_coins (a : Z) (ws : list bet) (u : user) :
  u_id u = a ->
  COALESCE0 (coins (fold_left (fun u b => credit_row (Admin.winnings b) (user_id b) u) ws u))
  = fold_left nadd (credits_to a ws) (COALESCE0 (coins u)).
Proof.
  revert u. induction ws as [|b ws IH]; intros u Hu; [reflexivity|].
  cbn [fold_left]. rewrite IH by now rewrite credit_row_id.
  unfold credits_to. cbn [filter]. unfold credit_row. rewrite Hu.
  rewrite (Z.eqb_sym a (user_id b)).
  now destruct (user_id b =? a)%Z.
Qed.

Lemma balance_credit_fold (a : Z) (ws : list bet) (us : list user) :
  option_map (fun u => COALESCE0 (coins u))
    (find (fun u => (u_id u =? a)%Z)
       (map (fun u => fold_left (fun u b => credit_row (Admin.winnings b) (user_id b) u)
                        ws u) us))
  = option_map (fun c => fold_left nadd (credits_to a ws) c)
      (option_map (fun u => COALESCE0 (coins u))
         (find (fun u => (u_id u =? a)%Z) us)).
Proof.
  rewrite find_map_same by (intro x; now rewrite credit_fold_id).
  destruct (find (fun u => (u_id u =? a)%Z) us) as [u|] eqn:E; [|reflexivity].
  apply find_some in E. destruct E as [_ E]. apply Z.eqb_eq in E.
  cbn [option_map]. now rewrite (credit_fold_coins a ws u E).
Qed.

Lemma nlt_neither (a b : num) :
  isNaN a = false -> isNaN b = false ->
  nlt a b = false -> nlt b a = false -> a = b.
Proof.
  destruct a, b; simpl; try reflexivity; try discriminate.
  intros _ _. rewrite !Qc_ltb_ge. intros H1 H2.
  f_equal. now apply Qcle_antisym.
Qed.

(** The body of the loop over the completed results, lines 68-116, had it
    been reached.  Let a result resolve to the stored market [g] and carry a
    numeric score for each of its two sides.  The winning label is the name
    of the side with the higher score and ["Draw"] when the scores are
    equal.  With wager ids that are a key of the table, the body turns every
    pending wager whose [game_name] is that of [g] into [won] when its
    selected side is the label and into [lost] otherwise, leaves every other
    wager as it is, raises the balance of every account by the product
    [bet_amount * odds] of each of its winning wagers and by nothing else,
    and counts the wagers it settled. *)
Lemma resolve_event_by_scores
    (ev : Admin.raw_result) (d : db) (g : game) (t1 t2 : string)
    (s1 s2 : Admin.score_entry) (k : Z)
    (Hg : find (has_external_id ("odds_" ++ Admin.r_id ev)) (games d) = Some g)
    (Ht1 : team1_name g = Some t1)
    (Ht2 : team2_name g = Some t2)
    (Hs1 : find (fun s => String.eqb t1 (Admin.s_name s)) (Admin.scores ev) = Some s1)
    (Hs2 : find (fun s => String.eqb t2 (Admin.s_name s)) (Admin.scores ev) = Some s2)
    (Hn1 : isNaN (Admin.score s1) = false)
    (Hn2 : isNaN (Admin.score s2) = false)
    (Hkey : NoDup (map b_id (bets d))) :
  exists label : string,
    ((ngt (Admin.score s1) (Admin.score s2) = true /\ label = t1)
     \/ (ngt (Admin.score s2) (Admin.score s1) = true /\ label = t2)
     \/ (Admin.score s1 = Admin.score s2 /\ label = "Draw"%string))
    /\ Admin.winningTeam g (Admin.score s1) (Admin.score s2) = Some label
    /\ (let d' := fst (run (Admin.resolve_event ev k) d) in
        bets d' = map (settle_row label (game_name g)) (bets d)
        /\ (forall a : Z,
              balance d' a
              = option_map
                  (fun c => fold_left nadd (credits_to a (winners label (game_name g) d)) c)
                  (balance d a))
        /\ games d' = games d
        /\ snd (run (Admin.resolve_event ev k) d)
           = (k + Z.of_nat (List.length
                             (filter (fun b => status_eqb (status b) pending
                                               && String.eqb (b_game_name b) (game_name g))
                                (bets d))))%Z).
Proof.
  assert (Hlabel : exists label,
             ((ngt (Admin.score s1) (Admin.score s2) = true /\ label = t1)
              \/ (ngt (Admin.score s2) (Admin.score s1) = true /\ label = t2)
              \/ (Admin.score s1 = Admin.score s2 /\ label = "Draw"%string))
             /\ Admin.winningTeam g (Admin.score s1) (Admin.score s2) = Some label).
  { unfold Admin.winningTeam, ngt. rewrite Ht1, Ht2.
    destruct (nlt (Admin.score s2) (Admin.score s1)) eqn:L1; [eauto 6|].
    destruct (nlt (Admin.score s1) (Admin.score s2)) eqn:L2; [eauto 6|].
    exists "Draw"%string. split; [|reflexivity].
    right. right. split; [|reflexivity]. now apply nlt_neither. }
  destruct Hlabel as [label [Hcases Hw]].
  exists label. split; [exact Hcases|]. split; [exact Hw|].
  assert (Hrun : forall k', run (Admin.resolve_event ev k') d
                 = run (Admin.settle_bets (Some label)
                          (filter (is_pending_for (game_name g)) (bets d)) k') d).
  { intro k'. unfold Admin.resolve_event. cbn [bind await run exec].
    pose proof (hd_filter_find (has_external_id ("odds_" ++ Admin.r_id ev)) (games d)) as Hh.
    rewrite Hg in Hh.
    destruct (filter (has_external_id ("odds_" ++ Admin.r_id ev)) (games d))
      as [|g' gs]; [discriminate Hh|].
    injection Hh as ->.
    rewrite Ht1, Ht2. cbn [ostr_eqb]. rewrite Hs1, Hs2, Hn1, Hn2.
    cbn [orb bind await run exec]. rewrite Hw. reflexivity. }
  cbv zeta. rewrite Hrun, run_settle_bets. cbn [fst snd].
  split; [|split; [|split]].
  - cbn [bets with_users with_bets].
    rewrite fold_status_step by now apply NoDup_map_filter.
    apply map_ext_in. intros b Hb.
    rewrite (find_by_id_filter _ _ _ Hkey Hb). unfold settle_row.
    change (status_eqb (status b) pending && String.eqb (b_game_name b) (game_name g))
      with (is_pending_for (game_name g) b).
    destruct (is_pending_for (game_name g) b); reflexivity.
  - intro a. unfold balance, find_user. cbn [users with_users with_bets].
    rewrite fold_credit_step. cbn [ostr_eqb].
    apply balance_credit_fold.
  - reflexivity.
  - reflexivity.
Qed.

(** C5, on the code.  [admin.js] calls [axios.get] on line 56 and never
    requires [axios]: the handler of [POST /admin/auto-resolve] is answered
    500 before it reads a result, whatever its environment and whatever the
    feed would answer, and no statement of it changes the store.  In the
    scenario of the specification (a stake of 40 on Red at 2.0 pending, the
    balance at 60, the feed reporting Red 3, Blue 1) the wager stays pending
    and the balance stays 60.  The same handler in a module that binds
    [axios] settles that wager: it becomes [won] and the balance 140. *)
Theorem auto_resolve_fails_before_its_loop :
  (forall (apiKey : option string) (feed : Admin.scores_response) (d : db),
      run (Admin.auto_resolve apiKey feed) d
      = (d, json_error 500 (if truthy_ostr apiKey then "axios is not defined"
                            else "ODDS_API_KEY missing"))
      /\ forall n : nat, fst (steps n (Admin.auto_resolve apiKey feed) d) = d)
  /\ str_mem "axios" Admin.top_level = false
  /\ (let d' := fst (run (Admin.auto_resolve (Some "key"%string)
                            (Admin.ScoresData [Scenario.red_wins]))
                       Scenario.placed) in
      status_of Scenario.placed 1 = Some pending
      /\ balance Scenario.placed 7 = Some (ofZ 60)
      /\ status_of d' 1 = Some pending
      /\ balance d' 7 = Some (ofZ 60))
  /\ (let r := run (Admin.auto_resolve_in ("axios"%string :: Admin.top_level)
                      (Some "key"%string) (Admin.ScoresData [Scenario.red_wins]))
                 Scenario.placed in
      snd r = json_ok (1%Z, 1%Z)
      /\ status_of (fst r) 1 = Some won
      /\ balance (fst r) 7 = Some (ofZ 140)).
Proof.
  split; [|split; [|split]].
  - intros apiKey feed d. split.
    + apply auto_resolve_run.
    + intro n. apply auto_resolve_steps.
  - reflexivity.
  - repeat split; reflexivity.
  - repeat split; reflexivity.
Qed.

(** ** The ledger invariant *)

Lemma finite_nonneg_inv (n : num) :
  finite_nonneg n = true -> exists q : Qc, n = Fin q /\ (0 <= q)%Qc.
Proof.
  destruct n as [| | |q]; try discriminate.
  intro H. exists q. split; [reflexivity|now apply Qc_leb_le].
Qed.

Lemma null_or_finite_nonneg_inv (o : option num) :
  null_or_finite_nonneg o = true ->
  exists q : Qc, COALESCE0 o = Fin q /\ (0 <= q)%Qc.
Proof.
  destruct o as [n|]; simpl.
  - apply finite_nonneg_inv.
  - intros _. exists 0%Qc. split; [reflexivity|apply Qcle_refl].
Qed.

Lemma limit_nonneg : (0 <= limit)%Qc.
Proof.
  unfold Qcle, limit. change (this (Q2Qc (pow2 511))) with (Qred (pow2 511)).
  rewrite Qred_correct. apply Qlt_le_weak. apply pow2_pos.
Qed.

Lemma null_or_within_limit_inv (o : option num) :
  null_or_within_limit o = true ->
  exists q : Qc, COALESCE0 o = Fin q /\ (0 <= q)%Qc /\ (q <= limit)%Qc.
Proof.
  destruct o as [[| | |q]|]; simpl; try discriminate.
  - intro H. apply andb_true_iff in H. destruct H as [H0 H1].
    exists q. split; [reflexivity|]. split; now apply Qc_leb_le.
  - intros _. exists 0%Qc. split; [reflexivity|].
    split; [apply Qcle_refl|apply limit_nonneg].
Qed.

Lemma Qc_plus_nonneg (a b : Qc) : (0 <= a)%Qc -> (0 <= b)%Qc -> (0 <= a + b)%Qc.
Proof.
  intros Ha Hb. rewrite <- (Qcplus_0_l 0%Qc). now apply Qcplus_le_compat.
Qed.

Lemma qsum_app (l1 l2 : list Qc) : qsum (l1 ++ l2) = (qsum l1 + qsum l2)%Qc.
Proof.
  induction l1 as [|x l1 IH]; simpl.
  - now rewrite Qcplus_0_l.
  - rewrite IH. apply Qcplus_assoc.
Qed.

Lemma nsum_finite (l : list num) :
  (forall n, In n l -> exists q, n = Fin q) ->
  nsum l = Fin (qsum (map qof l)).
Proof.
  induction l as [|x l IH]; intro H; [reflexivity|].
  simpl. rewrite IH by (intros n Hn; apply H; now right).
  destruct (H x (or_introl eq_refl)) as [q ->]. reflexivity.
Qed.

(** The product credited for a wager whose stake and odds lie between [0]
    and [2^511] is finite and not negative. *)
Lemma finite_bet_winnings (b : bet) :
  finite_bet b ->
  exists p : Qc, nmul (bet_amount b) (b_odds b) = Fin p /\ (0 <= p)%Qc.
Proof.
  intros [s [o [Hs [Ho [H1 [H2 [H3 H4]]]]]]]. rewrite Hs, Ho.
  now apply nmul_within_limit.
Qed.

Lemma staked_finite (a : Z) (d : db) :
  (forall b, In b (bets d) -> finite_bet b) ->
  staked a d = Fin (q_staked a (bets d)).
Proof.
  intro H. unfold staked, q_staked. rewrite nsum_finite.
  - now rewrite map_map.
  - intros n Hn. apply in_map_iff in Hn. destruct Hn as [b [<- Hb]].
    apply filter_In in Hb. destruct (H b (proj1 Hb)) as [s [_ [Hs _]]]. eauto.
Qed.

Lemma won_total_finite (a : Z) (d : db) :
  (forall b, In b (bets d) -> finite_bet b) ->
  won_total a d = Fin (q_won a (bets d)).
Proof.
  intro H. unfold won_total, q_won. rewrite nsum_finite.
  - now rewrite map_map.
  - intros n Hn. apply in_map_iff in Hn. destruct Hn as [b [<- Hb]].
    apply filter_In in Hb.
    destruct (finite_bet_winnings b (H b (proj1 Hb))) as [p [Hp _]]. eauto.
Qed.

(** The invariant holds in a store with no wager and sound balances. *)
Lemma Ledger_init (d0 : db) :
  bets d0 = [] -> balances_ok d0 = true -> Ledger d0 d0.
Proof.
  intros Hb Hbal. constructor.
  - reflexivity.
  - rewrite Hb. intros b [].
  - rewrite Hb. constructor.
  - rewrite Hb. intros b [].
  - intro a. destruct (balance d0 a) as [c0|] eqn:E; [|reflexivity].
    unfold balance, find_user in E.
    destruct (find (fun u => (u_id u =? a)%Z) (users d0)) as [u|] eqn:F;
      [|discriminate E].
    apply find_some in F. destruct F as [Hin _].
    unfold balances_ok in Hbal. rewrite forallb_forall in Hbal.
    destruct (null_or_finite_nonneg_inv _ (Hbal u Hin)) as [q [Hq Hq0]].
    simpl in E. injection E as <-.
    exists q, q. rewrite Hb, Hq. repeat split; [exact Hq0|].
    unfold q_staked, q_won. simpl. ring.
Qed.

(** What the invariant says of an account, in the numbers of the code. *)
Lemma Ledger_sound (d0 d : db) (a : Z) :
  Ledger d0 d -> non_negative d a /\ ledger_equation d0 d a.
Proof.
  intros [_ _ _ Hbets Hbal]. specialize (Hbal a).
  unfold non_negative, ledger_equation.
  rewrite (staked_finite a d Hbets), (won_total_finite a d Hbets).
  destruct (balance d0 a) as [c0|].
  - destruct Hbal as [q0 [q [-> [-> [Hq Heq]]]]]. split.
    + simpl. now apply Qc_leb_le.
    + simpl. rewrite Heq. reflexivity.
  - rewrite Hbal. now split.
Qed.

Lemma coins_or_0_finite (c : option num) (q : Qc) :
  COALESCE0 c = Fin q -> Bet.coins_or_0 c = Fin q.
Proof.
  destruct c as [n|]; simpl; [|trivial].
  intros ->. unfold Bet.coins_or_0. simpl.
  destruct (Qc_eq_bool q 0%Qc) eqn:E; [|reflexivity].
  apply Qc_eq_bool_correct in E. now subst.
Qed.

Lemma chosenOdds_within_limit (g : game) (selected : string) :
  null_or_within_limit (team1_odds g) && null_or_within_limit (team2_odds g)
  && null_or_within_limit (draw_odds g) = true ->
  Bet.odds_rejected (Bet.chosenOdds g selected) = false ->
  exists o : Qc,
    Number_col (Bet.chosenOdds g selected) = Fin o
    /\ (0 <= o)%Qc /\ (o <= limit)%Qc.
Proof.
  intros H Hrej. apply andb_true_iff in H. destruct H as [H H3].
  apply andb_true_iff in H. destruct H as [H1 H2].
  unfold Bet.chosenOdds in *.
  destruct (ostr_eqb (team1_name g) selected);
    [exact (null_or_within_limit_inv _ H1)|].
  destruct (ostr_eqb (team2_name g) selected);
    [exact (null_or_within_limit_inv _ H2)|].
  destruct (String.eqb selected "Draw"); [|discriminate Hrej].
  destruct (Bet.truthy_obool (has_draw g) && truthy_onum (draw_odds g));
    [|discriminate Hrej].
  exact (null_or_within_limit_inv _ H3).
Qed.

Lemma accepted_stake (amount : num) (q : Qc) :
  isNaN amount = false ->
  nle amount (Fin 0%Qc) = false ->
  nlt (Fin q) amount = false ->
  exists s : Qc, amount = Fin s /\ (0 <= s)%Qc /\ (s <= q)%Qc.
Proof.
  destruct amount as [| | |s]; simpl; try discriminate.
  intros _ Hpos Hle. exists s. split; [reflexivity|].
  split.
  - apply Qclt_le_weak. apply Qcnot_le_lt. intro L.
    apply Qc_leb_le in L. congruence.
  - now apply Qc_ltb_ge.
Qed.

Lemma q_staked_snoc (a : Z) (bs : list bet) (b : bet) :
  q_staked a (bs ++ [b])
  = (q_staked a bs + (if owned_by a b then qof (bet_amount b) else 0))%Qc.
Proof.
  unfold q_staked. rewrite filter_app, map_app, qsum_app. f_equal.
  cbn [filter]. destruct (owned_by a b); simpl; [apply Qcplus_0_r|reflexivity].
Qed.

Lemma q_won_snoc_pending (a : Z) (bs : list bet) (b : bet) :
  status b = pending -> q_won a (bs ++ [b]) = q_won a bs.
Proof.
  intro H. unfold q_won. rewrite filter_app, map_app, qsum_app.
  cbn [filter]. unfold is_won. rewrite H. cbn [status_eqb].
  rewrite andb_false_r. simpl. apply Qcplus_0_r.
Qed.

Lemma invalid_request_false (req : Bet.place_request) :
  invalid_request req = false ->
  isNaN (Number (Bet.betAmount req)) = false
  /\ nle (Number (Bet.betAmount req)) (Fin 0%Qc) = false.
Proof.
  unfold invalid_request. intro H.
  apply orb_false_iff in H. destruct H as [H H5].
  apply orb_false_iff in H. destruct H as [_ H4]. now split.
Qed.

(** A placement keeps the invariant. *)
Lemma Ledger_place (d0 d : db) (req : Bet.place_request) :
  prices_ok d0 = true -> stake_ok (OpPlace req) = true ->
  Ledger d0 d -> Ledger d0 (fst (run (Bet.place req) d)).
Proof.
  intros Hprices Hstake L. rewrite place_run.
  destruct (invalid_request req) eqn:Hval; [exact L|].
  destruct (find (fun x => (g_id x =? param_id (Bet.gameId req))%Z) (games d))
    as [g|] eqn:Hg; [|exact L].
  destruct (Bet.odds_rejected _) eqn:Hodds; [exact L|].
  destruct (find_user d (param_id (Bet.userId req))) as [u|] eqn:Hu; [|exact L].
  destruct (nlt _ _) eqn:Hlt; [exact L|].
  cbn [fst].
  destruct L as [Lg Lf Lk Lb Lbal].
  set (uid := param_id (Bet.userId req)) in *.
  cbn [stake_ok] in Hstake.
  set (amount := Number (Bet.betAmount req)) in *.
  (* the balance read by the handler *)
  pose proof (balance_of_find d uid u Hu) as Hbu.
  pose proof (Lbal uid) as Lu. rewrite Hbu in Lu.
  destruct (balance d0 uid) as [c0|] eqn:Hc0; [|discriminate Lu].
  destruct Lu as [q0 [q [Hq0 [Hq [Hq_nn Hq_eq]]]]].
  injection Hq as Hq.
  rewrite (coins_or_0_finite _ _ Hq) in Hlt.
  destruct (invalid_request_false req Hval) as [Hnan Hpos].
  destruct (accepted_stake amount q Hnan Hpos Hlt) as [s [Hs [Hs_nn Hs_le]]].
  rewrite Hs in Hstake. apply Qc_leb_le in Hstake.
  (* the price read by the handler *)
  apply find_some in Hg. destruct Hg as [Hgin _]. rewrite Lg in Hgin.
  unfold prices_ok in Hprices. rewrite forallb_forall in Hprices.
  destruct (chosenOdds_within_limit g _ (Hprices g Hgin) Hodds)
    as [o [Ho [Ho_nn Ho_le]]].
  set (v := Bet.wager_values req g).
  assert (Hnew : finite_bet (bet_of_values (bets_seq d) v)).
  { exists s, o. cbn. fold amount. now repeat split. }
  constructor.
  - exact Lg.
  - cbn [insert_bet debited bets bets_seq with_users].
    intros b Hb. apply in_app_or in Hb. destruct Hb as [Hb|[<-|[]]].
    + specialize (Lf b Hb). lia.
    + cbn. lia.
  - cbn [insert_bet debited bets with_users]. rewrite map_app.
    apply NoDup_app; [exact Lk|constructor; [intros []|constructor]|].
    intros i Hi [<-|[]]. apply in_map_iff in Hi. destruct Hi as [b [E Hb]].
    specialize (Lf b Hb). cbn in E. lia.
  - cbn [insert_bet debited bets with_users].
    intros b Hb. apply in_app_or in Hb. destruct Hb as [Hb|[<-|[]]];
      [now apply Lb|exact Hnew].
  - intro a. specialize (Lbal a).
    change (balance (insert_bet v (debited req d)) a)
      with (balance (debited req d) a).
    unfold debited. rewrite balance_debit. fold uid amount.
    cbn [insert_bet bets with_users].
    rewrite q_staked_snoc, q_won_snoc_pending by reflexivity.
    unfold owned_by. cbn [bet_of_values user_id bet_amount v Bet.wager_values].
    change (v_user_id v) with uid. change (v_bet_amount v) with amount.
    rewrite (Z.eqb_sym uid a).
    destruct (a =? uid)%Z eqn:Ea.
    + apply Z.eqb_eq in Ea. subst a. clear Lbal. rewrite Hc0.
      exists q0, (q - s)%Qc. rewrite Hbu, Hq, Hs.
      split; [exact Hq0|]. split; [reflexivity|]. split.
      * now apply Qcle_minus_iff in Hs_le.
      * cbn [qof]. rewrite Hq_eq. ring.
    + destruct (balance d0 a) as [c|]; [|exact Lbal].
      destruct Lbal as [q0' [q' [Hq0' [Hq' [Hnn' Heq']]]]].
      exists q0', q'. repeat split; try assumption.
      rewrite Heq'. ring.
Qed.

Lemma q_won_cons (a : Z) (y : bet) (l : list bet) :
  q_won a (y :: l)
  = ((if owned_by a y && is_won y then qof (nmul (bet_amount y) (b_odds y)) else 0)
     + q_won a l)%Qc.
Proof.
  unfold q_won. cbn [filter].
  destruct (owned_by a y && is_won y); simpl; [reflexivity|].
  now rewrite Qcplus_0_l.
Qed.

Lemma q_staked_status (a : Z) (s : bet_status) (id : Z) (bs : list bet) :
  q_staked a (map (status_row s id) bs) = q_staked a bs.
Proof.
  unfold q_staked. rewrite filter_map_comm, map_map.
  rewrite (filter_ext _ (owned_by a)).
  - f_equal. apply map_ext. intro b. unfold status_row.
    now destruct (b_id b =? id)%Z.
  - intro b. unfold status_row. now destruct (b_id b =? id)%Z.
Qed.

Lemma status_row_other (s : bet_status) (id : Z) (bs : list bet) :
  ~ In id (map b_id bs) -> map (status_row s id) bs = bs.
Proof.
  intro H. rewrite <- (map_id bs) at 2. apply map_ext_in. intros x Hx.
  unfold status_row. destruct (b_id x =? id)%Z eqn:E; [|reflexivity].
  apply Z.eqb_eq in E. exfalso. apply H. rewrite <- E. now apply in_map.
Qed.

Lemma q_won_settle (a : Z) (s : bet_status) (bs : list bet) (b : bet) :
  NoDup (map b_id bs) -> In b bs -> status b = pending -> s <> pending ->
  q_won a (map (status_row s (b_id b)) bs)
  = (q_won a bs
     + (if owned_by a b && status_eqb s won
        then qof (nmul (bet_amount b) (b_odds b)) else 0))%Qc.
Proof.
  intros Hnd Hin Hp Hs. induction bs as [|x bs IH]; [destruct Hin|].
  inversion Hnd as [|? ? Hnotin Hnd']; subst.
  cbn [map]. rewrite !q_won_cons. destruct Hin as [->|Hin].
  - rewrite (status_row_other s (b_id b) bs Hnotin).
    unfold status_row. rewrite Z.eqb_refl.
    unfold is_won, owned_by. cbn [set_status status user_id bet_amount b_odds].
    rewrite Hp. cbn [status_eqb]. rewrite andb_false_r.
    rewrite Qcplus_0_l. apply Qcplus_comm.
  - assert (Hne : (b_id x =? b_id b)%Z = false).
    { apply Z.eqb_neq. intro E. apply Hnotin. rewrite E. now apply in_map. }
    assert (Hx : status_row s (b_id b) x = x)
      by (unfold status_row; now rewrite Hne).
    rewrite Hx, (IH Hnd' Hin). ring.
Qed.

(** One round of the inner loop keeps the invariant, and keeps the other
    rows of the wager table as they are. *)
Lemma Ledger_settle_bet (d0 d : db) (w : option string) (b : bet) :
  Ledger d0 d -> In b (bets d) -> status b = pending ->
  Ledger d0 (fst (run (Admin.settle_bet w b) d))
  /\ (forall x, In x (bets d) -> b_id x <> b_id b ->
        In x (bets (fst (run (Admin.settle_bet w b) d)))).
Proof.
  intros [Lg Lf Lk Lb Lbal] Hin Hp. rewrite run_settle_bet. cbn [fst].
  split.
  - constructor.
    + exact Lg.
    + cbn [bets with_users with_bets bets_seq]. unfold status_step.
      intros x Hx. apply in_map_iff in Hx. destruct Hx as [y [<- Hy]].
      rewrite status_row_id. now apply Lf.
    + cbn [bets with_users with_bets]. unfold status_step.
      rewrite map_map.
      rewrite (map_ext _ b_id (fun x => status_row_id _ _ x)). exact Lk.
    + cbn [bets with_users with_bets]. unfold status_step.
      intros x Hx. apply in_map_iff in Hx. destruct Hx as [y [<- Hy]].
      destruct (Lb y Hy) as [s [o H]]. exists s, o.
      unfold status_row. now destruct (b_id y =? b_id b)%Z.
    + intro a. specialize (Lbal a).
      cbn [bets with_users with_bets]. unfold status_step.
      rewrite q_staked_status.
      assert (Hns : Admin.newStatus w b <> pending).
      { unfold Admin.newStatus. destruct (ostr_eqb w (selected_team b)); discriminate. }
      rewrite (q_won_settle a _ (bets d) b Lk Hin Hp Hns).
      destruct (finite_bet_winnings b (Lb b Hin)) as [p [Hwin Hwin_nn]].
      unfold credit_step, Admin.newStatus, Admin.winnings. rewrite Hwin.
      destruct (ostr_eqb w (selected_team b)).
      * change (balance (with_users ?us (with_bets ?bs d)) a)
          with (balance (with_users us d) a).
        rewrite balance_credit. cbn [status_eqb qof]. rewrite andb_true_r.
        unfold owned_by. rewrite (Z.eqb_sym (user_id b) a).
        destruct (a =? user_id b)%Z.
        -- destruct (balance d0 a) as [c0|]; [|now rewrite Lbal].
           destruct Lbal as [q0 [q [Hq0 [Hq [Hnn Heq]]]]].
           exists q0, (q + p)%Qc.
           rewrite Hq. split; [exact Hq0|]. split; [reflexivity|].
           split; [now apply Qc_plus_nonneg|]. rewrite Heq. ring.
        -- destruct (balance d0 a) as [c0|]; [|exact Lbal].
           destruct Lbal as [q0 [q [Hq0 [Hq [Hnn Heq]]]]].
           exists q0, q. repeat split; try assumption. rewrite Heq. ring.
      * change (balance (with_users (users d) (with_bets ?bs d)) a)
          with (balance d a).
        cbn [status_eqb]. rewrite andb_false_r.
        destruct (balance d0 a) as [c0|]; [|exact Lbal].
        destruct Lbal as [q0 [q [Hq0 [Hq [Hnn Heq]]]]].
        exists q0, q. repeat split; try assumption. rewrite Heq. ring.
  - intros x Hx Hne. cbn [bets with_users with_bets]. unfold status_step.
    apply in_map_iff. exists x. split; [|exact Hx].
    unfold status_row. apply Z.eqb_neq in Hne. now rewrite Hne.
Qed.

Lemma Ledger_settle_bets (d0 : db) (w : option string) (rows : list bet) (k : Z) (d : db) :
  Ledger d0 d ->
  (forall x, In x rows -> In x (bets d) /\ status x = pending) ->
  NoDup (map b_id rows) ->
  Ledger d0 (fst (run (Admin.settle_bets w rows k) d)).
Proof.
  revert k d. induction rows as [|b rows IH]; intros k d L Hrows Hnd; [exact L|].
  cbn [Admin.settle_bets]. rewrite run_bind.
  inversion Hnd as [|? ? Hnotin Hnd']; subst.
  destruct (Hrows b (or_introl eq_refl)) as [Hb Hp].
  destruct (Ledger_settle_bet d0 d w b L Hb Hp) as [L' Hkeep].
  apply IH; [exact L'| |exact Hnd'].
  intros x Hx. destruct (Hrows x (or_intror Hx)) as [Hxin Hxp].
  split; [|exact Hxp]. apply Hkeep; [exact Hxin|].
  intro E. apply Hnotin. rewrite <- E. now apply in_map.
Qed.

Lemma Ledger_resolve_event (d0 d : db) (ev : Admin.raw_result) (k : Z) :
  Ledger d0 d -> Ledger d0 (fst (run (Admin.resolve_event ev k) d)).
Proof.
  intro L. unfold Admin.resolve_event. cbn [bind await run exec].
  destruct (filter _ (games d)) as [|g gs]; [exact L|].
  destruct (find _ (Admin.scores ev)) as [s1|]; [|exact L].
  destruct (find _ (Admin.scores ev)) as [s2|]; [|exact L].
  destruct (isNaN (Admin.score s1) || isNaN (Admin.score s2)); [exact L|].
  cbn [bind await run exec].
  apply Ledger_settle_bets; [exact L| |].
  - intros x Hx. apply filter_In in Hx. destruct Hx as [Hx Hp].
    split; [exact Hx|]. unfold is_pending_for in Hp.
    apply andb_true_iff in Hp. destruct Hp as [Hp _].
    now destruct (status x).
  - apply NoDup_map_filter. now destruct L.
Qed.

Lemma Ledger_resolve_events (d0 : db) (evs : list Admin.raw_result) (k : Z) (d : db) :
  Ledger d0 d -> Ledger d0 (fst (run (Admin.resolve_events evs k) d)).
Proof.
  revert k d. induction evs as [|ev evs IH]; intros k d L; [exact L|].
  cbn [Admin.resolve_events]. rewrite run_bind.
  apply IH. now apply Ledger_resolve_event.
Qed.

(** Every operation keeps the invariant, whatever the module binds. *)
Lemma Ledger_step (scope : list string) (d0 d : db) (o : operation) :
  prices_ok d0 = true -> stake_ok o = true ->
  Ledger d0 d -> Ledger d0 (apply_op scope d o).
Proof.
  intros Hp Hs L. destruct o as [req|apiKey feed]; cbn [apply_op].
  - now apply Ledger_place.
  - rewrite run_auto_resolve_in.
    destruct (negb (truthy_ostr apiKey)); [exact L|].
    destruct (negb (str_mem "axios" scope)); [exact L|].
    destruct feed as [events|message]; [|exact L].
    cbv zeta. cbn [fst]. now apply Ledger_resolve_events.
Qed.

Lemma Ledger_ops (scope : list string) (d0 : db) (ops : list operation) (d : db) :
  prices_ok d0 = true -> forallb stake_ok ops = true ->
  Ledger d0 d -> Ledger d0 (apply_ops scope d ops).
Proof.
  intro Hp. revert d. induction ops as [|o ops IH]; intros d Hs L; [exact L|].
  cbn [forallb] in Hs. apply andb_true_iff in Hs. destruct Hs as [Ho Hs].
  unfold apply_ops. cbn [fold_left]. apply IH; [exact Hs|].
  now apply Ledger_step.
Qed.

Lemma forallb_firstn {A : Type} (p : A -> bool) (n : nat) (l : list A) :
  forallb p l = true -> forallb p (firstn n l) = true.
Proof.
  revert l. induction n as [|n IH]; intros [|x l] H; try reflexivity.
  cbn [firstn forallb] in *. apply andb_true_iff in H. destruct H as [H1 H2].
  rewrite H1. now apply IH.
Qed.




Example interleaved_placements_both_accepted :
  let r := interleave [true; true; false; false; true; true; false; false]
             (Bet.place Scenario.stake_80_red) (Bet.place Scenario.stake_80_red)
             Scenario.fresh in
  option_map is_ok (finished_prog (snd (fst r))) = Some true
  /\ option_map is_ok (finished_prog (snd r)) = Some true
  /\ balance (fst (fst r)) 7 = Some (ofZ (-60)).
Proof. repeat split; reflexivity. Qed.

(** ** Terminal wagers under the batch pass *)

Lemma settle_bets_keeps (w : option string) (rows : list bet) (k : Z) (d : db) (b : bet) :
  (forall x, In x rows -> b_id x <> b_id b) ->
  In b (bets d) ->
  In b (bets (fst (run (Admin.settle_bets w rows k) d))).
Proof.
  intros Hrows Hin. rewrite run_settle_bets. cbn [fst bets with_users with_bets].
  revert Hin. generalize (bets d). induction rows as [|x rows IH]; intros bs Hin;
    [exact Hin|].
  cbn [fold_left]. apply IH.
  - intros y Hy. apply Hrows. now right.
  - unfold status_step. apply in_map_iff. exists b. split; [|exact Hin].
    unfold status_row.
    assert (Hne : b_id b <> b_id x).
    { intro E. apply (Hrows x (or_introl eq_refl)). now symmetry. }
    apply Z.eqb_neq in Hne. now rewrite Hne.
Qed.

Lemma settle_bets_ids (w : option string) (rows : list bet) (k : Z) (d : db) :
  map b_id (bets (fst (run (Admin.settle_bets w rows k) d))) = map b_id (bets d).
Proof.
  rewrite run_settle_bets. cbn [fst bets with_users with_bets].
  generalize (bets d). induction rows as [|x rows IH]; intro bs; [reflexivity|].
  cbn [fold_left]. rewrite IH. unfold status_step. rewrite map_map.
  apply map_ext. intro y. apply status_row_id.
Qed.

(** The loop of the batch settlement selects pending wagers only: with
    wager ids that are a key of the table, a wager that is already won or
    lost is in the table after the loop exactly as it was before. *)
Lemma resolve_events_keep_terminal (evs : list Admin.raw_result) (k : Z) (d : db)
    (b : bet) :
  NoDup (map b_id (bets d)) -> In b (bets d) -> terminal (status b) = true ->
  In b (bets (fst (run (Admin.resolve_events evs k) d))).
Proof.
  intros Hkey Hin Ht. revert d k Hkey Hin.
  induction evs as [|ev evs IH]; intros d k Hkey Hin; [exact Hin|].
  cbn [Admin.resolve_events]. rewrite run_bind.
  assert (Hstep : In b (bets (fst (run (Admin.resolve_event ev k) d)))
                  /\ NoDup (map b_id (bets (fst (run (Admin.resolve_event ev k) d))))).
  { unfold Admin.resolve_event. cbn [bind await run exec].
    destruct (filter _ (games d)) as [|g gs]; [now split|].
    destruct (find _ (Admin.scores ev)) as [s1|]; [|now split].
    destruct (find _ (Admin.scores ev)) as [s2|]; [|now split].
    destruct (isNaN (Admin.score s1) || isNaN (Admin.score s2)); [now split|].
    cbn [bind await run exec]. split.
    - apply settle_bets_keeps; [|exact Hin].
      intros x Hx E. apply filter_In in Hx. destruct Hx as [Hx Hp].
      assert (Hxb : x = b).
      { pose proof (find_by_id_filter (fun _ => true) (bets d) b Hkey Hin) as F.
        pose proof (find_by_id_filter (fun _ => true) (bets d) x Hkey Hx) as F'.
        rewrite E in F'. rewrite F in F'. congruence. }
      subst x. unfold is_pending_for in Hp.
      destruct (status b); simpl in Hp, Ht; discriminate.
    - now rewrite settle_bets_ids. }
  destruct Hstep as [Hin' Hkey']. now apply IH.
Qed.

Lemma auto_resolve_keeps_terminal (scope : list string) (apiKey : option string)
    (feed : Admin.scores_response) (d : db) (b : bet) :
  NoDup (map b_id (bets d)) -> In b (bets d) -> terminal (status b) = true ->
  In b (bets (fst (run (Admin.auto_resolve_in scope apiKey feed) d))).
Proof.
  intros Hkey Hin Ht. rewrite run_auto_resolve_in.
  destruct (negb (truthy_ostr apiKey)); [exact Hin|].
  destruct (negb (str_mem "axios" scope)); [exact Hin|].
  destruct feed as [events|message]; [|exact Hin].
  cbv zeta. cbn [fst]. now apply resolve_events_keep_terminal.
Qed.

(** ** The remaining routes *)

Section RoutesFacts.

Variable order_by_start_time : list game -> list game.
Variable order_by_created_at : list bet -> list bet.

Abbreviation complete' := (complete order_by_start_time order_by_created_at).
Abbreviation advance' := (advance order_by_start_time order_by_created_at).

Lemma complete_lift {A : Type} (p : prog A) (d : db) :
  complete' (lift p) d = run p d.
Proof.
  revert d. induction p as [a|R q k IH]; intro d; [reflexivity|].
  cbn [lift complete perform run]. destruct (exec q d) as [d' r]. apply IH.
Qed.

Lemma complete_and_then {A B : Type} (h : handler A) (f : A -> handler B) (d : db) :
  complete' (and_then h f) d
  = complete' (f (snd (complete' h d))) (fst (complete' h d)).
Proof.
  revert d. induction h as [a|R s k IH]; intro d; [reflexivity|].
  cbn [and_then complete]. destruct (perform _ _ s d) as [d' r]. apply IH.
Qed.

Lemma advance_done {A : Type} (n : nat) (a : A) (d : db) :
  advance' n (Done a) d = (d, Done a).
Proof. destruct n; reflexivity. Qed.

Lemma ADMIN_KEY_nonempty (env : option string) : ADMIN_KEY env <> EmptyString.
Proof.
  unfold ADMIN_KEY. destruct env as [[|c s]|]; simpl; discriminate.
Qed.

(** X1.  The admin key check lets a request through exactly when its
    [x-admin-key] header is the configured key, which is never empty.  A
    request without the header, with an empty one or with another key is
    answered 403 before any statement is issued; a request with the key is
    handled as if the check were not there; and the check applied twice, as
    on the batch settlement route, is the check applied once. *)
Theorem admin_key_guard (A : Type) (env key : option string)
    (next : handler (response A)) (d : db) :
  (key <> Some (ADMIN_KEY env) ->
   forall n : nat,
     advance' n (requireAdmin env key next) d
     = (d, Done (json_error 403 "Admin access denied")))
  /\ (key = Some (ADMIN_KEY env) -> requireAdmin env key next = next)
  /\ requireAdmin env key (requireAdmin env key next) = requireAdmin env key next
  /\ ADMIN_KEY env <> EmptyString.
Proof.
  split; [|split; [|split]].
  - intros Hk n. unfold requireAdmin.
    destruct (ostr_eqb key (ADMIN_KEY env)) eqn:E.
    + apply ostr_eqb_true in E. contradiction.
    + rewrite orb_true_r. apply advance_done.
  - intros ->. unfold requireAdmin. cbn [truthy_ostr ostr_eqb].
    rewrite String.eqb_refl.
    pose proof (ADMIN_KEY_nonempty env) as H.
    destruct (ADMIN_KEY env); [contradiction|reflexivity].
  - unfold requireAdmin.
    now destruct (negb (truthy_ostr key) || negb (ostr_eqb key (ADMIN_KEY env))).
  - apply ADMIN_KEY_nonempty.
Qed.

End RoutesFacts.

Lemma admin_key_guard_witness :
  advance (fun l => l) (fun l => l) 3 (admin_add_coins (Some "s3cret"%string) (Some "guess"%string)
                (Some 7%Z) (jnum (ofZ 1000)) undefined) Scenario.fresh
  = (Scenario.fresh, Done (json_error 403 "Admin access denied"))
  /\ admin_add_coins None (Some "change-this-admin-key"%string)
       (Some 7%Z) (jnum (ofZ 1000)) undefined
     = lift (Admin.add_coins (Some 7%Z) (jnum (ofZ 1000)) undefined).
Proof.
  split.
  - refine (proj1 (admin_key_guard (fun l => l) (fun l => l) user
                     (Some "s3cret"%string) (Some "guess"%string)
                     _ Scenario.fresh) _ 3%nat).
    discriminate.
  - exact (proj1 (proj2 (admin_key_guard (fun l => l) (fun l => l) user None
                           (Some "change-this-admin-key"%string) _ Scenario.fresh))
             eq_refl).
Defined.


(** ** More on the batch settlement

    The loop of the handler (lines 61-116) is out of reach in the module as
    the file has it, where [axios] is not bound; the properties below are
    those of the handler in a module with any top-level bindings, the ones
    of the file included. *)

Lemma run_resolve_event (ev : Admin.raw_result) (k : Z) (d : db) :
  run (Admin.resolve_event ev k) d
  = match event_target (games d) ev with
    | None => (d, k)
    | Some (w, name) =>
        run (Admin.settle_bets w (filter (is_pending_for name) (bets d)) k) d
    end.
Proof.
  unfold Admin.resolve_event, event_target. cbn [bind await run exec].
  destruct (filter _ (games d)) as [|g gs]; [reflexivity|].
  destruct (find _ (Admin.scores ev)) as [s1|]; [|reflexivity].
  destruct (find _ (Admin.scores ev)) as [s2|]; [|reflexivity].
  destruct (isNaN (Admin.score s1) || isNaN (Admin.score s2)); reflexivity.
Qed.

Lemma with_same_tables (d : db) : with_users (users d) (with_bets (bets d) d) = d.
Proof. now destruct d. Qed.

Lemma run_settle_nothing (w : option string) (k : Z) (d : db) :
  run (Admin.settle_bets w [] k) d = (d, k).
Proof. reflexivity. Qed.

Lemma games_settle_bets (w : option string) (rows : list bet) (k : Z) (d : db) :
  games (fst (run (Admin.settle_bets w rows k) d)) = games d.
Proof. now rewrite run_settle_bets. Qed.

Lemma games_resolve_event (ev : Admin.raw_result) (k : Z) (d : db) :
  games (fst (run (Admin.resolve_event ev k) d)) = games d.
Proof.
  rewrite run_resolve_event. destruct (event_target (games d) ev) as [[w name]|];
    [apply games_settle_bets|reflexivity].
Qed.

Lemma games_resolve_events (evs : list Admin.raw_result) (k : Z) (d : db) :
  games (fst (run (Admin.resolve_events evs k) d)) = games d.
Proof.
  revert k d. induction evs as [|ev evs IH]; intros k d; [reflexivity|].
  cbn [Admin.resolve_events]. rewrite run_bind, IH. apply games_resolve_event.
Qed.

Lemma newStatus_terminal (w : option string) (b : bet) :
  Admin.newStatus w b <> pending.
Proof. unfold Admin.newStatus. destruct (ostr_eqb w (selected_team b)); discriminate. Qed.

Lemma status_row_not_pending (w : option string) (x : bet) (name : string) (b : bet) :
  is_pending_for name (status_row (Admin.newStatus w x) (b_id x) b) = true ->
  is_pending_for name b = true /\ b_id b <> b_id x.
Proof.
  unfold status_row. destruct (b_id b =? b_id x)%Z eqn:E.
  - unfold is_pending_for. cbn [set_status status].
    pose proof (newStatus_terminal w x) as H.
    destruct (Admin.newStatus w x); [contradiction|discriminate|discriminate].
  - intro H. split; [exact H|]. now apply Z.eqb_neq.
Qed.

(** After the loop over rows that cover the pending wagers of a market,
    none of its wagers is pending. *)
Lemma fold_status_clears (w : option string) (name : string) (rows bs : list bet) :
  (forall b, In b bs -> is_pending_for name b = true ->
             exists x, In x rows /\ b_id x = b_id b) ->
  forall b, In b (fold_left (status_step w) rows bs) -> is_pending_for name b = false.
Proof.
  revert bs. induction rows as [|x rows IH]; intros bs H b Hb.
  - cbn in Hb. destruct (is_pending_for name b) eqn:E; [|reflexivity].
    destruct (H b Hb E) as [y [[] _]].
  - cbn [fold_left] in Hb. apply (IH (status_step w bs x)); [|exact Hb].
    intros b' Hb' Hp. unfold status_step in Hb'. apply in_map_iff in Hb'.
    destruct Hb' as [b0 [<- Hb0]].
    destruct (status_row_not_pending w x name b0 Hp) as [Hp0 Hne].
    assert (E : status_row (Admin.newStatus w x) (b_id x) b0 = b0).
    { unfold status_row. apply Z.eqb_neq in Hne. now rewrite Hne. }
    rewrite E. destruct (H b0 Hb0 Hp0) as [y [[<-|Hy] Ey]].
    + congruence.
    + eauto.
Qed.

Lemma settle_bets_clears (w : option string) (name : string) (k : Z) (d : db) :
  no_pending name
    (fst (run (Admin.settle_bets w (filter (is_pending_for name) (bets d)) k) d)).
Proof.
  unfold no_pending. rewrite run_settle_bets. cbn [fst bets with_users with_bets].
  apply fold_status_clears. intros b Hb Hp. exists b. split; [|reflexivity].
  apply filter_In. now split.
Qed.

Lemma settle_bets_keeps_clear (w : option string) (name : string)
    (rows : list bet) (k : Z) (d : db) :
  no_pending name d -> no_pending name (fst (run (Admin.settle_bets w rows k) d)).
Proof.
  unfold no_pending. rewrite run_settle_bets. cbn [fst bets with_users with_bets].
  intro H. apply fold_status_clears. intros b Hb Hp.
  rewrite (H b Hb) in Hp. discriminate Hp.
Qed.

Lemma resolve_event_keeps_clear (name : string) (ev : Admin.raw_result) (k : Z) (d : db) :
  no_pending name d -> no_pending name (fst (run (Admin.resolve_event ev k) d)).
Proof.
  intro H. rewrite run_resolve_event.
  destruct (event_target (games d) ev) as [[w n]|]; [|exact H].
  now apply settle_bets_keeps_clear.
Qed.

Lemma resolve_events_keep_clear (name : string) (evs : list Admin.raw_result)
    (k : Z) (d : db) :
  no_pending name d -> no_pending name (fst (run (Admin.resolve_events evs k) d)).
Proof.
  revert k d. induction evs as [|ev evs IH]; intros k d H; [exact H|].
  cbn [Admin.resolve_events]. rewrite run_bind. apply IH.
  now apply resolve_event_keeps_clear.
Qed.

(** After a pass, no result of the pass has a pending wager left. *)
Lemma resolve_events_settle_all (evs : list Admin.raw_result) (k : Z) (d : db)
    (ev : Admin.raw_result) (w : option string) (name : string) :
  In ev evs -> event_target (games d) ev = Some (w, name) ->
  no_pending name (fst (run (Admin.resolve_events evs k) d)).
Proof.
  revert k d. induction evs as [|ev0 evs IH]; intros k d Hin Ht; [destruct Hin|].
  cbn [Admin.resolve_events]. rewrite run_bind. destruct Hin as [->|Hin].
  - apply resolve_events_keep_clear. rewrite run_resolve_event, Ht.
    apply settle_bets_clears.
  - apply IH; [exact Hin|]. now rewrite games_resolve_event.
Qed.

Lemma resolve_event_quiet (ev : Admin.raw_result) (k : Z) (d : db) :
  (forall w name, event_target (games d) ev = Some (w, name) -> no_pending name d) ->
  run (Admin.resolve_event ev k) d = (d, k).
Proof.
  intro H. rewrite run_resolve_event.
  destruct (event_target (games d) ev) as [[w name]|]; [|reflexivity].
  specialize (H w name eq_refl).
  assert (E : filter (is_pending_for name) (bets d) = []).
  { destruct (filter (is_pending_for name) (bets d)) as [|b l] eqn:F; [reflexivity|].
    assert (Hb : In b (filter (is_pending_for name) (bets d)))
      by (rewrite F; now left).
    apply filter_In in Hb. destruct Hb as [Hb Hp].
    rewrite (H b Hb) in Hp. discriminate Hp. }
  now rewrite E.
Qed.

Lemma resolve_events_quiet (evs : list Admin.raw_result) (k : Z) (d : db) :
  (forall ev w name, In ev evs -> event_target (games d) ev = Some (w, name) ->
                     no_pending name d) ->
  run (Admin.resolve_events evs k) d = (d, k).
Proof.
  revert k. induction evs as [|ev evs IH]; intros k H; [reflexivity|].
  cbn [Admin.resolve_events]. rewrite run_bind.
  rewrite resolve_event_quiet by (intros w name; apply H; now left).
  cbn [fst snd]. apply IH. intros ev' w name Hin. apply H. now right.
Qed.

(** X2.  The handler of the batch settlement is idempotent on the store,
    whatever the module binds: a second request with the same environment
    and the same response of the scores feed leaves every table as the first
    one left it; it repeats the error of the first, and where the first
    answered with a success it reports no wager resolved.  As the file has
    it, the first answer is an error. *)
Theorem batch_settlement_idempotent (scope : list string) (apiKey : option string)
    (feed : Admin.scores_response) (d : db) :
  let once := run (Admin.auto_resolve_in scope apiKey feed) d in
  let twice := run (Admin.auto_resolve_in scope apiKey feed) (fst once) in
  fst twice = fst once
  /\ match snd once with
     | json_ok (_, completedEvents) => snd twice = json_ok (0%Z, completedEvents)
     | json_error code message => snd twice = json_error code message
     end
  /\ is_ok (snd (run (Admin.auto_resolve apiKey feed) d)) = false.
Proof.
  cbv zeta. rewrite auto_resolve_run. rewrite !run_auto_resolve_in.
  destruct (negb (truthy_ostr apiKey)); [now repeat split|].
  destruct (negb (str_mem "axios" scope)); [now repeat split|].
  destruct feed as [events|message]; [|now repeat split].
  cbv zeta. cbn [fst snd].
  rewrite resolve_events_quiet; [now repeat split|].
  intros ev w name Hin Ht. rewrite games_resolve_events in Ht.
  now apply (resolve_events_settle_all _ _ _ ev w name).
Qed.

(** X3.  Results that are not flagged completed, and completed results
    whose market is not stored (it was pruned, or never synchronised),
    change nothing, whatever the module binds: the handler leaves the store
    as it is, and an answer that is a success reports no wager resolved. *)
Theorem unmatched_results_change_nothing (scope : list string)
    (apiKey : option string) (events : list Admin.raw_result) (d : db)
    (unknown : forall ev, In ev events -> Admin.completed ev = true ->
                 forall g, In g (games d) ->
                   external_id g <> Some ("odds_" ++ Admin.r_id ev)%string) :
  let r := run (Admin.auto_resolve_in scope apiKey (Admin.ScoresData events)) d in
  fst r = d
  /\ (is_ok (snd r) = true ->
      snd r = json_ok (0%Z, Z.of_nat (List.length (filter Admin.completed events)))).
Proof.
  cbv zeta. rewrite run_auto_resolve_in.
  destruct (negb (truthy_ostr apiKey)); [split; [reflexivity|discriminate]|].
  destruct (negb (str_mem "axios" scope)); [split; [reflexivity|discriminate]|].
  cbv zeta. rewrite resolve_events_quiet; [now split|].
  intros ev w name Hin Ht. exfalso.
  apply filter_In in Hin. destruct Hin as [Hin Hc].
  unfold event_target in Ht.
  destruct (filter (has_external_id ("odds_" ++ Admin.r_id ev)) (games d))
    as [|g gs] eqn:F; [discriminate Ht|].
  assert (Hg : In g (filter (has_external_id ("odds_" ++ Admin.r_id ev)) (games d)))
    by (rewrite F; now left).
  apply filter_In in Hg. destruct Hg as [Hg Hm].
  apply ostr_eqb_true in Hm. exact (unknown ev Hin Hc g Hg Hm).
Qed.

Lemma unmatched_results_change_nothing_witness :
  let d := {| users := users Scenario.placed; bets := bets Scenario.placed;
              games := [Scenario.green_white]; bets_seq := 2; games_seq := 3 |} in
  fst (run (Admin.auto_resolve (Some "key"%string)
              (Admin.ScoresData [Scenario.red_wins])) d) = d
  /\ run (Admin.auto_resolve_in ("axios"%string :: Admin.top_level) (Some "key"%string)
            (Admin.ScoresData [Scenario.red_wins])) d
     = (d, json_ok (0%Z, 1%Z)).
Proof.
  cbv zeta.
  assert (unknown : forall ev, In ev [Scenario.red_wins] -> Admin.completed ev = true ->
                      forall g, In g [Scenario.green_white] ->
                        external_id g <> Some ("odds_" ++ Admin.r_id ev)%string).
  { intros ev [<-|[]] _ g [<-|[]]. discriminate. }
  split.
  - exact (proj1 (unmatched_results_change_nothing Admin.top_level (Some "key"%string)
                    [Scenario.red_wins]
                    {| users := users Scenario.placed; bets := bets Scenario.placed;
                       games := [Scenario.green_white]; bets_seq := 2; games_seq := 3 |}
                    unknown)).
  - destruct (unmatched_results_change_nothing ("axios"%string :: Admin.top_level)
                (Some "key"%string) [Scenario.red_wins]
                {| users := users Scenario.placed; bets := bets Scenario.placed;
                   games := [Scenario.green_white]; bets_seq := 2; games_seq := 3 |}
                unknown) as [H1 H2].
    cbv zeta in H1, H2. specialize (H2 eq_refl).
    destruct (run _ _) as [d' r]. cbn [fst snd] in H1, H2. now subst.
Defined.

(** The wager table after the loop over the pending wagers of a market,
    when ids are a key. *)
Lemma settle_bets_table (w : option string) (name : string) (k : Z) (d : db) :
  NoDup (map b_id (bets d)) ->
  bets (fst (run (Admin.settle_bets w (filter (is_pending_for name) (bets d)) k) d))
  = map (fun b => if is_pending_for name b
                  then set_status (Admin.newStatus w b) b else b) (bets d).
Proof.
  intro Hkey. rewrite run_settle_bets. cbn [fst bets with_users with_bets].
  rewrite fold_status_step by now apply NoDup_map_filter.
  apply map_ext_in. intros b Hb.
  rewrite (find_by_id_filter _ _ _ Hkey Hb).
  now destruct (is_pending_for name b).
Qed.

Lemma count_after_settle (w : option string) (name : string) (bs : list bet) :
  (List.length (filter (fun b => status_eqb (status b) pending)
                  (map (fun b => if is_pending_for name b
                                 then set_status (Admin.newStatus w b) b else b) bs))
   + List.length (filter (is_pending_for name) bs))%nat
  = List.length (filter (fun b => status_eqb (status b) pending) bs).
Proof.
  induction bs as [|b bs IH]; [reflexivity|].
  cbn [map filter].
  assert (E : is_pending_for name b
              = status_eqb (status b) pending && String.eqb (b_game_name b) name)
    by reflexivity.
  rewrite E. clear E.
  destruct (status_eqb (status b) pending) eqn:Ep; cbn [andb].
  - destruct (String.eqb (b_game_name b) name); cbn [set_status status].
    + pose proof (newStatus_terminal w b) as Hn.
      destruct (Admin.newStatus w b); [contradiction| |];
        cbn [status_eqb List.length]; lia.
    + rewrite Ep. cbn [List.length]. lia.
  - rewrite Ep. exact IH.
Qed.

Lemma resolve_event_count (ev : Admin.raw_result) (k : Z) (d : db) :
  NoDup (map b_id (bets d)) ->
  let r := run (Admin.resolve_event ev k) d in
  NoDup (map b_id (bets (fst r)))
  /\ (snd r + count_pending (fst r) = k + count_pending d)%Z.
Proof.
  intro Hkey. cbv zeta. rewrite run_resolve_event.
  destruct (event_target (games d) ev) as [[w name]|]; [|now split].
  split.
  - now rewrite settle_bets_ids.
  - unfold count_pending. rewrite (settle_bets_table w name k d Hkey).
    rewrite run_settle_bets. cbn [snd].
    pose proof (count_after_settle w name (bets d)) as H. lia.
Qed.

Lemma resolve_events_count (evs : list Admin.raw_result) (k : Z) (d : db) :
  NoDup (map b_id (bets d)) ->
  let r := run (Admin.resolve_events evs k) d in
  (snd r + count_pending (fst r) = k + count_pending d)%Z.
Proof.
  revert k d. induction evs as [|ev evs IH]; intros k d Hkey; [reflexivity|].
  cbv zeta. cbn [Admin.resolve_events]. rewrite run_bind.
  destruct (resolve_event_count ev k d Hkey) as [Hkey' Hc].
  cbv zeta in Hc.
  specialize (IH (snd (run (Admin.resolve_event ev k) d)) _ Hkey').
  cbv zeta in IH. lia.
Qed.

(** X4.  With wager ids that are a key of the table and whatever the
    module binds, an answer of the batch settlement that is a success
    carries as [resolved] the number of wagers that left the pending status
    during the request and as [completedEvents] the number of results
    flagged completed; an answer that is an error goes with an unchanged
    store. *)
Theorem resolved_counts_settled_wagers (scope : list string) (apiKey : option string)
    (feed : Admin.scores_response) (d : db)
    (Hkey : NoDup (map b_id (bets d))) :
  let r := run (Admin.auto_resolve_in scope apiKey feed) d in
  match snd r with
  | json_ok (resolved, completedEvents) =>
      resolved = (count_pending d - count_pending (fst r))%Z
      /\ exists events : list Admin.raw_result,
           feed = Admin.ScoresData events
           /\ completedEvents = Z.of_nat (List.length (filter Admin.completed events))
  | json_error _ _ => fst r = d
  end.
Proof.
  cbv zeta. rewrite run_auto_resolve_in.
  destruct (negb (truthy_ostr apiKey)); [reflexivity|].
  destruct (negb (str_mem "axios" scope)); [reflexivity|].
  destruct feed as [events|message]; [|reflexivity].
  cbv zeta. cbn [fst snd].
  pose proof (resolve_events_count (filter Admin.completed events) 0 d Hkey) as H.
  cbv zeta in H. split; [lia|]. now exists events.
Qed.

Lemma resolved_counts_settled_wagers_witness :
  NoDup (map b_id (bets Scenario.placed))
  /\ fst (run (Admin.auto_resolve (Some "key"%string)
                 (Admin.ScoresData [Scenario.red_wins])) Scenario.placed)
     = Scenario.placed
  /\ match snd (run (Admin.auto_resolve_in ("axios"%string :: Admin.top_level)
                      (Some "key"%string) (Admin.ScoresData [Scenario.red_wins]))
                  Scenario.placed) with
     | json_ok (resolved, _) => resolved = 1%Z
     | json_error _ _ => False
     end.
Proof.
  assert (Hkey : NoDup (map b_id (bets Scenario.placed))).
  { simpl. constructor; [intros []|constructor]. }
  split; [exact Hkey|]. split.
  - exact (resolved_counts_settled_wagers Admin.top_level (Some "key"%string)
             (Admin.ScoresData [Scenario.red_wins]) Scenario.placed Hkey).
  - pose proof (resolved_counts_settled_wagers ("axios"%string :: Admin.top_level)
                  (Some "key"%string) (Admin.ScoresData [Scenario.red_wins])
                  Scenario.placed Hkey) as H.
    cbv zeta in H.
    destruct (snd (run (Admin.auto_resolve_in ("axios"%string :: Admin.top_level)
                          (Some "key"%string) (Admin.ScoresData [Scenario.red_wins]))
                     Scenario.placed)) as [[resolved c]|code e] eqn:E.
    + destruct H as [H _]. rewrite H. reflexivity.
    + discriminate E.
Defined.

(** ** More on the single-wager resolution *)

Lemma run_resolve_bet_store (betId : option Z) (result : string) (d : db) :
  fst (run (Admin.resolve_bet betId result) d)
  = if negb (truthy_id betId)
       || (negb (String.eqb result "won") && negb (String.eqb result "lost"))
    then d
    else match find_bet d (param_id betId) with
         | None => d
         | Some b =>
             with_bets (map (status_row (Admin.status_of_result result) (param_id betId))
                          (bets d))
               (if String.eqb result "won"
                then with_users (map (credit_row (Admin.winnings b) (user_id b))
                                   (users d)) d
                else d)
         end.
Proof.
  unfold Admin.resolve_bet, find_bet.
  destruct (negb (truthy_id betId) || _); [reflexivity|].
  cbn [bind await run exec]. rewrite <- hd_filter_find.
  destruct (filter (fun b => (b_id b =? param_id betId)%Z) (bets d)) as [|b bs];
    [reflexivity|].
  cbn [hd_error]. destruct (String.eqb result "won"); reflexivity.
Qed.

Lemma status_row_other_id (s : bet_status) (id : Z) (b : bet) :
  b_id b <> id -> status_row s id b = b.
Proof. intro H. unfold status_row. apply Z.eqb_neq in H. now rewrite H. Qed.

Lemma credit_row_other_id (inc : num) (id : Z) (u : user) :
  u_id u <> id -> credit_row inc id u = u.
Proof. intro H. unfold credit_row. apply Z.eqb_neq in H. now rewrite H. Qed.

(** X5.  The single-wager resolution is local.  It never changes the games
    table, a wager with another id, or the row of an account other than the
    owner of the wager it resolves; it credits nobody unless the result is
    ['won']; and a request that is rejected (no wager id, a result other
    than ['won'] or ['lost'], no wager with that id) writes nothing. *)
Theorem resolve_bet_is_local (betId : option Z) (result : string) (d : db) :
  let d' := fst (run (Admin.resolve_bet betId result) d) in
  games d' = games d
  /\ (forall i, i <> param_id betId -> find_bet d' i = find_bet d i)
  /\ (forall b a, find_bet d (param_id betId) = Some b -> a <> user_id b ->
                  find_user d' a = find_user d a)
  /\ (result <> "won"%string -> users d' = users d)
  /\ (is_ok (snd (run (Admin.resolve_bet betId result) d)) = false -> d' = d).
Proof.
  cbv zeta. rewrite run_resolve_bet_store.
  assert (Hok : is_ok (snd (run (Admin.resolve_bet betId result) d)) = false ->
                negb (truthy_id betId)
                || (negb (String.eqb result "won") && negb (String.eqb result "lost"))
                = true
                \/ find_bet d (param_id betId) = None).
  { unfold Admin.resolve_bet, find_bet.
    destruct (negb (truthy_id betId) || _); [now left|].
    cbn [bind await run exec]. rewrite <- hd_filter_find.
    destruct (filter (fun b => (b_id b =? param_id betId)%Z) (bets d)) as [|b bs];
      [now right|].
    destruct (String.eqb result "won"); cbn [bind await run exec snd is_ok];
      discriminate. }
  destruct (negb (truthy_id betId) || _) eqn:Hv;
    [now repeat split|].
  destruct (find_bet d (param_id betId)) as [b|] eqn:Hb;
    [|now repeat split].
  split; [|split; [|split; [|split]]].
  - now destruct (String.eqb result "won").
  - intros i Hi. unfold find_bet. cbn [bets with_bets].
    rewrite find_bet_status.
    destruct (find (fun x => (b_id x =? i)%Z) (bets d)) as [x|] eqn:F;
      [|reflexivity].
    cbn [option_map]. f_equal. apply status_row_other_id.
    apply find_some in F. destruct F as [_ F]. apply Z.eqb_eq in F. congruence.
  - intros b' a Hb' Ha. injection Hb' as <-.
    unfold find_user. cbn [users with_bets].
    destruct (String.eqb result "won"); [|reflexivity].
    cbn [users with_users]. rewrite find_user_credit.
    destruct (find (fun u => (u_id u =? a)%Z) (users d)) as [u|] eqn:F;
      [|reflexivity].
    cbn [option_map]. f_equal. apply credit_row_other_id.
    apply find_some in F. destruct F as [_ F]. apply Z.eqb_eq in F. congruence.
  - intro Hr. apply String.eqb_neq in Hr. now rewrite Hr.
  - intro H. destruct (Hok H) as [H1|H1]; discriminate H1.
Qed.

Lemma resolve_bet_is_local_witness :
  find_bet Scenario.placed 1 = Some (Scenario.stake_on_red pending)
  /\ "lost"%string <> "won"%string
  /\ users (fst (run (Admin.resolve_bet (Some 1%Z) "lost") Scenario.placed))
     = users Scenario.placed
  /\ fst (run (Admin.resolve_bet (Some 9%Z) "won") Scenario.placed) = Scenario.placed.
Proof.
  split; [reflexivity|]. split; [discriminate|]. split.
  - refine (proj1 (proj2 (proj2 (proj2
             (resolve_bet_is_local (Some 1%Z) "lost" Scenario.placed)))) _).
    discriminate.
  - exact (proj2 (proj2 (proj2 (proj2
             (resolve_bet_is_local (Some 9%Z) "won" Scenario.placed)))) eq_refl).
Defined.

(** X6.  The two settlement paths agree on the store they leave.  For the
    wager [b] that a select by its id returns, resolving it by hand with the
    outcome the batch loop computes for a winning label [w] (['won'] when
    [w] is the selected side, ['lost'] otherwise) leaves the same store as
    the body of the batch loop, although the two issue their writes in
    opposite orders. *)
Theorem resolve_bet_agrees_with_batch (d : db) (b : bet) (w : option string)
    (Hb : find_bet d (b_id b) = Some b)
    (Hid : b_id b <> 0%Z) :
  fst (run (Admin.resolve_bet (Some (b_id b))
              (if ostr_eqb w (selected_team b) then "won" else "lost")) d)
  = fst (run (Admin.settle_bet w b) d).
Proof.
  rewrite run_resolve_bet_store, run_settle_bet. cbn [fst truthy_id param_id].
  apply Z.eqb_neq in Hid. rewrite Hid. rewrite Hb.
  unfold credit_step, status_step, Admin.newStatus.
  destruct (ostr_eqb w (selected_team b)); reflexivity.
Qed.

Lemma resolve_bet_agrees_with_batch_witness :
  fst (run (Admin.resolve_bet (Some 1%Z) "won") Scenario.placed)
  = fst (run (Admin.settle_bet (Some "Red"%string) (Scenario.stake_on_red pending))
           Scenario.placed).
Proof.
  refine (resolve_bet_agrees_with_batch Scenario.placed
            (Scenario.stake_on_red pending) (Some "Red"%string) eq_refl _).
  discriminate.
Defined.

(** ** A placement followed by its settlement *)

Lemma balance_users (d d' : db) (a : Z) :
  users d = users d' -> balance d a = balance d' a.
Proof. unfold balance, find_user. now intros ->. Qed.

Lemma status_of_bets (d d' : db) (i : Z) :
  bets d = bets d' -> status_of d i = status_of d' i.
Proof. unfold status_of, find_bet. now intros ->. Qed.

Lemma find_snoc_fresh (bs : list bet) (b : bet) :
  (forall x, In x bs -> b_id x <> b_id b) ->
  find (fun x => (b_id x =? b_id b)%Z) (bs ++ [b]) = Some b.
Proof.
  intro H. induction bs as [|x bs IH]; cbn [app find].
  - now rewrite Z.eqb_refl.
  - assert (Hx : (b_id x =? b_id b)%Z = false)
      by (apply Z.eqb_neq, H; now left).
    rewrite Hx. apply IH. intros y Hy. apply H. now right.
Qed.

Lemma filter_none {A : Type} (p : A -> bool) (l : list A) :
  (forall x, In x l -> p x = false) -> filter p l = [].
Proof.
  induction l as [|x l IH]; intro H; [reflexivity|].
  cbn [filter]. rewrite (H x (or_introl eq_refl)). apply IH.
  intros y Hy. apply H. now right.
Qed.



(** ** More on the reconciliation *)

Lemma run_sync_events_counters (events : list Bet.raw_event) (st : Bet.sync_state) (d : db) :
  let st' := snd (run (Bet.sync_events events st) d) in
  Bet.upserted st'
  = (Bet.upserted st + Z.of_nat (List.length (priced_rows events)))%Z
  /\ (Bet.upserted st' + Bet.skippedNoOdds st'
      = Bet.upserted st + Bet.skippedNoOdds st + Z.of_nat (List.length events))%Z.
Proof.
  revert st d. induction events as [|ev events IH]; intros st d.
  - cbn. lia.
  - cbv zeta. cbn [Bet.sync_events]. rewrite run_bind.
    unfold priced_rows. cbn [flat_map]. fold (priced_rows events).
    unfold Bet.sync_event.
    destruct (Bet.priced ev) as [v|]; cbn [bind await run exec fst snd].
    + destruct (IH {| Bet.upserted := (Bet.upserted st + 1)%Z;
                      Bet.skippedNoOdds := Bet.skippedNoOdds st;
                      Bet.activeExternalIds := Bet.activeExternalIds st ++ [v_external_id v] |}
                   (upsert_game v d)) as [H1 H2].
      cbv zeta in H1, H2. cbn [Bet.upserted Bet.skippedNoOdds] in H1, H2.
      rewrite H1. cbn [app List.length]. lia.
    + destruct (IH {| Bet.upserted := Bet.upserted st;
                      Bet.skippedNoOdds := (Bet.skippedNoOdds st + 1)%Z;
                      Bet.activeExternalIds := Bet.activeExternalIds st |} d)
        as [H1 H2].
      cbv zeta in H1, H2. cbn [Bet.upserted Bet.skippedNoOdds] in H1, H2.
      rewrite H1. cbn [app List.length]. lia.
Qed.

(** X8.  The figures a reconciliation pass returns add up: every fetched
    event is either upserted or counted as skipped for missing odds, the
    events counted as active are the upserted ones, and the upserted ones
    are those with a price for both sides. *)
Theorem sync_figures_add_up (events : list Bet.raw_event) (d : db) :
  let r := snd (run (Bet.syncEflCupOddsToDB events) d) in
  Bet.fetched r = Z.of_nat (List.length events)
  /\ (Bet.res_upserted r + Bet.res_skippedNoOdds r = Bet.fetched r)%Z
  /\ Bet.activeNow r = Bet.res_upserted r
  /\ Bet.res_upserted r = Z.of_nat (List.length (priced_rows events)).
Proof.
  cbv zeta. unfold Bet.syncEflCupOddsToDB. rewrite run_bind, run_bind.
  cbn [run snd Bet.fetched Bet.res_upserted Bet.res_skippedNoOdds Bet.activeNow].
  set (st0 := {| Bet.upserted := 0; Bet.skippedNoOdds := 0;
                 Bet.activeExternalIds := [] |}).
  destruct (run_sync_events events st0 d) as [_ Ha].
  destruct (run_sync_events_counters events st0 d) as [Hu Hs].
  cbv zeta in Hu, Hs. cbn [st0 Bet.upserted Bet.skippedNoOdds Bet.activeExternalIds app]
    in Ha, Hu, Hs.
  rewrite Ha, Hu, length_map. repeat split; lia.
Qed.

Lemma priced_external_id (ev : Bet.raw_event) (v : game_values) :
  Bet.priced ev = Some v -> v_external_id v = ("odds_" ++ Bet.ev_id ev)%string.
Proof.
  unfold Bet.priced.
  destruct (Bet.bestHome (Bet.best_prices ev)) as [h|]; [|discriminate].
  destruct (Bet.bestAway (Bet.best_prices ev)) as [a|]; [|discriminate].
  destruct (negb (truthy_num h) || negb (truthy_num a)); [discriminate|].
  now intros [= <-].
Qed.

Lemma priced_rows_external_id (events : list Bet.raw_event) (v : game_values) :
  In v (priced_rows events) ->
  exists ev, In ev events /\ Bet.priced ev = Some v.
Proof.
  unfold priced_rows. intro H. apply in_flat_map in H.
  destruct H as [ev [Hev Hv]]. exists ev. split; [exact Hev|].
  destruct (Bet.priced ev) as [w|]; [|destruct Hv].
  destruct Hv as [->|[]]. reflexivity.
Qed.

Lemma not_from_feed_untouched (events : list Bet.raw_event) (g : game) :
  from_feed g = false ->
  refresh (priced_rows events) g = g
  /\ finished (map v_external_id (priced_rows events)) g = false.
Proof.
  intro Hf. split.
  - apply refresh_untouched. intros v Hv.
    destruct (has_external_id (v_external_id v) g) eqn:E; [|reflexivity].
    apply ostr_eqb_true in E.
    destruct (priced_rows_external_id events v Hv) as [ev [_ Hp]].
    rewrite (priced_external_id ev v Hp) in E.
    unfold from_feed in Hf. rewrite E in Hf. discriminate Hf.
  - unfold finished. unfold from_feed in Hf.
    destruct (external_id g) as [e|]; [|reflexivity].
    rewrite Hf. now rewrite andb_false_r.
Qed.

Lemma upserts_bets_seq (vs : list game_values) (d : db) :
  bets_seq (upserts vs d) = bets_seq d.
Proof.
  revert d. induction vs as [|v vs IH]; intro d; [reflexivity|].
  unfold upserts. cbn [fold_left]. fold (upserts vs (upsert_game v d)).
  now rewrite IH.
Qed.

(** X9.  A reconciliation pass touches nothing but the feed's own rows of
    the games table.  The users and the wagers are as before, and a game
    whose external id is [NULL] or does not match [LIKE 'odds_%'] (a game
    inserted by hand) is still in the table, unchanged. *)
Theorem reconciliation_spares_foreign_rows (events : list Bet.raw_event) (d : db) :
  let d' := fst (run (Bet.syncEflCupOddsToDB events) d) in
  users d' = users d
  /\ bets d' = bets d
  /\ bets_seq d' = bets_seq d
  /\ forall g, In g (games d) -> from_feed g = false -> In g (games d').
Proof.
  cbv zeta. rewrite run_sync.
  destruct (priced_rows events) as [|v0 vs0] eqn:Ev; [now repeat split|].
  rewrite <- Ev.
  assert (Hne : priced_rows events <> []) by (rewrite Ev; discriminate).
  clear Ev v0 vs0.
  destruct (upserts_ledger (priced_rows events) d) as [Hu Hb].
  split; [exact Hu|]. split; [exact Hb|]. split.
  - unfold delete_finished. cbn [bets_seq]. apply upserts_bets_seq.
  - intros g Hg Hf.
    destruct (sync_games events d Hne) as [news [Hgames _]].
    rewrite run_sync in Hgames.
    destruct (priced_rows events) as [|v0 vs0] eqn:Ev; [congruence|].
    rewrite <- Ev in *. rewrite Hgames. apply in_or_app. left.
    destruct (not_from_feed_untouched events g Hf) as [Hr Hfin].
    rewrite <- Hr. apply in_map. apply filter_In. split; [exact Hg|].
    now rewrite Hfin.
Qed.

Lemma reconciliation_spares_foreign_rows_witness :
  In Extras.chess (games Extras.with_chess)
  /\ from_feed Extras.chess = false
  /\ In Extras.chess
       (games (fst (run (Bet.syncEflCupOddsToDB [Scenario.quoted]) Extras.with_chess))).
Proof.
  assert (H1 : In Extras.chess (games Extras.with_chess))
    by (right; right; now left).
  split; [exact H1|]. split; [reflexivity|].
  exact (proj2 (proj2 (proj2 (reconciliation_spares_foreign_rows
                                [Scenario.quoted] Extras.with_chess)))
           Extras.chess H1 eq_refl).
Defined.

Lemma refresh_app (l1 l2 : list game_values) (g : game) :
  refresh (l1 ++ l2) g = refresh l2 (refresh l1 g).
Proof. unfold refresh. now rewrite fold_left_app. Qed.

Lemma priced_rows_app (l1 l2 : list Bet.raw_event) :
  priced_rows (l1 ++ l2) = priced_rows l1 ++ priced_rows l2.
Proof. unfold priced_rows. apply flat_map_app. Qed.

Lemma odds_prefix_injective (a b : string) :
  ("odds_" ++ a)%string = ("odds_" ++ b)%string -> a = b.
Proof. cbn. now intros [= ->]. Qed.

(** X10.  Upsert, then look up.  After a reconciliation pass, the market
    of every event that was priced, looked up by its external id as the
    settlement does, is there, and every column but [id] holds what the last
    event of the snapshot with that id gave: names, start time and the best
    prices.  A stake on its home side is then taken at the best home price
    of that event. *)
Theorem reconciled_market_lookup
    (pre post : list Bet.raw_event) (ev : Bet.raw_event) (v : game_values) (d : db)
    (Hpriced : Bet.priced ev = Some v)
    (Hlast : forall ev', In ev' post -> Bet.ev_id ev' <> Bet.ev_id ev) :
  let d' := fst (run (Bet.syncEflCupOddsToDB (pre ++ ev :: post)) d) in
  let rows := snd (exec (SelectGameByExternalId ("odds_" ++ Bet.ev_id ev)) d') in
  rows <> []
  /\ forall g, In g rows ->
       g = game_of_values (g_id g) v
       /\ Bet.chosenOdds g (Bet.home_team ev) = Bet.bestHome (Bet.best_prices ev).
Proof.
  intros d' rows. subst rows d'. cbn [exec snd].
  set (events := pre ++ ev :: post).
  set (vs := priced_rows events).
  assert (Hvs : vs = priced_rows pre ++ v :: priced_rows post).
  { unfold vs, events. rewrite priced_rows_app. f_equal.
    unfold priced_rows at 1. cbn [flat_map]. now rewrite Hpriced. }
  assert (Hin : In v vs) by (rewrite Hvs; apply in_or_app; right; now left).
  pose proof (priced_external_id ev v Hpriced) as Hext.
  assert (Hgames : games (fst (run (Bet.syncEflCupOddsToDB events) d))
                   = filter (fun g => negb (finished (map v_external_id vs) g))
                       (games (upserts vs d))).
  { rewrite run_sync. fold vs. destruct vs as [|v0 vs0]; [destruct Hin|reflexivity]. }
  rewrite Hgames, <- Hext. split.
  - pose proof (upserts_present vs d v Hin) as Hp.
    apply existsb_exists in Hp. destruct Hp as [g [Hg Hm]].
    assert (Hrow : In g (filter (has_external_id (v_external_id v))
                           (filter (fun g => negb (finished (map v_external_id vs) g))
                              (games (upserts vs d))))).
    { apply filter_In. split; [|exact Hm]. apply filter_In. split; [exact Hg|].
      apply ostr_eqb_true in Hm.
      rewrite (finished_active _ g _ Hm); [reflexivity|now apply in_map]. }
    intro E. rewrite E in Hrow. destruct Hrow.
  - intros g Hg. apply filter_In in Hg. destruct Hg as [Hg Hm].
    apply filter_In in Hg. destruct Hg as [Hg _].
    apply ostr_eqb_true in Hm.
    pose proof (upserts_settled vs d g Hg) as Hs.
    assert (Hrow : g = game_of_values (g_id g) v).
    { rewrite <- Hs at 1. rewrite Hvs.
      change (priced_rows pre ++ v :: priced_rows post)
        with (priced_rows pre ++ [v] ++ priced_rows post).
      rewrite !refresh_app.
      assert (Hv : refresh [v] (refresh (priced_rows pre) g)
                   = game_of_values (g_id g) v).
      { unfold refresh at 1. cbn [fold_left].
        rewrite overwrite_row_hit
          by now rewrite (proj2 (refresh_id_ext (priced_rows pre) g)).
        now rewrite (proj1 (refresh_id_ext (priced_rows pre) g)). }
      rewrite Hv. apply refresh_untouched. intros w Hw.
      unfold has_external_id. cbn [game_of_values external_id ostr_eqb].
      apply String.eqb_neq. intro E.
      destruct (priced_rows_external_id post w Hw) as [ev' [Hev' Hp']].
      rewrite (priced_external_id ev' w Hp'), Hext in E.
      apply odds_prefix_injective in E. symmetry in E.
      exact (Hlast ev' Hev' E). }
    split; [exact Hrow|].
    rewrite Hrow. unfold Bet.chosenOdds. cbn [game_of_values team1_name team1_odds].
    unfold Bet.priced in Hpriced.
    destruct (Bet.bestHome (Bet.best_prices ev)) as [h|]; [|discriminate Hpriced].
    destruct (Bet.bestAway (Bet.best_prices ev)) as [a|]; [|discriminate Hpriced].
    destruct (negb (truthy_num h) || negb (truthy_num a)); [discriminate Hpriced|].
    injection Hpriced as <-. cbn. now rewrite String.eqb_refl.
Qed.

Lemma reconciled_market_lookup_witness :
  Bet.priced Scenario.quoted
  = Some (Bet.values_of_event Scenario.quoted (ofQ (21 # 10)) (ofQ (18 # 10))
            (Some (ofQ (31 # 10))))
  /\ forall g,
       In g (snd (exec (SelectGameByExternalId ("odds_" ++ Bet.ev_id Scenario.quoted))
                    (fst (run (Bet.syncEflCupOddsToDB
                                 ([] ++ Scenario.quoted
                                     :: [Scenario.green_white_half_quoted]))
                            Scenario.two_markets)))) ->
       Bet.chosenOdds g (Bet.home_team Scenario.quoted)
       = Bet.bestHome (Bet.best_prices Scenario.quoted).
Proof.
  assert (Hp : Bet.priced Scenario.quoted
               = Some (Bet.values_of_event Scenario.quoted (ofQ (21 # 10))
                         (ofQ (18 # 10)) (Some (ofQ (31 # 10)))))
    by reflexivity.
  split; [exact Hp|].
  intros g Hg.
  refine (proj2 (proj2 (reconciled_market_lookup [] [Scenario.green_white_half_quoted]
                          Scenario.quoted _ Scenario.two_markets Hp _) g Hg)).
  intros ev' [<-|[]]. discriminate.
Defined.

(** The ledger tables and the wager counter under a reconciliation pass. *)
Lemma sync_ledger (events : list Bet.raw_event) (d : db) :
  let d' := fst (run (Bet.syncEflCupOddsToDB events) d) in
  users d' = users d /\ bets d' = bets d /\ bets_seq d' = bets_seq d.
Proof.
  cbv zeta. rewrite run_sync.
  destruct (priced_rows events) as [|v vs]; [now repeat split|].
  unfold delete_finished. cbn [users bets bets_seq].
  destruct (upserts_ledger (v :: vs) d) as [Hu Hb].
  now rewrite Hu, Hb, upserts_bets_seq.
Qed.

(** ** The listing behind its cooldown, and the reads *)

Section Listing.

Variable order_by_start_time : list game -> list game.
Variable order_by_created_at : list bet -> list bet.

Abbreviation complete2 := (complete order_by_start_time order_by_created_at).
Abbreviation serve2 := (serve order_by_start_time order_by_created_at).
Abbreviation serve_all2 := (serve_all order_by_start_time order_by_created_at).

Lemma complete2_lift {A : Type} (p : prog A) (d : db) :
  complete2 (lift p) d = run p d.
Proof. apply complete_lift. Qed.

(** The listing run to completion, branch by branch. *)
Lemma complete_get_games (now1 now2 : Z) (feed : feed_response) (last : Z) (d : db) :
  complete2 (get_games now1 now2 feed last) d
  = if (450000 <? now1 - last)%Z then
      match feed with
      | FeedData events =>
          let r := run (Bet.syncEflCupOddsToDB events) d in
          (fst r, (now2, json_ok (sync_done (snd r),
                                  order_by_start_time (filter from_feed (games (fst r))))))
      | FeedError e =>
          (d, (last, json_ok (sync_failed e,
                              order_by_start_time (filter from_feed (games d)))))
      end
    else (d, (last, json_ok (sync_skipped,
                             order_by_start_time (filter from_feed (games d))))).
Proof.
  unfold get_games. rewrite complete_and_then.
  change ODDS_SYNC_COOLDOWN_MS with 450000%Z.
  destruct (450000 <? now1 - last)%Z; [|reflexivity].
  destruct feed as [events|e]; [|reflexivity].
  rewrite complete_and_then, complete_lift. reflexivity.
Qed.

(** X11.  The cooldown of the listing is 450 seconds ([15 * 30 * 1000]
    milliseconds).  A listing request that arrives no later than that after
    the last synchronisation asks the feed nothing, writes nothing and
    leaves [lastOddsSyncAt] alone, and so does any run of such requests.  A
    request that finds the feed failing writes nothing and leaves
    [lastOddsSyncAt] alone as well, so that the next request asks again.  A
    request that synchronises sets [lastOddsSyncAt] to the second reading of
    the clock.  In each case the games of the feed are listed from the store
    as it then is. *)
Theorem listing_cooldown (s : server) (env : option string) :
  (forall rs : list request,
      forallb (within_cooldown (lastOddsSyncAt s)) rs = true ->
      serve_all2 env s rs = s)
  /\ (forall now1 now2 feed,
        (now1 - lastOddsSyncAt s <= 450000)%Z ->
        complete2 (get_games now1 now2 feed (lastOddsSyncAt s)) (store s)
        = (store s, (lastOddsSyncAt s,
                     json_ok (sync_skipped,
                              order_by_start_time (filter from_feed (games (store s)))))))
  /\ (forall now1 now2 e,
        (450000 < now1 - lastOddsSyncAt s)%Z ->
        complete2 (get_games now1 now2 (FeedError e) (lastOddsSyncAt s)) (store s)
        = (store s, (lastOddsSyncAt s,
                     json_ok (sync_failed e,
                              order_by_start_time (filter from_feed (games (store s)))))))
  /\ (forall now1 now2 events,
        (450000 < now1 - lastOddsSyncAt s)%Z ->
        let r := run (Bet.syncEflCupOddsToDB events) (store s) in
        serve2 env s (GetGames now1 now2 (FeedData events))
        = {| store := fst r; lastOddsSyncAt := now2 |}).
Proof.
  split; [|split; [|split]].
  - intros rs. unfold serve_all. induction rs as [|r rs IH]; intro H; [reflexivity|].
    cbn [forallb] in H. apply andb_true_iff in H. destruct H as [Hr Hrs].
    cbn [fold_left].
    assert (E : serve2 env s r = s).
    { destruct r; try discriminate Hr. cbn [within_cooldown] in Hr.
      apply Z.leb_le in Hr. cbn [serve]. rewrite complete_get_games.
      replace (450000 <? now1 - lastOddsSyncAt s)%Z with false
        by (symmetry; apply Z.ltb_ge; lia).
      cbn [fst snd]. now destruct s. }
    rewrite E. now apply IH.
  - intros now1 now2 feed H. rewrite complete_get_games.
    replace (450000 <? now1 - lastOddsSyncAt s)%Z with false
      by (symmetry; apply Z.ltb_ge; lia).
    reflexivity.
  - intros now1 now2 e H. rewrite complete_get_games.
    replace (450000 <? now1 - lastOddsSyncAt s)%Z with true
      by (symmetry; apply Z.ltb_lt; lia).
    reflexivity.
  - intros now1 now2 events H r. cbn [serve]. rewrite complete_get_games.
    replace (450000 <? now1 - lastOddsSyncAt s)%Z with true
      by (symmetry; apply Z.ltb_lt; lia).
    reflexivity.
Qed.

End Listing.

Lemma listing_cooldown_witness :
  forallb (within_cooldown 1000)
    [GetGames 2000 2500 (FeedData [Scenario.quoted]);
     GetGames 451000 451900 (FeedError "timeout")] = true
  /\ serve_all (fun l => l) (fun l => l) None
       {| store := Scenario.two_markets; lastOddsSyncAt := 1000 |}
       [GetGames 2000 2500 (FeedData [Scenario.quoted]);
        GetGames 451000 451900 (FeedError "timeout")]
     = {| store := Scenario.two_markets; lastOddsSyncAt := 1000 |}.
Proof.
  assert (H : forallb (within_cooldown 1000)
                [GetGames 2000 2500 (FeedData [Scenario.quoted]);
                 GetGames 451000 451900 (FeedError "timeout")] = true)
    by reflexivity.
  split; [exact H|].
  exact (proj1 (listing_cooldown (fun l => l) (fun l => l)
                  {| store := Scenario.two_markets; lastOddsSyncAt := 1000 |} None)
           _ H).
Defined.

(** ** Games inserted by hand, and reading one's writes *)

Section Reads.

Variable order_by_start_time : list game -> list game.
Variable order_by_created_at : list bet -> list bet.

Abbreviation complete3 := (complete order_by_start_time order_by_created_at).

(** X12.  A game inserted through [POST /admin/add-game] is a row without
    external id, side names and draw price; and such a row is inert.  Every
    placement on it is rejected with a 400 answer and no write, whatever the
    selected side; and, the listing returning only rows it selected, no
    listing of [GET /api/bet/games] shows it. *)
Theorem games_by_hand_are_inert
    (selects_only : forall l g, In g (order_by_start_time l) -> In g l) :
  (forall gameName gameType odds startTime d,
      let g := manual_game (games_seq d) gameName gameType odds startTime in
      complete3 (add_game gameName gameType odds startTime) d
      = (insert_game g d, json_ok g)
      /\ by_hand g)
  /\ (forall g req d,
        by_hand g ->
        find (fun x => (g_id x =? param_id (Bet.gameId req))%Z) (games d) = Some g ->
        exists msg, run (Bet.place req) d = (d, json_error 400 msg))
  /\ (forall g now1 now2 feed last d rows os,
        by_hand g ->
        snd (snd (complete3 (get_games now1 now2 feed last) d)) = json_ok (os, rows) ->
        ~ In g rows).
Proof.
  split; [|split].
  - intros gameName gameType odds startTime d g. split; [reflexivity|].
    unfold by_hand, g. now repeat split.
  - intros g req d [_ [H1 [H2 H3]]] Hg. rewrite place_run, Hg.
    destruct (invalid_request req); [eauto|].
    assert (Hrej : Bet.odds_rejected
                     (Bet.chosenOdds g (Bet.name_or_empty (Bet.selectedTeam req)))
                   = true).
    { unfold Bet.chosenOdds. rewrite H1, H2, H3. cbn [ostr_eqb truthy_onum].
      rewrite andb_false_r.
      now destruct (String.eqb (Bet.name_or_empty (Bet.selectedTeam req)) "Draw"). }
    rewrite Hrej. eauto.
  - intros g now1 now2 feed last d rows os [H0 _] Hresp Hin.
    rewrite complete_get_games in Hresp.
    assert (Hnot : forall d', ~ In g (order_by_start_time (filter from_feed (games d')))).
    { intros d' H. apply selects_only in H. apply filter_In in H.
      destruct H as [_ H]. unfold from_feed in H. rewrite H0 in H. discriminate H. }
    destruct (450000 <? now1 - last)%Z.
    + destruct feed as [events|e]; cbn [snd] in Hresp;
        injection Hresp as _ <-; exact (Hnot _ Hin).
    + cbn [snd] in Hresp. injection Hresp as _ <-. exact (Hnot _ Hin).
Qed.

(** X13.  Reads return what was written.  The row that a successful
    [add-coins] answers with is the row the balance read of that account
    returns next.  After an accepted placement, the balance read of the
    account returns its row with the stake debited, and the listing of its
    wagers, which leaves out no row it selected, contains the new wager. *)
Theorem reads_follow_writes
    (keeps_all : forall l b, In b l -> In b (order_by_created_at l)) :
  (forall userId amount coinsv d u,
      snd (run (Admin.add_coins userId amount coinsv) d) = json_ok u ->
      snd (complete3 (user_balance (param_id userId))
             (fst (run (Admin.add_coins userId amount coinsv) d)))
      = json_ok u)
  /\ (forall req d b,
        snd (run (Bet.place req) d) = json_ok b ->
        let d' := fst (run (Bet.place req) d) in
        (exists u u',
            find_user d (user_id b) = Some u
            /\ snd (complete3 (user_balance (user_id b)) d') = json_ok u'
            /\ u_id u' = user_id b
            /\ coins u' = Some (nsub (COALESCE0 (coins u)) (bet_amount b)))
        /\ exists rows,
             snd (complete3 (user_bets (user_id b)) d') = json_ok rows
             /\ In b rows).
Proof.
  split.
  - intros userId amount coinsv d u. unfold Admin.add_coins.
    destruct (negb (truthy_id userId) || isNaN (Number (nullish amount coinsv)));
      [discriminate|].
    cbn [bind await run exec fst snd complete perform user_balance users with_users].
    destruct (filter _ (map _ (users d))) as [|u0 rest] eqn:E; [discriminate|].
    intros [= ->]. cbn [run fst users with_users]. rewrite E. reflexivity.
  - intros req d b Hplace d'. subst d'.
    pose proof (place_run req d) as Hr.
    destruct (invalid_request req); [rewrite Hr in Hplace; discriminate Hplace|].
    destruct (find _ (games d)) as [g|]; [|rewrite Hr in Hplace; discriminate Hplace].
    destruct (Bet.odds_rejected _); [rewrite Hr in Hplace; discriminate Hplace|].
    destruct (find_user d _) as [u|] eqn:Hu;
      [|rewrite Hr in Hplace; discriminate Hplace].
    destruct (nlt _ _); [rewrite Hr in Hplace; discriminate Hplace|].
    rewrite Hr in Hplace |- *. cbn [fst snd] in Hplace |- *.
    injection Hplace as <-.
    cbn [bet_of_values user_id bet_amount Bet.wager_values v_user_id v_bet_amount].
    split.
    + exists u, (debit_row (Number (Bet.betAmount req)) (param_id (Bet.userId req)) u).
      split; [exact Hu|].
      cbn [complete perform user_balance insert_bet debited users with_users].
      pose proof (hd_filter_find (fun x => (u_id x =? param_id (Bet.userId req))%Z)
                    (map (debit_row (Number (Bet.betAmount req))
                            (param_id (Bet.userId req))) (users d))) as Hh.
      rewrite find_user_debit in Hh. unfold find_user in Hu. rewrite Hu in Hh.
      destruct (filter _ (map _ (users d))) as [|u0 rest]; [discriminate Hh|].
      cbn in Hh. injection Hh as ->.
      apply find_some in Hu. destruct Hu as [_ Hid]. 
      unfold debit_row. rewrite Hid. cbn [snd set_coins u_id coins].
      apply Z.eqb_eq in Hid. now repeat split.
    + eexists. split; [reflexivity|]. apply keeps_all. apply filter_In. split.
      * cbn [insert_bet bets]. apply in_or_app. right. now left.
      * cbn. apply Z.eqb_refl.
Qed.

End Reads.

Lemma games_by_hand_are_inert_witness :
  by_hand Extras.chess
  /\ find (fun x => (g_id x =? param_id (Bet.gameId (Extras.stake_on_chess "Draw")))%Z)
       (games Extras.with_chess) = Some Extras.chess
  /\ exists msg,
       run (Bet.place (Extras.stake_on_chess "Draw")) Extras.with_chess
       = (Extras.with_chess, json_error 400 msg).
Proof.
  assert (H1 : by_hand Extras.chess) by (unfold by_hand; now repeat split).
  assert (H2 : find (fun x => (g_id x =? param_id
                                 (Bet.gameId (Extras.stake_on_chess "Draw")))%Z)
                 (games Extras.with_chess) = Some Extras.chess) by reflexivity.
  split; [exact H1|]. split; [exact H2|].
  exact (proj1 (proj2 (games_by_hand_are_inert (fun l => l) (fun l => l)
                         (fun l g H => H)))
           Extras.chess (Extras.stake_on_chess "Draw") Extras.with_chess H1 H2).
Defined.

Lemma reads_follow_writes_witness :
  snd (run (Bet.place Scenario.stake_40_red) Scenario.fresh)
  = json_ok (Scenario.stake_on_red pending)
  /\ exists rows,
       snd (complete (fun l => l) (fun l => l)
              (user_bets (user_id (Scenario.stake_on_red pending)))
              (fst (run (Bet.place Scenario.stake_40_red) Scenario.fresh)))
       = json_ok rows
       /\ In (Scenario.stake_on_red pending) rows.
Proof.
  assert (H : snd (run (Bet.place Scenario.stake_40_red) Scenario.fresh)
              = json_ok (Scenario.stake_on_red pending)) by reflexivity.
  split; [exact H|].
  exact (proj2 (proj2 (reads_follow_writes (fun l => l) (fun l => l)
                         (fun l b Hb => Hb))
                  Scenario.stake_40_red Scenario.fresh
                  (Scenario.stake_on_red pending) H)).
Defined.

(** ** Invariants of the wager table across requests *)

Lemma erase_status_id (b : bet) : b_id (erase_status b) = b_id b.
Proof. reflexivity. Qed.

Lemma erase_status_row (s : bet_status) (id : Z) (b : bet) :
  erase_status (status_row s id b) = erase_status b.
Proof. unfold status_row. now destruct (b_id b =? id)%Z. Qed.

Lemma map_erase_status_row (s : bet_status) (id : Z) (bs : list bet) :
  map erase_status (map (status_row s id) bs) = map erase_status bs.
Proof. rewrite map_map. apply map_ext. intro b. apply erase_status_row. Qed.

Lemma extends_same (d d' : db) :
  map erase_status (bets d') = map erase_status (bets d) ->
  bets_seq d' = bets_seq d -> extends d d'.
Proof.
  intros Hb Hs. split; [lia|]. exists []. rewrite app_nil_r.
  split; [exact Hb|]. split; [constructor|intros n []].
Qed.

Lemma extends_refl (d : db) : extends d d.
Proof. now apply extends_same. Qed.

Lemma extends_trans (d1 d2 d3 : db) : extends d1 d2 -> extends d2 d3 -> extends d1 d3.
Proof.
  intros [Hs1 [n1 [Hb1 [Hd1 Hr1]]]] [Hs2 [n2 [Hb2 [Hd2 Hr2]]]].
  split; [lia|]. exists (n1 ++ n2). split; [|split].
  - now rewrite Hb2, Hb1, app_assoc.
  - rewrite map_app. apply NoDup_app; [exact Hd1|exact Hd2|].
    intros i Hi1 Hi2. apply in_map_iff in Hi1. apply in_map_iff in Hi2.
    destruct Hi1 as [x [<- Hx]]. destruct Hi2 as [y [E Hy]].
    specialize (Hr1 x Hx). specialize (Hr2 y Hy). lia.
  - intros n Hn. apply in_app_or in Hn. destruct Hn as [Hn|Hn].
    + specialize (Hr1 n Hn). lia.
    + specialize (Hr2 n Hn). lia.
Qed.

Lemma extends_key (d d' : db) : key_invariant d -> extends d d' -> key_invariant d'.
Proof.
  intros [Hnd Hlt] [Hs [news [Hb [Hd Hr]]]].
  assert (Hids : map b_id (bets d') = map b_id (bets d) ++ map b_id news).
  { rewrite <- (map_ext _ _ erase_status_id (bets d')).
    rewrite <- (map_map erase_status b_id), Hb, map_app, map_map.
    f_equal. }
  split.
  - rewrite Hids. apply NoDup_app; [exact Hnd|exact Hd|].
    intros i Hi1 Hi2. apply in_map_iff in Hi1. apply in_map_iff in Hi2.
    destruct Hi1 as [x [<- Hx]]. destruct Hi2 as [y [E Hy]].
    specialize (Hlt x Hx). specialize (Hr y Hy). lia.
  - intros b Hb'. apply (in_map b_id) in Hb'. rewrite Hids in Hb'.
    apply in_app_or in Hb'. destruct Hb' as [H|H]; apply in_map_iff in H;
      destruct H as [x [E Hx]]; rewrite <- E.
    + specialize (Hlt x Hx). lia.
    + specialize (Hr x Hx). lia.
Qed.

Lemma fold_status_step_erase (w : option string) (rows bs : list bet) :
  map erase_status (fold_left (status_step w) rows bs) = map erase_status bs.
Proof.
  revert bs. induction rows as [|x rows IH]; intro bs; [reflexivity|].
  cbn [fold_left]. rewrite IH. apply map_erase_status_row.
Qed.

Lemma resolve_event_erase (ev : Admin.raw_result) (k : Z) (d : db) :
  let d' := fst (run (Admin.resolve_event ev k) d) in
  map erase_status (bets d') = map erase_status (bets d)
  /\ bets_seq d' = bets_seq d.
Proof.
  cbv zeta. rewrite run_resolve_event.
  destruct (event_target (games d) ev) as [[w name]|]; [|now split].
  rewrite run_settle_bets. cbn [fst bets bets_seq with_users with_bets].
  split; [apply fold_status_step_erase|reflexivity].
Qed.

Lemma resolve_events_erase (evs : list Admin.raw_result) (k : Z) (d : db) :
  let d' := fst (run (Admin.resolve_events evs k) d) in
  map erase_status (bets d') = map erase_status (bets d)
  /\ bets_seq d' = bets_seq d.
Proof.
  revert k d. induction evs as [|ev evs IH]; intros k d; [now split|].
  cbv zeta. cbn [Admin.resolve_events]. rewrite run_bind.
  destruct (IH (snd (run (Admin.resolve_event ev k) d))
               (fst (run (Admin.resolve_event ev k) d))) as [H1 H2].
  destruct (resolve_event_erase ev k d) as [H3 H4].
  cbv zeta in *. split; congruence.
Qed.

Lemma auto_resolve_extends (scope : list string) (apiKey : option string)
    (feed : Admin.scores_response) (d : db) :
  extends d (fst (run (Admin.auto_resolve_in scope apiKey feed) d)).
Proof.
  rewrite run_auto_resolve_in.
  destruct (negb (truthy_ostr apiKey)); [apply extends_refl|].
  destruct (negb (str_mem "axios" scope)); [apply extends_refl|].
  destruct feed as [events|message]; [|apply extends_refl].
  cbv zeta. cbn [fst].
  destruct (resolve_events_erase (filter Admin.completed events) 0 d) as [H1 H2].
  now apply extends_same.
Qed.

Lemma add_coins_bets (userId : option Z) (amount coinsv : jsval) (d : db) :
  bets (fst (run (Admin.add_coins userId amount coinsv) d)) = bets d
  /\ bets_seq (fst (run (Admin.add_coins userId amount coinsv) d)) = bets_seq d.
Proof.
  unfold Admin.add_coins.
  destruct (negb (truthy_id userId) || isNaN (Number (nullish amount coinsv)));
    [now split|].
  cbn [bind await run exec].
  destruct (filter _ (map _ (users d))); now split.
Qed.

Lemma resolve_bet_extends (betId : option Z) (result : string) (d : db) :
  extends d (fst (run (Admin.resolve_bet betId result) d)).
Proof.
  rewrite run_resolve_bet_store.
  destruct (negb (truthy_id betId) || _); [apply extends_refl|].
  destruct (find_bet d (param_id betId)) as [b|]; [|apply extends_refl].
  apply extends_same.
  - cbn [bets with_bets]. apply map_erase_status_row.
  - now destruct (String.eqb result "won").
Qed.

Lemma place_bets (req : Bet.place_request) (d : db) :
  let d' := fst (run (Bet.place req) d) in
  (bets d' = bets d /\ bets_seq d' = bets_seq d)
  \/ (exists b, bets d' = bets d ++ [b] /\ b_id b = bets_seq d
                /\ status b = pending
                /\ bets_seq d' = (bets_seq d + 1)%Z).
Proof.
  cbv zeta. rewrite place_run.
  destruct (invalid_request req); [now left|].
  destruct (find _ (games d)) as [g|]; [|now left].
  destruct (Bet.odds_rejected _); [now left|].
  destruct (find_user d _) as [u|]; [|now left].
  destruct (nlt _ _); [now left|].
  right. eexists. cbn. repeat split.
Qed.

Lemma place_extends (req : Bet.place_request) (d : db) :
  extends d (fst (run (Bet.place req) d)).
Proof.
  destruct (place_bets req d) as [[Hb Hs]|[b [Hb [Hid [Hp Hs]]]]].
  - apply extends_same; [now rewrite Hb|exact Hs].
  - split; [lia|]. exists [erase_status b]. split; [|split].
    + now rewrite Hb, map_app.
    + constructor; [intros []|constructor].
    + intros n [<-|[]]. rewrite erase_status_id. lia.
Qed.

Section Server.

Variable order_by_start_time : list game -> list game.
Variable order_by_created_at : list bet -> list bet.
Variable env : option string.

Abbreviation complete4 := (complete order_by_start_time order_by_created_at).
Abbreviation serve4 := (serve order_by_start_time order_by_created_at env).
Abbreviation serve_all4 := (serve_all order_by_start_time order_by_created_at env).

Lemma guarded_store {A : Type} (key : option string) (next : handler (response A)) (d : db) :
  fst (complete4 (requireAdmin env key next) d) = d
  \/ fst (complete4 (requireAdmin env key next) d) = fst (complete4 next d).
Proof.
  unfold requireAdmin.
  destruct (negb (truthy_ostr key) || negb (ostr_eqb key (ADMIN_KEY env)));
    [now left|now right].
Qed.

(** The store after a request: the store before it, or what the handler
    behind the route leaves. *)
Lemma serve_store (s : server) (r : request) :
  store (serve4 s r) = store s
  \/ match r with
     | PostAddCoins _ userId amount coinsv =>
         store (serve4 s r) = fst (run (Admin.add_coins userId amount coinsv) (store s))
     | PostAutoResolve _ apiKey feed =>
         store (serve4 s r) = fst (run (Admin.auto_resolve apiKey feed) (store s))
     | PostResolveBet _ betId result =>
         store (serve4 s r) = fst (run (Admin.resolve_bet betId result) (store s))
     | PostAddGame _ n t o st =>
         store (serve4 s r) = insert_game (manual_game (games_seq (store s)) n t o st)
                                (store s)
     | GetGames _ _ (FeedData events) =>
         store (serve4 s r) = fst (run (Bet.syncEflCupOddsToDB events) (store s))
     | PostPlace req => store (serve4 s r) = fst (run (Bet.place req) (store s))
     | _ => False
     end.
Proof.
  destruct r; cbn [serve store].
  - unfold admin_add_coins.
    destruct (guarded_store key (lift (Admin.add_coins userId amount coinsv)) (store s))
      as [H|H]; [now left|right]. now rewrite H, complete_lift.
  - unfold admin_auto_resolve.
    destruct (guarded_store key
                (requireAdmin env key (lift (Admin.auto_resolve apiKey feed))) (store s))
      as [H|H]; [now left|]. rewrite H.
    destruct (guarded_store key (lift (Admin.auto_resolve apiKey feed)) (store s))
      as [H'|H']; [now left|right]. now rewrite H', complete_lift.
  - unfold admin_resolve_bet.
    destruct (guarded_store key (lift (Admin.resolve_bet betId result)) (store s))
      as [H|H]; [now left|right]. now rewrite H, complete_lift.
  - unfold admin_add_game.
    destruct (guarded_store key (add_game gameName gameType odds startTime) (store s))
      as [H|H]; [now left|right]. now rewrite H.
  - rewrite complete_get_games.
    destruct (450000 <? now1 - lastOddsSyncAt s)%Z; [|now left].
    destruct feed; [now right|now left].
  - right. now rewrite complete_lift.
  - left. cbn [user_balance complete perform].
    now destruct (filter _ (users (store s))).
  - now left.
Qed.

Lemma serve_extends (s : server) (r : request) :
  extends (store s) (store (serve4 s r)).
Proof.
  destruct (serve_store s r) as [H|H]; [rewrite H; apply extends_refl|].
  destruct r; try contradiction; try rewrite H.
  - destruct (add_coins_bets userId amount coinsv (store s)) as [H1 H2].
    apply extends_same; [now rewrite H1|exact H2].
  - apply (auto_resolve_extends Admin.top_level).
  - apply resolve_bet_extends.
  - now apply extends_same.
  - destruct feed; [|contradiction]. rewrite H.
    destruct (sync_ledger events (store s)) as [_ [H1 H2]].
    apply extends_same; [now rewrite H1|exact H2].
  - apply place_extends.
Qed.

Lemma serve_all_extends (s : server) (rs : list request) :
  extends (store s) (store (serve_all4 s rs)).
Proof.
  revert s. unfold serve_all. induction rs as [|r rs IH]; intro s;
    [apply extends_refl|].
  cbn [fold_left]. eapply extends_trans; [apply serve_extends|apply IH].
Qed.

(** X14.  Whatever requests are served, the ids of the wagers stay a key
    of the table and stay below the serial counter, once they are: this is
    the assumption under which the loop of the batch settlement is
    described. *)
Theorem wager_ids_stay_a_key (s : server) (rs : list request)
    (Hkey : key_invariant (store s)) :
  key_invariant (store (serve_all4 s rs)).
Proof. exact (extends_key _ _ Hkey (serve_all_extends s rs)). Qed.

(** X15.  No request deletes a wager, reorders the table or rewrites the
    id, the owner, the market name, the stake, the odds or the selected side
    of a wager: after any sequence of requests the table is, statuses apart,
    the old table followed by the wagers placed since. *)
Theorem wagers_are_append_only (s : server) (rs : list request) :
  exists news : list bet,
    map erase_status (bets (store (serve_all4 s rs)))
    = map erase_status (bets (store s)) ++ news.
Proof.
  destruct (serve_all_extends s rs) as [_ [news [H _]]]. now exists news.
Qed.

Lemma serve_keeps_terminal (s : server) (r : request) (b : bet) :
  not_resolve_bet r = true ->
  key_invariant (store s) -> In b (bets (store s)) -> terminal (status b) = true ->
  In b (bets (store (serve4 s r))).
Proof.
  intros Hr [Hnd _] Hin Ht.
  destruct (serve_store s r) as [H|H]; [now rewrite H|].
  destruct r; try contradiction; try discriminate Hr; try rewrite H.
  - now rewrite (proj1 (add_coins_bets userId amount coinsv (store s))).
  - now apply (auto_resolve_keeps_terminal Admin.top_level).
  - exact Hin.
  - destruct feed; [|contradiction]. rewrite H.
    now rewrite (proj1 (proj2 (sync_ledger events (store s)))).
  - destruct (place_bets req (store s)) as [[Hb _]|[x [Hb _]]]; cbv zeta in Hb;
      rewrite Hb; [exact Hin|]. apply in_or_app. now left.
Qed.

(** X16.  Settlement is final as long as nobody resolves a wager by hand.
    In a store whose wager ids are a key, a wager that is won or lost is
    still in the table, unchanged, after any sequence of requests none of
    which is a single-wager resolution. *)
Theorem settled_wagers_stay_settled (s : server) (rs : list request) (b : bet)
    (Hrs : forallb not_resolve_bet rs = true)
    (Hkey : key_invariant (store s))
    (Hin : In b (bets (store s)))
    (Hterminal : terminal (status b) = true) :
  In b (bets (store (serve_all4 s rs))).
Proof.
  revert s Hkey Hin. unfold serve_all.
  induction rs as [|r rs IH]; intros s Hkey Hin; [exact Hin|].
  cbn [forallb] in Hrs. apply andb_true_iff in Hrs. destruct Hrs as [Hr Hrs].
  cbn [fold_left]. apply IH; [exact Hrs| |].
  - exact (extends_key _ _ Hkey (serve_extends s r)).
  - now apply serve_keeps_terminal.
Qed.

End Server.

Lemma wager_ids_stay_a_key_witness :
  key_invariant Scenario.placed
  /\ key_invariant
       (store (serve_all (fun l => l) (fun l => l) None
                 {| store := Scenario.placed; lastOddsSyncAt := 0 |}
                 [PostPlace Scenario.stake_40_red;
                  PostAutoResolve (Some "change-this-admin-key"%string)
                    (Some "key"%string) (Admin.ScoresData [Scenario.red_wins]);
                  PostResolveBet (Some "change-this-admin-key"%string)
                    (Some 1%Z) "won"])).
Proof.
  assert (H : key_invariant Scenario.placed).
  { split.
    - simpl. constructor; [intros []|constructor].
    - intros b [<-|[]]. reflexivity. }
  split; [exact H|].
  exact (wager_ids_stay_a_key (fun l => l) (fun l => l) None
           {| store := Scenario.placed; lastOddsSyncAt := 0 |} _ H).
Defined.

Lemma settled_wagers_stay_settled_witness :
  In (Scenario.stake_on_red won)
    (bets (store (serve_all (fun l => l) (fun l => l) None
                    {| store := Scenario.settled; lastOddsSyncAt := 0 |}
                    [PostAutoResolve (Some "change-this-admin-key"%string)
                       (Some "key"%string) (Admin.ScoresData [Scenario.red_wins]);
                     PostPlace Scenario.stake_40_red;
                     GetGames 500000 500100 (FeedData [Scenario.quoted])]))).
Proof.
  refine (settled_wagers_stay_settled (fun l => l) (fun l => l) None
            {| store := Scenario.settled; lastOddsSyncAt := 0 |}
            [PostAutoResolve (Some "change-this-admin-key"%string)
               (Some "key"%string) (Admin.ScoresData [Scenario.red_wins]);
             PostPlace Scenario.stake_40_red;
             GetGames 500000 500100 (FeedData [Scenario.quoted])]
            (Scenario.stake_on_red won) eq_refl _ _ eq_refl).
  - split.
    + simpl. constructor; [intros []|constructor].
    + intros b [<-|[]]. reflexivity.
  - now left.
Defined.

(** ** Best prices and the order of the bookmakers *)

Lemma nle_antisym (a b : num) : nle a b = true -> nle b a = true -> a = b.
Proof.
  destruct a, b; simpl; try reflexivity; try discriminate.
  rewrite !Qc_leb_le. intros H1 H2. f_equal. now apply Qcle_antisym.
Qed.

Lemma recorded_unique (a b : option num) (l l' : list num) :
  (forall q, In q l <-> In q l') ->
  recorded a l -> recorded b l' -> a = b.
Proof.
  intros Hsame Ha Hb. destruct a as [m|], b as [m'|]; cbn [recorded] in Ha, Hb.
  - destruct Ha as [Hin Hub], Hb as [Hin' Hub'].
    f_equal. apply nle_antisym.
    + apply Hub'. now apply Hsame.
    + apply Hub. now apply Hsame.
  - destruct Ha as [Hin _]. apply Hsame in Hin. rewrite Hb in Hin. destruct Hin.
  - destruct Hb as [Hin _]. apply Hsame in Hin. rewrite Ha in Hin. destruct Hin.
  - reflexivity.
Qed.

Lemma quotes_same_bookmakers (sd : side) (ev : Bet.raw_event) (bms : list Bet.bookmaker) :
  (forall bm, In bm (Bet.bookmakers ev) <-> In bm bms) ->
  forall q, In q (quotes sd ev) <-> In q (quotes sd (with_bookmakers ev bms)).
Proof.
  intros Hsame q. unfold quotes, h2h_outcomes. rewrite !in_map_iff.
  split; intros [o [Hq Ho]]; exists o; (split; [exact Hq|]);
    apply filter_In in Ho; destruct Ho as [Ho Hs]; apply filter_In;
    (split; [|destruct sd; exact Hs]);
    apply in_flat_map in Ho; destruct Ho as [bm [Hbm Ho]];
    apply in_flat_map; exists bm; (split; [now apply Hsame|exact Ho]).
Qed.

(** X17.  The recorded prices depend on which bookmakers quote the event,
    not on the order (or the repetition) in which the feed lists them.  For
    an event whose sides have different names, neither reading "draw", and
    whose prices are numbers, listing the same bookmakers in another order
    gives the same best prices and the same row to upsert. *)
Theorem best_prices_ignore_bookmaker_order
    (ev : Bet.raw_event) (bms : list Bet.bookmaker)
    (distinct_sides : Bet.home_team ev <> Bet.away_team ev)
    (home_not_draw : toLowerCase (Bet.home_team ev) <> "draw"%string)
    (away_not_draw : toLowerCase (Bet.away_team ev) <> "draw"%string)
    (numeric : forall o, In o (h2h_outcomes ev) -> isNaN (Bet.price o) = false)
    (same : forall bm, In bm (Bet.bookmakers ev) <-> In bm bms) :
  Bet.best_prices (with_bookmakers ev bms) = Bet.best_prices ev
  /\ Bet.priced (with_bookmakers ev bms) = Bet.priced ev.
Proof.
  assert (numeric' : forall o, In o (h2h_outcomes (with_bookmakers ev bms)) ->
                               isNaN (Bet.price o) = false).
  { intros o Ho. apply numeric. unfold h2h_outcomes in *.
    apply in_flat_map in Ho. destruct Ho as [bm [Hbm Ho]].
    apply in_flat_map. exists bm. split; [now apply same|exact Ho]. }
  destruct (best_prices_quotes ev distinct_sides home_not_draw away_not_draw)
    as [H1 [H2 H3]].
  destruct (best_prices_quotes (with_bookmakers ev bms)
              distinct_sides home_not_draw away_not_draw) as [H1' [H2' H3']].
  assert (Hside : forall sd,
             fold_left Bet.better (quotes sd (with_bookmakers ev bms)) None
             = fold_left Bet.better (quotes sd ev) None).
  { intro sd. symmetry.
    apply (recorded_unique _ _ (quotes sd ev) (quotes sd (with_bookmakers ev bms))).
    - now apply quotes_same_bookmakers.
    - apply fold_better_recorded. now apply quotes_numeric.
    - apply fold_better_recorded. now apply quotes_numeric. }
  assert (Hbest : Bet.best_prices (with_bookmakers ev bms) = Bet.best_prices ev).
  { destruct (Bet.best_prices (with_bookmakers ev bms)) as [h' dr' a'].
    destruct (Bet.best_prices ev) as [h dr a].
    cbn [Bet.bestHome Bet.bestAway Bet.bestDraw] in *.
    rewrite H1, H2, H3, H1', H2', H3', !Hside. reflexivity. }
  split; [exact Hbest|].
  unfold Bet.priced. rewrite Hbest. reflexivity.
Qed.

Lemma best_prices_ignore_bookmaker_order_witness :
  Bet.priced (with_bookmakers Scenario.quoted (rev (Bet.bookmakers Scenario.quoted)))
  = Bet.priced Scenario.quoted.
Proof.
  refine (proj2 (best_prices_ignore_bookmaker_order Scenario.quoted
                   (rev (Bet.bookmakers Scenario.quoted)) _ _ _ _ _)).
  - discriminate.
  - discriminate.
  - discriminate.
  - intros o H. simpl in H.
    repeat (destruct H as [<-|H]; [reflexivity|]). destruct H.
  - intro bm. apply in_rev.
Defined.

(** ** Rejections of add-coins *)

Lemma credit_rows_no_match (inc : num) (id : Z) (us : list user) :
  filter (fun u => (u_id u =? id)%Z) (map (credit_row inc id) us) = [] ->
  map (credit_row inc id) us = us.
Proof.
  intro H. rewrite <- (map_id us) at 2. apply map_ext_in. intros u Hu.
  unfold credit_row. destruct (u_id u =? id)%Z eqn:E; [|reflexivity].
  exfalso.
  assert (Hin : In (credit_row inc id u)
                  (filter (fun x => (u_id x =? id)%Z) (map (credit_row inc id) us))).
  { apply filter_In. split; [now apply in_map|]. now rewrite credit_row_id. }
  rewrite H in Hin. destruct Hin.
Qed.

(** X18.  An [add-coins] request that is answered with an error has
    written nothing: neither a request without user id or with an amount
    that is not a number, nor one for an account that does not exist,
    changes the store.  A body whose [amount] is absent falls back on its
    [coins] field, and a body where both are absent is rejected; and an
    accepted request touches no account but the one it names. *)
Theorem add_coins_rejections_write_nothing
    (userId : option Z) (amount coinsv : jsval) (d : db) :
  let r := run (Admin.add_coins userId amount coinsv) d in
  (is_ok (snd r) = false -> fst r = d)
  /\ (find_user d (param_id userId) = None -> is_ok (snd r) = false)
  /\ (amount = undefined -> coinsv = undefined -> is_ok (snd r) = false)
  /\ (amount = undefined ->
      r = run (Admin.add_coins userId coinsv coinsv) d)
  /\ (forall a, a <> param_id userId -> find_user (fst r) a = find_user d a).
Proof.
  cbv zeta. unfold Admin.add_coins.
  split; [|split; [|split; [|split]]].
  - destruct (negb (truthy_id userId) || isNaN (Number (nullish amount coinsv)));
      [reflexivity|].
    cbn [bind await run exec].
    destruct (filter _ (map _ (users d))) as [|u rest] eqn:E; [|discriminate].
    intros _. cbn [fst]. rewrite (credit_rows_no_match _ _ _ E). now destruct d.
  - intro Hnone.
    destruct (negb (truthy_id userId) || isNaN (Number (nullish amount coinsv)));
      [reflexivity|].
    cbn [bind await run exec].
    pose proof (hd_filter_find (fun u => (u_id u =? param_id userId)%Z)
                  (map (credit_row (Number (nullish amount coinsv)) (param_id userId))
                     (users d))) as Hh.
    rewrite find_user_credit in Hh. unfold find_user in Hnone. rewrite Hnone in Hh.
    destruct (filter _ (map _ (users d))); [reflexivity|discriminate Hh].
  - intros -> ->. cbn [nullish Number isNaN]. now rewrite orb_true_r.
  - intros ->. cbn [nullish]. now destruct coinsv.
  - intros a Ha.
    destruct (negb (truthy_id userId) || isNaN (Number (nullish amount coinsv)));
      [reflexivity|].
    cbn [bind await run exec].
    assert (E : find_user (with_users (map (credit_row (Number (nullish amount coinsv))
                                              (param_id userId)) (users d)) d) a
                = find_user d a).
    { unfold find_user. cbn [users with_users]. rewrite find_user_credit.
      destruct (find (fun u => (u_id u =? a)%Z) (users d)) as [u|] eqn:F;
        [|reflexivity].
      cbn [option_map]. f_equal. apply credit_row_other_id.
      apply find_some in F. destruct F as [_ F]. apply Z.eqb_eq in F. congruence. }
    now destruct (filter _ (map _ (users d))).
Qed.

Lemma add_coins_rejections_write_nothing_witness :
  find_user Scenario.fresh (param_id (Some 8%Z)) = None
  /\ is_ok (snd (run (Admin.add_coins (Some 8%Z) (jnum (ofZ 5)) undefined)
                   Scenario.fresh)) = false
  /\ fst (run (Admin.add_coins (Some 8%Z) (jnum (ofZ 5)) undefined) Scenario.fresh)
     = Scenario.fresh.
Proof.
  assert (H1 : find_user Scenario.fresh (param_id (Some 8%Z)) = None) by reflexivity.
  assert (H2 : is_ok (snd (run (Admin.add_coins (Some 8%Z) (jnum (ofZ 5)) undefined)
                             Scenario.fresh)) = false).
  { exact (proj1 (proj2 (add_coins_rejections_write_nothing
                           (Some 8%Z) (jnum (ofZ 5)) undefined Scenario.fresh)) H1). }
  split; [exact H1|]. split; [exact H2|].
  exact (proj1 (add_coins_rejections_write_nothing
                  (Some 8%Z) (jnum (ofZ 5)) undefined Scenario.fresh) H2).
Defined.
